(** * Cartographer: query parser, findings store, cycle detection,
      call resolution, blast radius and the query orchestrator

    A shallow embedding of the TypeScript sources of the Cartographer
    extension and the properties its specification states about them,
    followed by the agents that fill the findings store (archaeologist,
    detective, risk assessor, historian, architect), the [.env] file
    of the Gemini client and the payload of the graph view, with
    properties read off their code.

    Conventions of the embedding.
    - A JavaScript string is a [string]: a sequence of code units below
      256, read as the Latin-1 range of UTF-16.  [toLowerCase], [trim]
      and the regular-expression class [\s] are written out for that
      range.
    - [Map<string, V>] whose iteration order is never observed is a
      [gmap string V]; [Set<string>] is a [gset string]; a map that is
      iterated in insertion order is an association list.
    - Code that can throw returns a [Result]; [try]/[catch] is
      [try_catch].
    - Recursion and loops that the source leaves to the host (the DFS of
      [findCycles], the work list of the blast radius) take a fuel
      argument and return [None] when it runs out; the theorems show
      that the fuel the top-level function passes is always enough. *)

From Stdlib Require Import Ascii String ZArith QArith.
From stdpp Require Import base option list gmap strings relations pretty.

Local Open Scope string_scope.
Local Open Scope list_scope.

(* [set_solver] clears hypotheses it has already consumed. *)
#[local] Set Warnings "-clear-no-such-hyp".

(** ** Characters and strings *)

Module Chars.

Definition code (c : ascii) : nat := nat_of_ascii c.

Definition between (lo hi : nat) (c : ascii) : bool :=
  (lo <=? code c)%nat && (code c <=? hi)%nat.

Definition is_upper (c : ascii) : bool := between 65 90 c.
Definition is_lower (c : ascii) : bool := between 97 122 c.
Definition is_digit (c : ascii) : bool := between 48 57 c.

(** Upper-case letters of the Latin-1 supplement: U+00C0..U+00DE
    without the multiplication sign U+00D7. *)
Definition is_upper_latin1 (c : ascii) : bool :=
  between 192 222 c && negb (code c =? 215)%nat.

(** [String.prototype.toLowerCase], one code unit at a time. *)
Definition lower_char (c : ascii) : ascii :=
  if is_upper c || is_upper_latin1 c then ascii_of_nat (code c + 32) else c.

(** White space as [trim] and [\s] see it below U+0100: TAB, LF, VT,
    FF, CR, SPACE and NO-BREAK SPACE. *)
Definition is_space (c : ascii) : bool :=
  between 9 13 c || (code c =? 32)%nat || (code c =? 160)%nat.

Definition toLowerCase (s : list ascii) : list ascii := lower_char <$> s.

Fixpoint trimStart (s : list ascii) : list ascii :=
  match s with
  | c :: s' => if is_space c then trimStart s' else s
  | [] => []
  end.

Definition trimEnd (s : list ascii) : list ascii :=
  reverse (trimStart (reverse s)).

Definition trim (s : list ascii) : list ascii := trimEnd (trimStart s).

(** What is left of [s] after the prefix [p], if [s] starts with it. *)
Fixpoint strip_prefix (p s : list ascii) : option (list ascii) :=
  match p, s with
  | [], _ => Some s
  | a :: p', b :: s' => if decide (a = b) then strip_prefix p' s' else None
  | _ :: _, [] => None
  end.

Definition startsWith (s p : list ascii) : bool :=
  bool_decide (is_Some (strip_prefix p s)).

(** [s.endsWith(suffix)] *)
Definition endsWith (s suffix : string) : bool :=
  startsWith (reverse (list_ascii_of_string s))
             (reverse (list_ascii_of_string suffix)).

Fixpoint includes_from (s part : list ascii) : bool :=
  startsWith s part ||
  match s with
  | [] => false
  | _ :: s' => includes_from s' part
  end.

(** [s.includes(part)] *)
Definition includes (s part : string) : bool :=
  includes_from (list_ascii_of_string s) (list_ascii_of_string part).

(** An upper-case letter, in either half of the Latin-1 range. *)
Definition uppercase (c : ascii) : bool := is_upper c || is_upper_latin1 c.

(** A text without upper-case letters. *)
Definition lowered (s : list ascii) : Prop :=
  Forall (λ c, uppercase c = false) s.

(** The double quote, for the messages that quote a name. *)
Definition dquote : string := String (ascii_of_nat 34) EmptyString.

End Chars.

(** ** Regular expressions

    The fragment of ECMAScript regular expressions that [QueryParser]
    uses: literals, alternation, sequence, a greedy optional group, a
    greedy [+] over a character class, and one capturing group.  [run]
    lists every way the expression can match a prefix of the input, in
    the order the backtracking matcher tries them; the first element is
    the match JavaScript reports. *)

Module Regex.
Import Chars.

Inductive regex : Type :=
| Lit (s : string)
| ClassPlus (cls : ascii → bool)
| Alt (r1 r2 : regex)
| Seq (r1 r2 : regex)
| Opt (r : regex)
| Group (r : regex).

(** A thread of the matcher: the input still to read and the text of
    capture group 1, when it has been set. *)
Definition thread : Type := list ascii * option (list ascii).

(** [cls+]: the remaining inputs after one or more characters of the
    class, the longest run first. *)
Fixpoint class_plus (cls : ascii → bool) (s : list ascii) : list (list ascii) :=
  match s with
  | c :: s' => if cls c then class_plus cls s' ++ [s'] else []
  | [] => []
  end.

Fixpoint run (r : regex) (s : list ascii) (cap : option (list ascii))
  : list thread :=
  match r with
  | Lit l =>
      match strip_prefix (list_ascii_of_string l) s with
      | Some rest => [(rest, cap)]
      | None => []
      end
  | ClassPlus cls => (λ rest, (rest, cap)) <$> class_plus cls s
  | Alt r1 r2 => run r1 s cap ++ run r2 s cap
  | Seq r1 r2 => run r1 s cap ≫= (λ th, run r2 th.1 th.2)
  | Opt r' => run r' s cap ++ [(s, cap)]
  | Group r' =>
      (λ th : thread, (th.1, Some (take (length s - length th.1) s)))
        <$> run r' s cap
  end.

(** [str.match(re)] for a regular expression without the [g] flag: the
    leftmost start position that has a match, and there the first
    thread.  The result is capture group 1 of that match. *)
Fixpoint exec (r : regex) (s : list ascii) : option (option (list ascii)) :=
  match head (run r s None) with
  | Some th => Some th.2
  | None =>
      match s with
      | [] => None
      | _ :: s' => exec r s'
      end
  end.

(** [m[1]]: the text of group 1, the empty string when the group took
    no part in the match. *)
Definition group1 (m : option (list ascii)) : string :=
  string_of_list_ascii (default [] m).

(** A property of characters holds of the captured text, if any. *)
Definition cap_ok (P : ascii → Prop) (cap : option (list ascii)) : Prop :=
  ∀ c, cap = Some c → Forall P c.

End Regex.

(** ** src/nlp/queryParser.ts *)

Module QueryParser.
Import Chars Regex.

Record ParsedQuery : Type := {
  intent : string;
  target : string;
  confidence : Q
}.

(** [\s+] *)
Definition ws : regex := ClassPlus is_space.

(** [[a-zA-Z0-9_\-\.\/]] *)
Definition target_char (c : ascii) : bool :=
  is_lower c || is_upper c || is_digit c ||
  bool_decide (c ∈ ["_"; "-"; "."; "/"]%char).

(** [([a-zA-Z0-9_\-\.\/]+)] *)
Definition tok : regex := Group (ClassPlus target_char).

(** [(?:a|b|...)], the alternatives tried from left to right. *)
Definition alts (ls : list string) : regex :=
  match ls with
  | [] => Lit EmptyString
  | l :: ls' => foldl (λ r x, Alt r (Lit x)) (Lit l) ls'
  end.

(** [(?:\s+a|\s+b|\s+c)?] *)
Definition opt_prep (a b c : string) : regex :=
  Opt (Alt (Seq ws (Lit a)) (Alt (Seq ws (Lit b)) (Seq ws (Lit c)))).

(** [/(?:dependencies|imports)(?:\s+of|\s+in|\s+for)?\s+([a-zA-Z0-9_\-\.\/]+)/] *)
Definition re_dep : regex :=
  Seq (alts ["dependencies"; "imports"])
      (Seq (opt_prep "of" "in" "for") (Seq ws tok)).

(** [/what does\s+([a-zA-Z0-9_\-\.\/]+)\s+import/] *)
Definition re_dep2 : regex :=
  Seq (Lit "what does") (Seq ws (Seq tok (Seq ws (Lit "import")))).

(** [/(?:who calls|usage of|callers of|references to)\s+([a-zA-Z0-9_\-\.\/]+)/] *)
Definition re_usage : regex :=
  Seq (alts ["who calls"; "usage of"; "callers of"; "references to"])
      (Seq ws tok).

(** [/where is\s+([a-zA-Z0-9_\-\.\/]+)\s+used/] *)
Definition re_usage2 : regex :=
  Seq (Lit "where is") (Seq ws (Seq tok (Seq ws (Lit "used")))).

(** [/(?:history|changes|commits|evolution)(?:\s+of|\s+in|\s+for)?\s+([a-zA-Z0-9_\-\.\/]+)/] *)
Definition re_history : regex :=
  Seq (alts ["history"; "changes"; "commits"; "evolution"])
      (Seq (opt_prep "of" "in" "for") (Seq ws tok)).

(** [/who touched\s+([a-zA-Z0-9_\-\.\/]+)/] *)
Definition re_history2 : regex :=
  Seq (Lit "who touched") (Seq ws tok).

(** [/(?:risks|issues|problems|vulnerabilities)(?:\s+of|\s+in|\s+with)?\s+([a-zA-Z0-9_\-\.\/]+)/] *)
Definition re_risk : regex :=
  Seq (alts ["risks"; "issues"; "problems"; "vulnerabilities"])
      (Seq (opt_prep "of" "in" "with") (Seq ws tok)).

(** [/(?:explain|document|describe|complexity of)\s+([a-zA-Z0-9_\-\.\/]+)/] *)
Definition re_explain : regex :=
  Seq (alts ["explain"; "document"; "describe"; "complexity of"])
      (Seq ws tok).

(** [a.match(r1) || a.match(r2)] *)
Definition match2 (r1 r2 : regex) (s : list ascii) : option (option (list ascii)) :=
  match exec r1 s with
  | Some m => Some m
  | None => exec r2 s
  end.

Definition hit (i : string) (m : option (list ascii)) : ParsedQuery :=
  {| intent := i; target := group1 m; confidence := 0.9 |}.

Definition normalize (question : string) : list ascii :=
  trim (toLowerCase (list_ascii_of_string question)).

Definition parse (question : string) : option ParsedQuery :=
  let normalized := normalize question in
  match match2 re_dep re_dep2 normalized with
  | Some m => Some (hit "DEPENDENCIES" m)
  | None =>
  match match2 re_usage re_usage2 normalized with
  | Some m => Some (hit "USAGE" m)
  | None =>
  match match2 re_history re_history2 normalized with
  | Some m => Some (hit "HISTORY" m)
  | None =>
  match exec re_risk normalized with
  | Some m => Some (hit "RISKS" m)
  | None =>
  match exec re_explain normalized with
  | Some m => Some (hit "EXPLAIN" m)
  | None => None
  end end end end end.

(** *** Vocabulary of the properties *)

Definition intents : list string :=
  ["DEPENDENCIES"; "USAGE"; "HISTORY"; "RISKS"; "EXPLAIN"].

Definition patterns : list regex :=
  [re_dep; re_dep2; re_usage; re_usage2; re_history; re_history2;
   re_risk; re_explain].

(** Every capturing group of [r] is the token group. *)
Fixpoint tokened (r : regex) : Prop :=
  match r with
  | Lit _ | ClassPlus _ => True
  | Alt r1 r2 | Seq r1 r2 => tokened r1 ∧ tokened r2
  | Opt r' => tokened r'
  | Group r' => r' = ClassPlus target_char
  end.

(** Every match of [r] passes through a capturing group. *)
Fixpoint binds (r : regex) : Prop :=
  match r with
  | Group _ => True
  | Seq r1 r2 => binds r1 ∨ binds r2
  | Alt r1 r2 => binds r1 ∧ binds r2
  | _ => False
  end.

(** The capture is there, is not empty, and is made of the characters
    of the token class. *)
Definition token (cap : option (list ascii)) : Prop :=
  ∃ c, cap = Some c ∧ c ≠ [] ∧ Forall (λ a, target_char a) c.

(** What is left of the token class once the text is lower-cased. *)
Definition name_char (c : ascii) : bool :=
  is_lower c || is_digit c || bool_decide (c ∈ ["_"; "-"; "."; "/"]%char).

(** [s.toLowerCase()] on strings. *)
Definition lowerCase (s : string) : string :=
  string_of_list_ascii (toLowerCase (list_ascii_of_string s)).

End QueryParser.

(** ** Exceptions

    [Throw] is a JavaScript exception (or a rejected promise) carrying
    its message; [try_catch] is a [try { ... } catch (error) { ... }]
    block. *)

Inductive Result (A : Type) : Type :=
| Ok (a : A)
| Throw (message : string).
Arguments Ok {A} a.
Arguments Throw {A} message.

Definition try_catch {A} (body : Result A) (handler : string → Result A)
  : Result A :=
  match body with
  | Ok a => Ok a
  | Throw e => handler e
  end.

(** [for (const x of l) { s = f(s, x) }] where the body can stop the
    loop for lack of fuel. *)
Fixpoint for_each {A S : Type} (f : S → A → option S) (l : list A) (s : S)
  : option S :=
  match l with
  | [] => Some s
  | x :: l' =>
      match f s x with
      | Some s' => for_each f l' s'
      | None => None
      end
  end.

(** [Array.from(new Set(l))]: every element once, at the place of its
    first occurrence. *)
Fixpoint uniq (l : list string) : list string :=
  match l with
  | [] => []
  | x :: l' => x :: filter (λ y, y ≠ x) (uniq l')
  end.

(** ** src/knowledge/knowledge-base.ts *)

Module KnowledgeBase.
Section Store.
(** The payload type [any], with its value [null]. *)
Context {Any : Type} (null : Any).

Record AgentFinding : Type := {
  agent : string;
  timestamp : Z;
  data : Any
}.

(** [store]; [now] is the value [Date.now()] returns at the call. *)
Definition store (storage : gmap string AgentFinding)
    (agentName : string) (d : Any) (now : Z) : gmap string AgentFinding :=
  <[agentName := {| agent := agentName; timestamp := now; data := d |}]>
    storage.

Definition get (storage : gmap string AgentFinding) (agentName : string)
  : Any :=
  match storage !! agentName with
  | Some finding => data finding
  | None => null
  end.




Definition clear (storage : gmap string AgentFinding)
  : gmap string AgentFinding := ∅.
End Store.
End KnowledgeBase.

(** ** src/agents/architect.ts: [findCycles] *)

Module Architect.

(** [Dependency] of src/agents/detective.ts; its [type] is always
    ['IMPORTS']. *)
Record Dependency : Type := { from : string; to : string }.

(** [Map<string, string[]>], iterated by [graph.keys()] in insertion
    order. *)
Definition adjacency : Type := list (string * list string).

Fixpoint adj_get (graph : adjacency) (k : string) : option (list string) :=
  match graph with
  | [] => None
  | (k', vs) :: graph' => if decide (k' = k) then Some vs else adj_get graph' k
  end.

(** [if (!graph.has(k)) graph.set(k, []); graph.get(k)!.push(v)] *)
Fixpoint adj_push (graph : adjacency) (k v : string) : adjacency :=
  match graph with
  | [] => [(k, [v])]
  | (k', vs) :: graph' =>
      if decide (k' = k) then (k', vs ++ [v]) :: graph'
      else (k', vs) :: adj_push graph' k v
  end.

Definition buildAdjacency (dependencies : list Dependency) : adjacency :=
  foldl (λ graph dep, adj_push graph (from dep) (to dep)) [] dependencies.

Definition keys (graph : adjacency) : list string := fst <$> graph.

(** [path.indexOf(x)], -1 when absent. *)
Fixpoint indexOf (path : list string) (x : string) : Z :=
  match path with
  | [] => -1
  | y :: path' =>
      if decide (y = x) then 0
      else let i := indexOf path' x in
           if (i <? 0)%Z then -1 else (i + 1)%Z
  end.

(** [path.slice(start)]; a negative [start] counts from the end. *)
Definition slice_from (path : list string) (start : Z) : list string :=
  if (start <? 0)%Z
  then drop (Z.to_nat (Z.max 0 (Z.of_nat (length path) + start))) path
  else drop (Z.to_nat start) path.

Record DfsState : Type := {
  visited : gset string;
  recursionStack : gset string;
  cycles : list (list string)
}.

Definition enter (node : string) (st : DfsState) : DfsState :=
  {| visited := {[node]} ∪ visited st;
     recursionStack := {[node]} ∪ recursionStack st;
     cycles := cycles st |}.

Definition leave (node : string) (st : DfsState) : DfsState :=
  {| visited := visited st;
     recursionStack := recursionStack st ∖ {[node]};
     cycles := cycles st |}.

Definition emit (path : list string) (neighbor : string) (st : DfsState)
  : DfsState :=
  {| visited := visited st;
     recursionStack := recursionStack st;
     cycles := cycles st ++
               [slice_from path (indexOf path neighbor) ++ [neighbor]] |}.

(** The body of [for (const neighbor of neighbors)]; [rec] is the
    recursive call [visit(neighbor, [...path])]. *)
Definition neighbor_step
    (rec : string → list string → DfsState → option DfsState)
    (path : list string) (st : DfsState) (neighbor : string)
  : option DfsState :=
  if decide (neighbor ∉ visited st) then rec neighbor path st
  else if decide (neighbor ∈ recursionStack st)
       then Some (emit path neighbor st)
       else Some st.

Fixpoint visit (fuel : nat) (graph : adjacency) (node : string)
    (path : list string) (st : DfsState) : option DfsState :=
  match fuel with
  | O => None
  | S fuel' =>
      let path := path ++ [node] in
      let neighbors := default [] (adj_get graph node) in
      leave node <$>
        for_each (neighbor_step (visit fuel' graph) path) neighbors
                 (enter node st)
  end.

Definition initial : DfsState :=
  {| visited := ∅; recursionStack := ∅; cycles := [] |}.

Definition findCycles_fuel (fuel : nat) (dependencies : list Dependency)
  : option (list (list string)) :=
  let graph := buildAdjacency dependencies in
  cycles <$>
    for_each (λ st node,
                if decide (node ∉ visited st) then visit fuel graph node [] st
                else Some st)
             (keys graph) initial.

(** Every file id that occurs in the dependency list. *)
Definition nodes_of (dependencies : list Dependency) : gset string :=
  list_to_set (from <$> dependencies) ∪ list_to_set (to <$> dependencies).

(** The recursion of [visit] is never deeper than the number of file
    ids, which is the fuel [findCycles] runs with. *)
Definition findCycles (dependencies : list Dependency)
  : option (list (list string)) :=
  findCycles_fuel (S (size (nodes_of dependencies))) dependencies.

(** *** Vocabulary of the properties *)

(** [x] imports [y]. *)
Definition edge (deps : list Dependency) (x y : string) : Prop :=
  {| from := x; to := y |} ∈ deps.

(** No file reaches itself along one or more imports. *)
Definition acyclic (deps : list Dependency) : Prop :=
  ∀ x, ¬ tc (edge deps) x x.

Definition A_B_C_A : list Dependency :=
  [ {| from := "A"; to := "B" |};
    {| from := "B"; to := "C" |};
    {| from := "C"; to := "A" |} ].

Definition A_B_C : list Dependency :=
  [ {| from := "A"; to := "B" |}; {| from := "B"; to := "C" |} ].

(** Consecutive files of [p] are linked by imports. *)
Fixpoint walk (deps : list Dependency) (p : list string) : Prop :=
  match p with
  | x :: p' =>
      match p' with
      | y :: _ => edge deps x y ∧ walk deps p'
      | [] => True
      end
  | [] => True
  end.

(** A reported cycle [[x, ..., x]]: it comes back to the file it
    starts from, every step is an import, and no file is passed twice
    on the way. *)
Definition simple_cycle (deps : list Dependency) (c : list string) : Prop :=
  ∃ x mid, c = x :: mid ++ [x] ∧ walk deps c ∧ NoDup (x :: mid).

(** An order in which files were fully explored: whatever a file
    imports comes before it. *)
Definition closed_order (deps : list Dependency) (fin : list string) : Prop :=
  ∀ l1 u l2 v, fin = l1 ++ u :: l2 → edge deps u v → v ∈ l1.

(** [fin] lists the files the search has left for good. *)
Record settled (deps : list Dependency) (st : DfsState) (fin : list string)
  : Prop := {
  settled_members :
    ∀ x, x ∈ fin ↔ x ∈ visited st ∧ x ∉ recursionStack st;
  settled_order : closed_order deps fin;
  settled_stack : recursionStack st ⊆ visited st
}.

End Architect.

(** ** The knowledge graph *)

Module KnowledgeGraph.

Inductive NodeType : Type := File | Folder | Function.
Inductive EdgeType : Type := IMPORTS | DEFINES | CALLS.

#[global] Instance NodeType_eq_dec : EqDecision NodeType.
Proof. solve_decision. Defined.
#[global] Instance EdgeType_eq_dec : EqDecision EdgeType.
Proof. solve_decision. Defined.

(** What an extractor reports for one function-like unit (section 6
    of the specification, [Extraction input]). *)
Record FunctionInfo : Type := {
  func_id : string;
  name : string;
  file : string;
  startLine : Z;
  calls : list string
}.

(** The three shapes of node that [buildKnowledgeGraph] inserts:
    [{id: file, type: 'File', data: {path: file}}],
    [{id: folder, type: 'Folder', data: {path: folder}}] and
    [{id: func.id, type: 'Function', data: func}]. *)
Inductive Node : Type :=
| FileNode (path : string)
| FolderNode (path : string)
| FunctionNode (func : FunctionInfo).

Definition id (n : Node) : string :=
  match n with
  | FileNode p | FolderNode p => p
  | FunctionNode f => func_id f
  end.

Definition type (n : Node) : NodeType :=
  match n with
  | FileNode _ => File
  | FolderNode _ => Folder
  | FunctionNode _ => Function
  end.

(** [n.data.path], [n.data.name], [n.data.file]: [None] is
    [undefined]. *)
Definition data_path (n : Node) : option string :=
  match n with
  | FileNode p | FolderNode p => Some p
  | FunctionNode _ => None
  end.

Definition data_name (n : Node) : option string :=
  match n with
  | FunctionNode f => Some (name f)
  | _ => None
  end.

Definition data_file (n : Node) : option string :=
  match n with
  | FunctionNode f => Some (file f)
  | _ => None
  end.

Record Edge : Type := { from : string; to : string; etype : EdgeType }.

(** Modelled from the spec: the class [KnowledgeGraph] of
    src/graph/knowledgeGraph.ts is not among the sources.  Section 4.1
    of the specification: [addNode] inserts or overwrites by id,
    [addEdge] appends without any check, [getNode] answers absent for
    an unknown id, [getNodesByType] answers in insertion order, and
    the two adjacency queries answer the edges that leave or reach an
    id.  Nodes are kept in insertion order, an overwritten node keeps
    its place (as a key of a JavaScript [Map] does); edges are kept
    in insertion order. *)
Record KnowledgeGraph : Type := {
  nodes : list Node;
  edges : list Edge
}.

Definition empty : KnowledgeGraph := {| nodes := []; edges := [] |}.

(** Modelled from the spec: "inserts or overwrites by id" (section
    4.1), where "a node's type never changes after insertion;
    re-inserting the same id overwrites data but not type-incompatible
    content" (section 3).  A node that comes back with the type it has
    is replaced by the new one.  A node that comes back with another
    type keeps its type and its data: the data of a function fits no
    file or folder and the other way round, and a file and a folder
    of one id carry the same path. *)
Fixpoint put (ns : list Node) (n : Node) : list Node :=
  match ns with
  | [] => [n]
  | m :: ns' =>
      if decide (id m = id n)
      then (if decide (type m = type n) then n else m) :: ns'
      else m :: put ns' n
  end.

Definition addNode (g : KnowledgeGraph) (n : Node) : KnowledgeGraph :=
  {| nodes := put (nodes g) n; edges := edges g |}.

Definition addEdge (g : KnowledgeGraph) (e : Edge) : KnowledgeGraph :=
  {| nodes := nodes g; edges := edges g ++ [e] |}.

(** Modelled from the spec: the lookups of section 4.1, by id, by type
    in insertion order, and by end point of an edge. *)
Definition getNode (g : KnowledgeGraph) (i : string) : option Node :=
  head (filter (λ n, id n = i) (nodes g)).

Definition getNodesByType (g : KnowledgeGraph) (t : NodeType) : list Node :=
  filter (λ n, type n = t) (nodes g).

Definition getOutgoingEdges (g : KnowledgeGraph) (i : string) : list Edge :=
  filter (λ e, from e = i) (edges g).

Definition getIncomingEdges (g : KnowledgeGraph) (i : string) : list Edge :=
  filter (λ e, to e = i) (edges g).

Definition getNodeCount (g : KnowledgeGraph) : nat := length (nodes g).
Definition getEdgeCount (g : KnowledgeGraph) : nat := length (edges g).

End KnowledgeGraph.

(** ** Graph queries *)

Module GraphQueries.
Import KnowledgeGraph.

(** Modelled from the spec: [GraphQueries.findFunctionByName] of
    src/queries/graphQueries.ts is not among the sources.  Section
    4.2: exact, case-sensitive match over the [data.name] of the
    [Function] nodes, all matches in node-insertion order. *)
Definition findFunctionByName (g : KnowledgeGraph) (name : string)
  : list Node :=
  filter (λ n, data_name n = Some name) (getNodesByType g Function).

Record BlastRadius : Type := {
  affectedFunctions : list string;
  affectedFiles : list string;
  depth : nat
}.

(** Modelled from the spec: the state of the traversal of
    [functionBlastRadius] (section 4.2): the work list of ids with
    their BFS level, the visited ids, the ids discovered so far in
    discovery order, and the deepest level reached. *)
Record Bfs : Type := {
  queue : list (string * nat);
  seen : gset string;
  found : list string;
  maxDepth : nat
}.

(** Modelled from the spec: the incoming direction of section 4.2.
    The callers of [i] are the sources of the [CALLS] edges that reach
    it, in edge order. *)
Definition callers (g : KnowledgeGraph) (i : string) : list string :=
  from <$> filter (λ e, etype e = CALLS) (getIncomingEdges g i).

(** Modelled from the spec: the visited set of section 4.2.  One
    caller of the node taken off the work list at [level]: a caller
    seen before is skipped, a new one is marked visited, recorded and
    queued one level deeper. *)
Definition discover (level : nat) (st : Bfs) (caller : string) : Bfs :=
  if decide (caller ∈ seen st) then st
  else {| queue := queue st ++ [(caller, S level)];
          seen := {[caller]} ∪ seen st;
          found := found st ++ [caller];
          maxDepth := max (maxDepth st) (S level) |}.

Definition dequeue (rest : list (string * nat)) (st : Bfs) : Bfs :=
  {| queue := rest; seen := seen st; found := found st;
     maxDepth := maxDepth st |}.

(** Modelled from the spec: the breadth-first loop of section 4.2,
    which runs while the work list is not empty. *)
Fixpoint bfs (fuel : nat) (g : KnowledgeGraph) (st : Bfs) : option Bfs :=
  match fuel with
  | O => None
  | S fuel' =>
      match queue st with
      | [] => Some st
      | (i, level) :: rest =>
          bfs fuel' g (foldl (discover level) (dequeue rest st) (callers g i))
      end
  end.

(** Modelled from the spec: [affectedFiles] of section 4.2, the
    defining files of the affected functions, each once, in the order
    of first occurrence; an id with no [Function] node behind it has
    no defining file. *)
Definition filesOf (g : KnowledgeGraph) (ids : list string) : list string :=
  uniq (omap (λ i, getNode g i ≫= data_file) ids).

Definition start (functionId : string) : Bfs :=
  {| queue := [(functionId, 0)]; seen := {[functionId]};
     found := []; maxDepth := 0 |}.

Definition report (g : KnowledgeGraph) (st : Bfs) : BlastRadius :=
  {| affectedFunctions := found st;
     affectedFiles := filesOf g (found st);
     depth := maxDepth st |}.

Definition nothing : BlastRadius :=
  {| affectedFunctions := []; affectedFiles := []; depth := 0 |}.

(** Modelled from the spec: [GraphQueries.functionBlastRadius] of
    src/queries/graphQueries.ts is not among the sources.  Section
    4.2: a breadth-first traversal over [CALLS] edges in the incoming
    direction starting from [functionId], which tracks the visited
    ids; it answers the ids in discovery order without the start
    node, the set of their defining files and the deepest level
    reached; an unknown [functionId] gives the empty answer. *)
Definition functionBlastRadius_fuel (fuel : nat) (g : KnowledgeGraph)
    (functionId : string) : option BlastRadius :=
  match getNode g functionId with
  | None => Some nothing
  | Some _ => report g <$> bfs fuel g (start functionId)
  end.

(** Every id taken off the work list was put on it once, and apart
    from the start node only sources of edges are put on it: two
    more steps than there are edges is enough fuel. *)
Definition functionBlastRadius_opt (g : KnowledgeGraph) (functionId : string)
  : option BlastRadius :=
  functionBlastRadius_fuel (2 + length (edges g)) g functionId.

Definition functionBlastRadius (g : KnowledgeGraph) (functionId : string)
  : BlastRadius :=
  default nothing (functionBlastRadius_opt g functionId).

(** *** Vocabulary of the properties *)

(** The ids that can ever be discovered: the sources of [CALLS] edges. *)
Definition candidates (g : KnowledgeGraph) : gset string :=
  list_to_set (from <$> filter (λ e, etype e = CALLS) (edges g)).

(** What is left to do: the work list, and the candidates not seen yet. *)
Definition work (g : KnowledgeGraph) (st : Bfs) : nat :=
  length (queue st) + size (candidates g ∖ seen st).

(** What the traversal keeps true about the ids it has recorded. *)
Record tidy (f : string) (st : Bfs) : Prop := {
  tidy_start : f ∈ seen st;
  tidy_seen : ∀ x, x ∈ found st → x ∈ seen st;
  tidy_nodup : NoDup (found st);
  tidy_fresh : f ∉ found st
}.

Definition call (caller callee : string) : Edge :=
  {| from := caller; to := callee; etype := CALLS |}.

Definition unit_named (i : string) : FunctionInfo :=
  {| func_id := i; name := i; file := "src/" +:+ i +:+ ".ts";
     startLine := 1; calls := [] |}.

(** Two functions that call each other. *)
Definition A_and_B_call_each_other : KnowledgeGraph :=
  {| nodes := [FunctionNode (unit_named "A"); FunctionNode (unit_named "B")];
     edges := [call "A" "B"; call "B" "A"] |}.

End GraphQueries.

(** ** The graph build: [buildKnowledgeGraph], the extension entry point
       that follows the parser in src/nlp/queryParser.ts *)

Module Extension.
Import Chars KnowledgeGraph.

(** [WorkspaceMetadata] of src/agents/archaeologist.ts, the two
    fields the build reads. *)
Record WorkspaceMetadata : Type := {
  files : list string;
  folders : list string
}.

(** [f.data.name === call || f.id.includes(`::${call}`)] *)
Definition callMatches (call : string) (f : Node) : bool :=
  bool_decide (data_name f = Some call) || includes (id f) ("::" +:+ call).

(** [graph.getNodesByType('Function').filter(...)] *)
Definition calledFunctions (g : KnowledgeGraph) (call : string) : list Node :=
  filter (λ f, callMatches call f) (getNodesByType g Function).

(** The body of [for (const call of func.calls)]. *)
Definition linkCall (func : FunctionInfo) (g : KnowledgeGraph) (call : string)
  : KnowledgeGraph :=
  match calledFunctions g call with
  | target :: _ =>
      addEdge g {| from := func_id func; to := id target; etype := CALLS |}
  | [] => g
  end.

(** The body of [for (const func of functions)]. *)
Definition addFunction (file : string) (g : KnowledgeGraph)
    (func : FunctionInfo) : KnowledgeGraph :=
  let g1 := addNode g (FunctionNode func) in
  let g2 := addEdge g1 {| from := file; to := func_id func; etype := DEFINES |} in
  foldl (linkCall func) g2 (calls func).

Section Build.
(** The two extractors, [PythonExtractor.extract] and
    [JSExtractor.extract], for the workspace at hand. *)
Variables pythonExtract jsExtract : string → Result (list FunctionInfo).

(** [file.match(/\.(js|ts|jsx|tsx)$/)] *)
Definition isScript (file : string) : bool :=
  endsWith file ".js" || endsWith file ".ts" ||
  endsWith file ".jsx" || endsWith file ".tsx".

(** The body of [for (const file of metadata.files)]: a failing
    extractor is caught and the file contributes nothing. *)
Definition extractFile (g : KnowledgeGraph) (file : string)
  : KnowledgeGraph :=
  if endsWith file ".py" then
    match pythonExtract file with
    | Ok functions => foldl (addFunction file) g functions
    | Throw _ => g
    end
  else if isScript file then
    match jsExtract file with
    | Ok functions => foldl (addFunction file) g functions
    | Throw _ => g
    end
  else g.

(** Steps 3 and 4 of [buildKnowledgeGraph]; [metadata] and
    [dependencies] are the findings of the archaeologist and of the
    detective, [None] when the agent stored nothing. *)
Definition buildKnowledgeGraph (g : KnowledgeGraph)
    (metadata : option WorkspaceMetadata)
    (dependencies : option (list Architect.Dependency)) : KnowledgeGraph :=
  let g1 :=
    match metadata with
    | Some md =>
        foldl (λ g folder, addNode g (FolderNode folder))
              (foldl (λ g file, addNode g (FileNode file)) g (files md))
              (folders md)
    | None => g
    end in
  let g2 :=
    match dependencies with
    | Some deps =>
        foldl (λ g dep, addEdge g {| from := Architect.from dep;
                                     to := Architect.to dep;
                                     etype := IMPORTS |}) g1 deps
    | None => g1
    end in
  match metadata with
  | Some md => foldl extractFile g2 (files md)
  | None => g2
  end.
End Build.

(** The resolution rule as section 6 of the specification words it,
    for comparison with [calledFunctions]: a call name is matched
    against [data.name] and, as fallback, against the id suffix after
    the namespace separator; the first-inserted match is taken. *)
Definition resolve_by_name_then_suffix (g : KnowledgeGraph) (call : string)
  : option Node :=
  match filter (λ f, data_name f = Some call) (getNodesByType g Function) with
  | target :: _ => Some target
  | [] =>
      head (filter (λ f, endsWith (id f) ("::" +:+ call))
                   (getNodesByType g Function))
  end.

(** *** Vocabulary of the properties *)

(** Three functions of one file: [foobar], then [foo], then [main],
    which calls [foo]. *)
Definition foobar : FunctionInfo :=
  {| func_id := "a.ts::foobar"; name := "foobar"; file := "a.ts";
     startLine := 1; calls := [] |}.
Definition foo : FunctionInfo :=
  {| func_id := "a.ts::foo"; name := "foo"; file := "a.ts";
     startLine := 5; calls := [] |}.
Definition main : FunctionInfo :=
  {| func_id := "a.ts::main"; name := "main"; file := "a.ts";
     startLine := 9; calls := ["foo"] |}.

Definition built : KnowledgeGraph :=
  buildKnowledgeGraph (λ _, Ok []) (λ _, Ok [foobar; foo; main])
    KnowledgeGraph.empty (Some {| files := ["a.ts"]; folders := [] |}) None.

(** The ids of the [Function] nodes. *)
Definition functionIds (g : KnowledgeGraph) : list string :=
  id <$> getNodesByType g Function.

(** The ids of all nodes. *)
Definition nodeIds (g : KnowledgeGraph) : list string := id <$> nodes g.

(** The paths the archaeologist listed, none when it stored
    nothing. *)
Definition listedFiles (metadata : option WorkspaceMetadata) : list string :=
  match metadata with
  | Some md => files md
  | None => []
  end.

Definition listedFolders (metadata : option WorkspaceMetadata) : list string :=
  match metadata with
  | Some md => folders md
  | None => []
  end.

(** Every [CALLS] edge ends at a [Function] node.  It starts at a
    [Function] node too, unless the id of the calling function is one
    of [paths]: the node of that id then is the file or the folder,
    which keeps its type. *)
Definition linked (paths : list string) (g : KnowledgeGraph) : Prop :=
  ∀ e, e ∈ edges g → etype e = CALLS →
       to e ∈ functionIds g ∧ (from e ∈ functionIds g ∨ from e ∈ paths).

(** Every [Function] node is the target of a [DEFINES] edge. *)
Definition defined (g : KnowledgeGraph) : Prop :=
  ∀ f, FunctionNode f ∈ nodes g →
       ∃ file, {| from := file; to := func_id f; etype := DEFINES |} ∈ edges g.

(** Every [CALLS] edge starts at the id of a node and ends at a
    [Function] node. *)
Definition anchored (g : KnowledgeGraph) : Prop :=
  ∀ e, e ∈ edges g → etype e = CALLS →
       from e ∈ nodeIds g ∧ to e ∈ functionIds g.

(** Every [File] node is one of [filePaths] and every [Folder] node
    one of [folderPaths]. *)
Definition kept (filePaths folderPaths : list string) (g : KnowledgeGraph)
  : Prop :=
  ∀ n, n ∈ nodes g →
       match type n with
       | File => id n ∈ filePaths
       | Folder => id n ∈ folderPaths
       | Function => True
       end.

(** What the build keeps true of the graph. *)
Definition sound (filePaths folderPaths : list string) (g : KnowledgeGraph)
  : Prop :=
  anchored g ∧ defined g ∧ kept filePaths folderPaths g.

(** Only listed [File] and [Folder] nodes, only [IMPORTS] edges: the
    graph before the extraction. *)
Definition plain (filePaths folderPaths : list string) (g : KnowledgeGraph)
  : Prop :=
  (∀ n, n ∈ nodes g → type n ≠ Function) ∧
  kept filePaths folderPaths g ∧
  (∀ e, e ∈ edges g → etype e = IMPORTS).

(** The [IMPORTS] edges. *)
Definition imports (g : KnowledgeGraph) : list Edge :=
  filter (λ e, etype e = IMPORTS) (edges g).

(** [{from: dep.from, to: dep.to, type: 'IMPORTS'}] *)
Definition importEdge (dep : Architect.Dependency) : Edge :=
  {| from := Architect.from dep; to := Architect.to dep; etype := IMPORTS |}.

End Extension.

(** ** The explanation collaborator: [GeminiClient], src/unnamed/part_000
       (imported by the others as [./llm/geminiClient]) *)

Module Gemini.

(** Values of type [any] that travel in [metadata]. *)
#[warnings="-register-all"]
Inductive value : Type :=
| VUndefined
| VNum (q : Q)
| VStr (s : string)
| VArr (items : list value)
| VObj (fields : list (string * value)).

Record ProjectFile : Type := { path : string; content : string }.

(** What a prompt is built from.  The prompt text is a function of
    these arguments alone, so the model hands the arguments to the
    service instead of the text. *)
Inductive Prompt : Type :=
| Explanation (question intent : string) (files functions : list string)
              (metadata : option value) (contextPreview : string)
| CodebaseQuestion (question : string) (projectFiles : list ProjectFile).

(** The remote service behind [genAI.models.generateContent]: it
    throws, or answers with a [text] that may be undefined. *)
Record GoogleGenAI : Type := {
  generateContent : Prompt → Result (option string)
}.

Record GeminiClient : Type := {
  enabled : bool;
  genAI : option GoogleGenAI
}.

Definition isEnabled (c : GeminiClient) : bool :=
  enabled c && bool_decide (is_Some (genAI c)).

(** [x || null] for a string that may be undefined: the empty string
    is falsy. *)
Definition truthy (x : option string) : option string :=
  match x with
  | Some s => if decide (s = EmptyString) then None else Some s
  | None => None
  end.

(** The common body of [explainResult] and [answerCodebaseQuestion]:
    [null] when the client is off, and every error of the service is
    caught and answered with [null]. *)
Definition generate (c : GeminiClient) (p : Prompt) : option string :=
  match genAI c with
  | Some service =>
      if enabled c then
        match generateContent service p with
        | Ok text => truthy text
        | Throw _ => None
        end
      else None
  | None => None
  end.

Definition explainResult (c : GeminiClient) (question intent : string)
    (files functions : list string) (metadata : option value)
    (contextPreview : string) : option string :=
  generate c (Explanation question intent files functions metadata contextPreview).

Definition answerCodebaseQuestion (c : GeminiClient) (question : string)
    (projectFiles : list ProjectFile) : option string :=
  generate c (CodebaseQuestion question projectFiles).

(** The two settings of [projectCartographer] the client reads; an
    unset [geminiApiKey] reads as the empty string, an unset
    [enableLLM] as [false]. *)
Record Settings : Type := {
  geminiApiKey : string;
  enableLLM : bool
}.

(** The key [initialize] goes on with: the one of the [.env] file, and
    failing that the one of the settings. *)
Definition chosenKey (envKey : option string) (settings : Settings) : string :=
  match truthy envKey with
  | Some key => key
  | None => geminiApiKey settings
  end.

(** [initialize]; [envKey] is what [getApiKeyFromEnv] returns and
    [connect] is [new GoogleGenAI({ apiKey })], which can throw. *)
Definition initialize (envKey : option string) (settings : Settings)
    (connect : string → Result GoogleGenAI) : GeminiClient :=
  let apiKey := chosenKey envKey settings in
  if decide (apiKey = EmptyString)
  then {| enabled := enableLLM settings; genAI := None |}
  else match connect apiKey with
       | Ok service => {| enabled := true; genAI := Some service |}
       | Throw _ => {| enabled := false; genAI := None |}
       end.

End Gemini.

(** ** The planner and the ranking queries, at their interfaces *)

Module Planner.
(** [QueryPlan] of src/planner/queryPlanner.ts. *)
Record QueryPlan : Type := {
  intent : string;
  functionName : option string
}.
End Planner.

Module Ranking.
(** The entries [functionCentrality] and [fileImportance] return. *)
Record FunctionCentrality : Type := {
  functionId : string;
  centrality : nat;
  inDegree : nat;
  outDegree : nat
}.

Record FileImportance : Type := {
  fileId : string;
  importance : Q;
  functionCount : nat
}.
End Ranking.

(** ** The query orchestrator: [QueryOrchestrator], src/unnamed/part_001
       (imported by the others as [./orchestrator]) *)

Module Orchestrator.
Import Chars KnowledgeGraph Gemini.

Record QueryResult : Type := {
  intent : string;
  files : list string;
  functions : option (list string);
  contextPreview : option string;
  metadata : option value
}.

Definition nl : string := String (ascii_of_nat 10) EmptyString.

Definition quoted (s : string) : string := dquote +:+ s +:+ dquote.

Definition VNat (n : nat) : value := VNum (inject_Z (Z.of_nat n)).
Definition VInt (z : Z) : value := VNum (inject_Z z).
Definition VStrs (l : list string) : value := VArr (VStr <$> l).


(** [s.split(sep)] for a separator of one character. *)
Fixpoint split_on (sep : ascii) (s : string) : list string :=
  match s with
  | EmptyString => [EmptyString]
  | String c s' =>
      if decide (c = sep) then EmptyString :: split_on sep s'
      else match split_on sep s' with
           | l :: ls => String c l :: ls
           | [] => [String c EmptyString]
           end
  end.

(** [s.split('\n')] *)
Definition split_lines (s : string) : list string :=
  split_on (ascii_of_nat 10) s.

(** [l.join(sep)] *)
Definition join (sep : string) (l : list string) : string :=
  String.concat sep l.

Section Orchestrator.
(** The collaborators whose sources are elsewhere: the planner, the
    two ranking queries, and the host (file system, workspace, the
    [path] module of the platform). *)
Variable plan : string → Planner.QueryPlan.
Variable functionCentrality : KnowledgeGraph → list Ranking.FunctionCentrality.
Variable fileImportance : KnowledgeGraph → list Ranking.FileImportance.
Variable readFile : string → Result string.
Variable workspaceFolder : option string.
Variable basename : string → string.
Variable relative : string → string → string.

(** The fields of the orchestrator. *)
Variable graph : KnowledgeGraph.
Variable geminiClient : option GeminiClient.

(** [this.geminiClient && this.geminiClient.isEnabled()] *)
Definition available : option GeminiClient :=
  match geminiClient with
  | Some c => if isEnabled c then Some c else None
  | None => None
  end.

Definition buildContextPreview (files : list string) : string :=
  join (nl +:+ nl)
    (omap (λ file,
             match readFile file with
             | Ok content =>
                 Some ("File: " +:+ file +:+ nl +:+
                       join nl (take 20 (split_lines content)) +:+
                       nl +:+ "---")
             | Throw _ => None
             end)
          (take 5 files)).

Definition handleBlastRadius (p : Planner.QueryPlan) : QueryResult :=
  match truthy (Planner.functionName p) with
  | None =>
      {| intent := "blast_radius"; files := []; functions := Some [];
         contextPreview := None;
         metadata :=
           Some (VObj [("error", VStr "Function name not found in question")]) |}
  | Some functionName =>
      match GraphQueries.findFunctionByName graph functionName with
      | [] =>
          {| intent := "blast_radius"; files := []; functions := Some [];
             contextPreview := None;
             metadata :=
               Some (VObj [("error",
                            VStr ("Function " +:+ quoted functionName +:+
                                  " not found"))]) |}
      | first :: _ =>
          let functionId := id first in
          let blastRadius :=
            GraphQueries.functionBlastRadius graph functionId in
          {| intent := "blast_radius";
             files := GraphQueries.affectedFiles blastRadius;
             functions := Some (GraphQueries.affectedFunctions blastRadius);
             contextPreview := None;
             metadata :=
               Some (VObj
                 [("functionId", VStr functionId);
                  ("depth", VNat (GraphQueries.depth blastRadius));
                  ("affectedCount",
                   VNat (length (GraphQueries.affectedFunctions blastRadius)))]) |}
      end
  end.

Definition handleCentralFunctions : QueryResult :=
  let topFunctions := take 20 (functionCentrality graph) in
  {| intent := "central_functions";
     files :=
       uniq
         (omap (λ func, getNode graph (Ranking.functionId func)
                          ≫= λ node, truthy (data_file node))
               topFunctions);
     functions := Some (Ranking.functionId <$> topFunctions);
     contextPreview := None;
     metadata :=
       Some (VObj
         [("functions",
           VArr ((λ f, VObj [("id", VStr (Ranking.functionId f));
                             ("centrality", VNat (Ranking.centrality f));
                             ("inDegree", VNat (Ranking.inDegree f));
                             ("outDegree", VNat (Ranking.outDegree f))])
                   <$> topFunctions))]) |}.

Definition handleImportantFiles : QueryResult :=
  let topFiles := take 10 (fileImportance graph) in
  {| intent := "important_files";
     files := Ranking.fileId <$> topFiles;
     functions := None;
     contextPreview := None;
     metadata :=
       Some (VObj
         [("files",
           VArr ((λ f, VObj [("file", VStr (Ranking.fileId f));
                             ("importance", VNum (Ranking.importance f));
                             ("functionCount", VNat (Ranking.functionCount f))])
                   <$> topFiles))]) |}.

Definition opt_str (x : option string) : value :=
  match x with
  | Some s => VStr s
  | None => VUndefined
  end.

Definition handleFindFunction (p : Planner.QueryPlan) : QueryResult :=
  match truthy (Planner.functionName p) with
  | None =>
      {| intent := "find_function"; files := []; functions := Some [];
         contextPreview := None; metadata := None |}
  | Some functionName =>
      let functions := GraphQueries.findFunctionByName graph functionName in
      {| intent := "find_function";
         files := uniq (omap (λ func, truthy (data_file func)) functions);
         functions := Some (id <$> functions);
         contextPreview := None;
         metadata :=
           Some (VObj
             [("functions",
               VArr ((λ f, VObj [("id", VStr (id f));
                                 ("name", opt_str (data_name f));
                                 ("file", opt_str (data_file f));
                                 ("startLine",
                                  match f with
                                  | FunctionNode info => VInt (startLine info)
                                  | _ => VUndefined
                                  end)])
                       <$> functions))]) |}
  end.

Definition maxSize : nat := 50 * 1000.

(** The loop that reads [filesToRead]: a file that cannot be read
    is skipped, and the file that would pass [maxSize] is cut and
    ends the loop. *)
Fixpoint readProjectFiles (workspace : string) (filesToRead : list string)
    (totalSize : nat) : list ProjectFile :=
  match filesToRead with
  | [] => []
  | filePath :: rest =>
      match readFile filePath with
      | Ok content =>
          if (maxSize <? totalSize + String.length content)%nat then
            [{| path := relative workspace filePath;
                content := substring 0 (maxSize - totalSize) content +:+
                           nl +:+ "... (truncated)" |}]
          else
            {| path := relative workspace filePath; content := content |}
              :: readProjectFiles workspace rest
                   (totalSize + String.length content)
      | Throw _ => readProjectFiles workspace rest totalSize
      end
  end.

(** [graph.getNodesByType('File').map(n => n.data.path)] *)
Definition allFiles : list string :=
  omap data_path (getNodesByType graph File).

Definition handleGeneralQuery (question : string) : Result QueryResult :=
  match available with
  | None =>
      Ok {| intent := "unknown"; files := []; functions := Some [];
            contextPreview :=
              Some "Gemini API is not enabled. Please configure your API key in settings.";
            metadata := None |}
  | Some client =>
      try_catch
        match workspaceFolder with
        | None =>
            Ok {| intent := "general_query"; files := [];
                  functions := Some [];
                  contextPreview := Some "No workspace folder found.";
                  metadata := None |}
        | Some workspace =>
            let importantFiles :=
              Ranking.fileId <$> take 15 (fileImportance graph) in
            let filesToRead :=
              take 20 (uniq (importantFiles ++ take 20 allFiles)) in
            let projectFiles := readProjectFiles workspace filesToRead 0 in
            let answer := answerCodebaseQuestion client question projectFiles in
            Ok {| intent := "general_query"; files := filesToRead;
                  functions := None;
                  contextPreview :=
                    Some (default "Failed to get answer from Gemini API."
                                  (truthy answer));
                  metadata := None |}
        end
        (λ error,
           Ok {| intent := "general_query"; files := [];
                 functions := Some [];
                 contextPreview := Some ("Error: " +:+ error);
                 metadata := None |})
  end.

(** [n.data.path.endsWith(fileName)]: reading [endsWith] off an
    undefined [path] is a [TypeError]. *)
Definition pathEndsWith (fileName : string) (n : Node) : Result bool :=
  match data_path n with
  | Some p => Ok (endsWith p fileName)
  | None => Throw "TypeError: Cannot read properties of undefined (reading 'endsWith')"
  end.

(** [l.filter(pred)] for a predicate that can throw. *)
Fixpoint filter_throwing {A} (pred : A → Result bool) (l : list A)
  : Result (list A) :=
  match l with
  | [] => Ok []
  | x :: l' =>
      match pred x with
      | Throw e => Throw e
      | Ok keep =>
          match filter_throwing pred l' with
          | Throw e => Throw e
          | Ok kept => Ok (if keep then x :: kept else kept)
          end
      end
  end.

Definition handleDependencies (target : string) : Result QueryResult :=
  let fileName := basename target in
  match filter_throwing (pathEndsWith fileName) (getNodesByType graph File) with
  | Throw e => Throw e
  | Ok [] =>
      Ok {| intent := "DEPENDENCIES"; files := []; functions := None;
            contextPreview := None;
            metadata :=
              Some (VObj [("error",
                           VStr ("File " +:+ quoted target +:+ " not found"))]) |}
  | Ok (first :: _) =>
      let fileId := id first in
      let imports :=
        filter (λ e, etype e = IMPORTS) (getOutgoingEdges graph fileId) in
      let dependencies :=
        omap (λ e, truthy (getNode graph (to e) ≫= data_path)) imports in
      Ok {| intent := "DEPENDENCIES";
            files := option_list (data_path first);
            functions := None;
            contextPreview :=
              Some ("Dependencies of " +:+ fileName +:+ ":" +:+ nl +:+
                    join nl ((λ d, "- " +:+ basename d) <$> dependencies));
            metadata :=
              Some (VObj [("count", VNat (length dependencies));
                          ("dependencies", VStrs dependencies)]) |}
  end.

Definition handleUsage (target : string) : QueryResult :=
  match filter (λ n, data_name n = Some target)
               (getNodesByType graph Function) with
  | [] =>
      {| intent := "USAGE"; files := []; functions := None;
         contextPreview := None;
         metadata :=
           Some (VObj [("error",
                        VStr ("Function " +:+ quoted target +:+ " not found"))]) |}
  | first :: _ =>
      let funcId := id first in
      let callers :=
        filter (λ e, etype e = CALLS) (getIncomingEdges graph funcId) in
      let callingFunctions :=
        omap (λ e, truthy (getNode graph (from e) ≫= data_name)) callers in
      {| intent := "USAGE";
         files := option_list (data_file first);
         functions := Some [funcId];
         contextPreview :=
           Some ("Function " +:+ target +:+ " is called by:" +:+ nl +:+
                 join nl ((λ c, "- " +:+ c) <$> callingFunctions));
         metadata :=
           Some (VObj [("count", VNat (length callingFunctions));
                       ("callers", VStrs callingFunctions)]) |}
  end.

Definition handleHistory (target : string) : QueryResult :=
  {| intent := "HISTORY"; files := []; functions := None;
     contextPreview :=
       Some ("History analysis for " +:+ target +:+
             " requires Historian agent data integration.");
     metadata := Some (VObj [("warning", VStr "Not fully implemented yet")]) |}.

Definition handleRisks (target : string) : QueryResult :=
  {| intent := "RISKS"; files := []; functions := None;
     contextPreview :=
       Some ("Risk analysis for " +:+ target +:+
             " requires RiskAssessor agent data integration.");
     metadata := Some (VObj [("warning", VStr "Not fully implemented yet")]) |}.

(** Step 0 of [runQuery]: the [switch] over the parsed intent.
    [None] is the fall through to the planner, taken on a parser
    miss and on the intent [EXPLAIN]. *)
Definition dispatchParsed (parsed : option QueryParser.ParsedQuery)
  : option (Result QueryResult) :=
  match parsed with
  | Some q =>
      let i := QueryParser.intent q in
      let t := QueryParser.target q in
      if decide (i = "DEPENDENCIES") then Some (handleDependencies t)
      else if decide (i = "USAGE") then Some (Ok (handleUsage t))
      else if decide (i = "HISTORY") then Some (Ok (handleHistory t))
      else if decide (i = "RISKS") then Some (Ok (handleRisks t))
      else None
  | None => None
  end.

(** Step 2: the [switch] over the planned intent. *)
Definition dispatchPlan (question : string) (p : Planner.QueryPlan)
  : Result QueryResult :=
  let i := Planner.intent p in
  if decide (i = "blast_radius") then Ok (handleBlastRadius p)
  else if decide (i = "central_functions") then Ok handleCentralFunctions
  else if decide (i = "important_files") then Ok handleImportantFiles
  else if decide (i = "find_function") then Ok (handleFindFunction p)
  else handleGeneralQuery question.

(** Step 3, the explanation phase.  Neither [buildContextPreview]
    nor [explainResult] lets an error escape, so the [catch] of the
    source has nothing to catch. *)
Definition explain (question : string) (result : QueryResult) : QueryResult :=
  match available with
  | Some client =>
      if decide (intent result = "general_query") then result
      else
        let preview := buildContextPreview (files result) in
        match explainResult client question (intent result) (files result)
                (default [] (functions result)) (metadata result) preview with
        | Some explanation =>
            {| intent := intent result; files := files result;
               functions := functions result;
               contextPreview := Some explanation;
               metadata := metadata result |}
        | None => result
        end
  | None => result
  end.

Definition runQuery (question : string) : Result QueryResult :=
  match dispatchParsed (QueryParser.parse question) with
  | Some answer => answer
  | None =>
      match dispatchPlan question (plan question) with
      | Ok result => Ok (explain question result)
      | Throw e => Throw e
      end
  end.

(** *** Vocabulary of the properties *)

(** The question is not answered in step 0: the parser misses it, or
    finds an intent the [switch] has no case for. *)
Definition fallsThrough (question : string) : bool :=
  match QueryParser.parse question with
  | Some q =>
      negb (bool_decide (QueryParser.intent q ∈
              ["DEPENDENCIES"; "USAGE"; "HISTORY"; "RISKS"]))
  | None => true
  end.

(** The question ends in the [default] branch of step 2. *)
Definition generalRoute (question : string) : bool :=
  fallsThrough question &&
  negb (bool_decide (Planner.intent (plan question) ∈
          ["blast_radius"; "central_functions"; "important_files";
           "find_function"])).

(** The answer of steps 0 to 2, as it stands before the explanation
    phase: the parser's handler, or else the planner's. *)
Definition decided (question : string) : Result QueryResult :=
  match dispatchParsed (QueryParser.parse question) with
  | Some answer => answer
  | None => dispatchPlan question (plan question)
  end.

(** [pathEndsWith] where the path is there. *)
Definition pathMatches (fileName : string) (n : Node) : bool :=
  match data_path n with
  | Some p => endsWith p fileName
  | None => false
  end.




End Orchestrator.

(** The facts of an answer, as opposed to its prose. *)
Definition facts (r : QueryResult)
  : list string * option (list string) * option value :=
  (files r, functions r, metadata r).

(** The number of characters of file content in a prompt. *)
Definition contentSize (projectFiles : list ProjectFile) : nat :=
  sum_list ((λ f, String.length (content f)) <$> projectFiles).

Definition usable (c : option GeminiClient) : bool :=
  bool_decide (is_Some (available c)).

(** *** A small installation

    A planner that knows no intent, rankings that are empty, a POSIX
    workspace [/w] whose files cannot be read, and a service that
    always answers. *)

Definition planUnknown (question : string) : Planner.QueryPlan :=
  {| Planner.intent := "unknown"; Planner.functionName := None |}.

Definition noCentrality (g : KnowledgeGraph) : list Ranking.FunctionCentrality := [].
Definition noImportance (g : KnowledgeGraph) : list Ranking.FileImportance := [].
Definition unreadable (file : string) : Result string := Throw "ENOENT".

(** [path.basename] and [path.relative] of a POSIX host, the latter
    for a file below the root. *)
Definition posixBasename (p : string) : string :=
  default EmptyString (last (filter (λ seg, seg ≠ EmptyString) (split_on "/" p))).

Definition posixRelative (root p : string) : string :=
  match strip_prefix (list_ascii_of_string (root +:+ "/"))
                     (list_ascii_of_string p) with
  | Some rest => string_of_list_ascii rest
  | None => p
  end.

Definition oneFile : KnowledgeGraph :=
  {| nodes := [FileNode "/w/a.ts"]; edges := [] |}.

Definition talkative : GeminiClient :=
  {| enabled := true;
     genAI := Some {| generateContent := λ _, Ok (Some "A small project.") |} |}.

(** A client whose service is down. *)
Definition failing : GeminiClient :=
  {| enabled := true;
     genAI := Some {| generateContent := λ _, Throw "503 Service Unavailable" |} |}.

(** A function [computeTotal] and its caller [main]. *)
Definition totals : KnowledgeGraph :=
  {| nodes :=
       [FunctionNode {| func_id := "a.ts::computeTotal"; name := "computeTotal";
                        file := "a.ts"; startLine := 1; calls := [] |};
        FunctionNode {| func_id := "a.ts::main"; name := "main";
                        file := "a.ts"; startLine := 9;
                        calls := ["computeTotal"] |}];
     edges := [{| from := "a.ts::main"; to := "a.ts::computeTotal";
                  etype := CALLS |}] |}.

Definition ask_sample (g : KnowledgeGraph) (c : option GeminiClient)
    (question : string) : Result QueryResult :=
  runQuery planUnknown noCentrality noImportance unreadable (Some "/w")
           posixBasename posixRelative g c question.

Definition decided_sample (g : KnowledgeGraph) (c : option GeminiClient)
    (question : string) : Result QueryResult :=
  decided planUnknown noCentrality noImportance unreadable (Some "/w")
          posixBasename posixRelative g c question.

End Orchestrator.

(** ** src/agents/architect.ts: [ArchitectAgent.explore] *)

Module ArchitectAgent.
Import Architect Extension.

Inductive InsightType : Type := CYCLE | LAYERING | STRUCTURE.
Inductive Severity : Type := MEDIUM | HIGH.

#[global] Instance InsightType_eq_dec : EqDecision InsightType.
Proof. solve_decision. Defined.
#[global] Instance Severity_eq_dec : EqDecision Severity.
Proof. solve_decision. Defined.

Record ArchitectureInsight : Type := {
  type : InsightType;
  message : string;
  details : list string;
  severity : Severity
}.

(** Step 1, run when the detective has stored its dependencies. *)
Definition cycleInsights (dependencies : list Dependency)
  : option (list ArchitectureInsight) :=
  cycles ← findCycles dependencies;
  Some (if decide (0 < length cycles)%nat then
          [{| type := CYCLE;
              message := "Found " +:+ pretty (length cycles) +:+
                         " circular dependencies";
              details := String.concat " -> " <$> cycles;
              severity := HIGH |}]
        else []).

(** Step 2, run when the archaeologist has stored its metadata. *)
Definition structureInsights (metadata : WorkspaceMetadata)
  : list ArchitectureInsight :=
  if decide (50 < length (files metadata) ∧ length (folders metadata) < 3)%nat
  then
    [{| type := STRUCTURE;
        message := "Potential Monolithic Structure Detected";
        details :=
          ["Low folder count relative to file count. Consider grouping by feature."];
        severity := MEDIUM |}]
  else [].

(** [explore]: the list it stores under its name.  [dependencies] is
    what [knowledgeBase.get('detective')] answers and [metadata] what
    [knowledgeBase.get('archaeologist')] answers, [None] for [null];
    the result is [None] only if the search for cycles runs out of
    fuel. *)
Definition explore (dependencies : option (list Dependency))
    (metadata : option WorkspaceMetadata) : option (list ArchitectureInsight) :=
  found ← match dependencies with
          | Some deps => cycleInsights deps
          | None => Some []
          end;
  Some (found ++ match metadata with
                 | Some md => structureInsights md
                 | None => []
                 end).

(** *** Vocabulary of the properties *)

(** The list holds an insight of the type. *)
Definition reports (t : InsightType) (insights : list ArchitectureInsight)
  : Prop :=
  ∃ i, i ∈ insights ∧ type i = t.

(** More than fifty files in fewer than three folders. *)
Definition monolithic (metadata : WorkspaceMetadata) : Prop :=
  (50 < length (files metadata))%nat ∧ (length (folders metadata) < 3)%nat.

(** The severity the source gives each type of insight. *)
Definition graded (i : ArchitectureInsight) : Prop :=
  match type i with
  | CYCLE => severity i = HIGH
  | STRUCTURE => severity i = MEDIUM
  | LAYERING => False
  end.

End ArchitectAgent.

(** ** The [.env] file of the Gemini client: [getApiKeyFromEnv] *)

Module GeminiEnv.
Import Chars.

(** The character class of the two quotes, double and single. *)
Definition is_quote (c : ascii) : bool :=
  (code c =? 34)%nat || (code c =? 39)%nat.

(** [.]: any character but a line terminator, below U+0100 LF and
    CR. *)
Definition is_dot (c : ascii) : bool :=
  negb ((code c =? 10)%nat || (code c =? 13)%nat).

(** The ways [\s*] can match at the start of [s], as what is left
    of [s], the longest match first. *)
Fixpoint spaces (s : list ascii) : list (list ascii) :=
  match s with
  | c :: s' => if is_space c then spaces s' ++ [s] else [s]
  | [] => [[]]
  end.

(** Group 1 of [trimmed.match(/^GEMINI_API_KEY\s*=\s*(.+)$/)]:
    the first way to match, in the order a backtracking matcher tries
    them. *)
Definition matchKey (trimmed : list ascii) : option (list ascii) :=
  match strip_prefix (list_ascii_of_string "GEMINI_API_KEY") trimmed with
  | Some after =>
      head (r1 ← spaces after;
            r2 ← option_list (strip_prefix (list_ascii_of_string "=") r1);
            r3 ← spaces r2;
            if bool_decide (r3 ≠ []) && forallb is_dot r3 then [r3] else [])
  | None => None
  end.

(** The [replace] that strips the quotes, with a global pattern of
    two alternatives, a quote at the start and a quote at the end: a
    quote at the start goes, and a quote at the end of what is then
    left. *)
Definition unquote (s : list ascii) : list ascii :=
  let s1 := match s with
            | c :: s' => if is_quote c then s' else s
            | [] => []
            end in
  match reverse s1 with
  | c :: r => if is_quote c then reverse r else s1
  | [] => []
  end.

(** The body of the loop over the lines: the key the line gives, if
    it gives one. *)
Definition keyOfLine (line : string) : option string :=
  let trimmed := trim (list_ascii_of_string line) in
  if bool_decide (trimmed = []) ||
     startsWith trimmed (list_ascii_of_string "#") then None
  else
    match matchKey trimmed with
    | Some group =>
        let key := unquote (trim group) in
        if bool_decide (key = []) then None
        else Some (string_of_list_ascii key)
    | None => None
    end.

Fixpoint parseLines (lines : list string) : option string :=
  match lines with
  | [] => None
  | line :: rest =>
      match keyOfLine line with
      | Some key => Some key
      | None => parseLines rest
      end
  end.

Definition parseEnv (envContent : string) : option string :=
  parseLines (Orchestrator.split_lines envContent).

Section Host.
(** The host: the first workspace folder, [path.join],
    [fs.existsSync] and [fs.readFileSync]. *)
Variable workspaceFolder : option string.
Variable pathJoin : string → string → string.
Variable existsSync : string → bool.
Variable readFileSync : string → Result string.

(** [getApiKeyFromEnv]: whatever is thrown on the way is caught and
    answered with [null]. *)
Definition getApiKeyFromEnv : option string :=
  match workspaceFolder with
  | None => None
  | Some root =>
      let envPath := pathJoin root ".env" in
      if existsSync envPath then
        match readFileSync envPath with
        | Ok envContent => parseEnv envContent
        | Throw _ => None
        end
      else None
  end.
End Host.

(** *** Vocabulary of the properties *)

Definition oneLine (line : string) : Prop :=
  Forall (λ c, c ≠ ascii_of_nat 10) (list_ascii_of_string line).

(** A line of the file that the loop passes over: blank, or a
    comment. *)
Definition skipped (line : string) : Prop :=
  oneLine line ∧
  (trim (list_ascii_of_string line) = [] ∨
   startsWith (trim (list_ascii_of_string line)) (list_ascii_of_string "#")
     = true).

(** A key without white space and without quotes. *)
Definition bare (key : string) : Prop :=
  key ≠ EmptyString ∧
  Forall (λ c, is_space c = false ∧ is_quote c = false)
         (list_ascii_of_string key).

(** White space that does not end the line. *)
Definition blank (pad : string) : Prop :=
  Forall (λ c, is_space c = true ∧ c ≠ ascii_of_nat 10)
         (list_ascii_of_string pad).

(** Nothing, a double quote or a single quote. *)
Definition quoting (q : string) : Prop :=
  q = EmptyString ∨ q = dquote ∨ q = "'".

(** A line that sets the key, with white space where the pattern
    and [trim] allow it and the value in the quotes [q]. *)
Definition keyLine (pad1 pad2 pad3 pad4 q key : string) : string :=
  pad1 +:+ "GEMINI_API_KEY" +:+ pad2 +:+ "=" +:+ pad3 +:+
  q +:+ key +:+ q +:+ pad4.

End GeminiEnv.

(** ** src/agents/archaeologist.ts: [ArchaeologistAgent.explore] *)

Module Archaeologist.

Record WorkspaceMetadata : Type := {
  files : list string;
  folders : list string;
  languages : gmap string nat;
  entryPoints : list string
}.

Definition ENTRY_POINT_PATTERNS : list string :=
  ["main.py"; "index.js"; "index.ts"; "app.ts"; "app.js"; "server.ts";
   "server.js"; "main.ts"; "main.js"; "app.py"; "server.py"].

Definition langMap : list (string * string) :=
  [(".py", "Python"); (".js", "JavaScript"); (".ts", "TypeScript");
   (".jsx", "JavaScript"); (".tsx", "TypeScript"); (".java", "Java");
   (".cpp", "C++"); (".c", "C"); (".go", "Go"); (".rs", "Rust");
   (".rb", "Ruby"); (".php", "PHP")].

(** [getLanguage]: [langMap[ext] || null].  The argument is what
    [path.extname] answers, the empty string or a string that starts
    with a dot, so the lookup meets the twelve keys of the literal
    only. *)
Definition getLanguage (ext : string) : option string :=
  snd <$> head (filter (λ kv, kv.1 = ext) langMap).

(** [folders.add(folder)] on a [Set], whose members [Array.from]
    lists in the order they were first added. *)
Definition add (x : string) (set : list string) : list string :=
  if decide (x ∈ set) then set else set ++ [x].

Section Host.
(** [path.dirname], [path.extname] and [path.basename] of the
    platform. *)
Variables dirname extname basename : string → string.

(** The body of [for (const file of allFiles)]. *)
Definition step (workspacePath : string) (st : WorkspaceMetadata)
    (file : string) : WorkspaceMetadata :=
  {| files := files st ++ [file];
     folders :=
       let folder := dirname file in
       if decide (folder ≠ workspacePath) then add folder (folders st)
       else folders st;
     languages :=
       match getLanguage (extname file) with
       | Some lang =>
           <[lang := (default 0 (languages st !! lang) + 1)%nat]> (languages st)
       | None => languages st
       end;
     entryPoints :=
       if decide (basename file ∈ ENTRY_POINT_PATTERNS)
       then entryPoints st ++ [file] else entryPoints st |}.

(** [explore]: the findings it stores under its name; [allFiles] is
    what the scanner lists for the workspace. *)
Definition explore (workspacePath : string) (allFiles : list string)
  : WorkspaceMetadata :=
  foldl (step workspacePath)
        {| files := []; folders := []; languages := ∅; entryPoints := [] |}
        allFiles.

(** *** Vocabulary of the properties *)

(** The files of a language among those listed. *)
Definition written_in (lang : string) (allFiles : list string) : list string :=
  filter (λ file, getLanguage (extname file) = Some lang) allFiles.

(** The listed files whose base name is an entry point pattern. *)
Definition entries (allFiles : list string) : list string :=
  filter (λ file, basename file ∈ ENTRY_POINT_PATTERNS) allFiles.

End Host.

End Archaeologist.

(** ** The risk assessor: [RiskAssessorAgent] *)

Module RiskAssessor.
Import Chars.

Inductive RiskType : Type := SECURITY | TECH_DEBT | COMPLEXITY.
Inductive Severity : Type := LOW | MEDIUM | HIGH.

#[global] Instance RiskType_eq_dec : EqDecision RiskType.
Proof. solve_decision. Defined.
#[global] Instance RiskSeverity_eq_dec : EqDecision Severity.
Proof. solve_decision. Defined.

Record RiskFinding : Type := {
  file : string;
  line : nat;
  type : RiskType;
  message : string;
  severity : Severity
}.

#[global] Instance RiskFinding_eq_dec : EqDecision RiskFinding.
Proof. solve_decision. Defined.

(** *** The patterns

    The six patterns are sequences of literals, single characters of
    a class, and runs of a class with a least length; none has the
    global flag, so [test] keeps no state between calls. *)
Inductive atom : Type :=
| Lit (ignoreCase : bool) (text : string)
| One (class : ascii → bool)
| AtLeast (n : nat) (class : ascii → bool).

(** Letters compared under the flag [i].  The literals of the
    patterns are ASCII, and no character of the upper half of Latin-1
    is equal to an ASCII character when case is ignored, so folding
    the ASCII letters is enough. *)
Definition fold (c : ascii) : ascii :=
  if is_upper c then ascii_of_nat (code c + 32) else c.

Definition same (ignoreCase : bool) (p c : ascii) : bool :=
  if ignoreCase then bool_decide (fold p = fold c) else bool_decide (p = c).

Fixpoint literal (ignoreCase : bool) (text s : list ascii)
  : option (list ascii) :=
  match text, s with
  | [], _ => Some s
  | p :: text', c :: s' =>
      if same ignoreCase p c then literal ignoreCase text' s' else None
  | _ :: _, [] => None
  end.

(** The pattern matches at the start of [s], in one of the ways a
    run can be cut. *)
Fixpoint match_here (pat : list atom) (s : list ascii) : bool :=
  match pat with
  | [] => true
  | Lit ignoreCase text :: pat' =>
      match literal ignoreCase (list_ascii_of_string text) s with
      | Some rest => match_here pat' rest
      | None => false
      end
  | One class :: pat' =>
      match s with
      | c :: rest => class c && match_here pat' rest
      | [] => false
      end
  | AtLeast n class :: pat' =>
      (fix run (n : nat) (s : list ascii) {struct s} : bool :=
         match n with
         | 0 => match_here pat' s
         | S _ => false
         end ||
         match s with
         | c :: rest => class c && run (pred n) rest
         | [] => false
         end) n s
  end.

Fixpoint test_from (pat : list atom) (s : list ascii) : bool :=
  match_here pat s ||
  match s with
  | _ :: s' => test_from pat s'
  | [] => false
  end.

(** [regex.test(line)] *)
Definition test (pat : list atom) (line : string) : bool :=
  test_from pat (list_ascii_of_string line).

Definition is_alnum (c : ascii) : bool :=
  is_lower c || is_upper c || is_digit c.

Definition not_quote (c : ascii) : bool := negb (GeminiEnv.is_quote c).

(** A name, an equals sign in optional white space, and a quoted
    value whose characters are of a class and at least [n]. *)
Definition assignment (name : string) (n : nat) (class : ascii → bool)
  : list atom :=
  [Lit true name; AtLeast 0 is_space; Lit false "="; AtLeast 0 is_space;
   One GeminiEnv.is_quote; AtLeast n class; One GeminiEnv.is_quote].

(** A line comment that holds the word. *)
Definition comment (word : string) : list atom :=
  [Lit false "//"; AtLeast 0 GeminiEnv.is_dot; Lit false word].

Definition securityPatterns : list (list atom * string) :=
  [(assignment "api_key" 20 is_alnum, "Potential hardcoded API key");
   (assignment "password" 3 not_quote, "Potential hardcoded password");
   (assignment "secret" 3 not_quote, "Potential hardcoded secret")].

Definition debtPatterns : list (list atom * string) :=
  [(comment "TODO", "TODO comment found");
   (comment "FIXME", "FIXME comment found");
   ([Lit false "console.log"], "Console log found (production risk)")].

(** *** [analyzeFile] *)

Definition flagged (filePath : string) (lineNum : nat) (t : RiskType)
    (s : Severity) (l : string) (patterns : list (list atom * string))
  : list RiskFinding :=
  omap (λ pattern,
          if test pattern.1 l
          then Some {| file := filePath; line := lineNum; type := t;
                       message := pattern.2; severity := s |}
          else None)
       patterns.

(** The callback of [lines.forEach]. *)
Definition lineRisks (filePath : string) (index : nat) (l : string)
  : list RiskFinding :=
  let lineNum := (index + 1)%nat in
  flagged filePath lineNum SECURITY HIGH l securityPatterns ++
  flagged filePath lineNum TECH_DEBT LOW l debtPatterns.

Definition analyzeFile (filePath content : string) : list RiskFinding :=
  let lines := Orchestrator.split_lines content in
  mjoin (imap (lineRisks filePath) lines) ++
  (if decide (500 < length lines)%nat then
     [{| file := filePath; line := 0; type := COMPLEXITY;
         message := "File is too long (" +:+ pretty (length lines) +:+
                    " lines)";
         severity := MEDIUM |}]
   else []).

(** [explore]: what it stores under its name, [None] when it
    stores nothing because the archaeologist left no files.  A file
    that cannot be read is passed over. *)
Definition explore (readFile : string → Result string)
    (archaeologistData : option Archaeologist.WorkspaceMetadata)
  : option (list RiskFinding) :=
  match archaeologistData with
  | Some metadata =>
      Some (f ← Archaeologist.files metadata;
            match readFile f with
            | Ok content => analyzeFile f content
            | Throw _ => []
            end)
  | None => None
  end.

(** *** Vocabulary of the properties *)

(** Where a finding of a type points, and how it is graded, in a
    file of [n] lines. *)
Definition placed (n : nat) (r : RiskFinding) : Prop :=
  match type r with
  | SECURITY => (1 ≤ line r ≤ n)%nat ∧ severity r = HIGH
  | TECH_DEBT => (1 ≤ line r ≤ n)%nat ∧ severity r = LOW
  | COMPLEXITY => line r = 0%nat ∧ severity r = MEDIUM ∧ (500 < n)%nat
  end.

Definition consoleLog (filePath : string) (lineNum : nat) : RiskFinding :=
  {| file := filePath; line := lineNum; type := TECH_DEBT;
     message := "Console log found (production risk)"; severity := LOW |}.

End RiskAssessor.

(** ** src/agents/detective.ts: [DetectiveAgent] *)

Module Detective.
Import Chars Regex.

Definition non_space (c : ascii) : bool := negb (is_space c).

(** A double or a single quote, one character. *)
Definition quote : regex := Alt (Lit "'") (Lit dquote).

(** [\s*] and [.*]: as many as possible first, none last. *)
Definition spaces0 : regex := Opt (ClassPlus is_space).
Definition anything : regex := Opt (ClassPlus GeminiEnv.is_dot).

(** The pattern of [extractPythonImports], without its anchor: the
    word [import], white space and a module, or the word [from], white
    space, a module, white space and the word [import].  The two groups
    of the source are never set together, and the source reads them as
    [match[1] || match[2]], so they share the one capture of [run]. *)
Definition pythonImport : regex :=
  Alt (Seq (Lit "import")
           (Seq (ClassPlus is_space) (Group (ClassPlus non_space))))
      (Seq (Lit "from")
           (Seq (ClassPlus is_space)
                (Seq (Group (ClassPlus non_space))
                     (Seq (ClassPlus is_space) (Lit "import"))))).

(** The pattern of [extractJSImports]: an [import] with a [from] and
    a quoted path on the same line, or a [require] of a quoted path. *)
Definition jsImport : regex :=
  Alt (Seq (Lit "import")
           (Seq (ClassPlus is_space)
                (Seq anything
                     (Seq (ClassPlus is_space)
                          (Seq (Lit "from")
                               (Seq (ClassPlus is_space)
                                    (Seq quote
                                         (Seq (Group (ClassPlus
                                                 RiskAssessor.not_quote))
                                              quote))))))))
      (Seq (Lit "require")
           (Seq spaces0
                (Seq (Lit "(")
                     (Seq quote
                          (Seq (Group (ClassPlus RiskAssessor.not_quote))
                               (Seq quote (Lit ")"))))))).

(** A pattern anchored at the start of the line: the first way to
    match there, and its capture. *)
Definition matchStart (r : regex) (line : string) : option (option (list ascii)) :=
  snd <$> head (run r (list_ascii_of_string line) None).

(** The leftmost match at or after the start of [s]: its capture and
    the input after it. *)
Fixpoint find (r : regex) (s : list ascii) : option thread :=
  match head (run r s None) with
  | Some th => Some th
  | None =>
      match s with
      | [] => None
      | _ :: s' => find r s'
      end
  end.

(** The loop [while ((match = re.exec(content)) !== null)] of a
    pattern with the global flag: each search starts where the last
    match ended.  The captures of the matches, in order. *)
Fixpoint matchAll (fuel : nat) (r : regex) (s : list ascii)
  : option (list (option (list ascii))) :=
  match fuel with
  | 0 => None
  | S fuel' =>
      match find r s with
      | Some th => (λ rest, th.2 :: rest) <$> matchAll fuel' r th.1
      | None => Some []
      end
  end.

(** [s.startsWith(p)] on strings. *)
Definition starts (s p : string) : bool :=
  startsWith (list_ascii_of_string s) (list_ascii_of_string p).

(** [name && !name.startsWith('.')]: a module that is named and
    whose name does not start with a dot. *)
Definition absolute (name : list ascii) : bool :=
  bool_decide (name ≠ []) && negb (startsWith name (list_ascii_of_string ".")).

Definition scripts : list string := [".js"; ".ts"; ".jsx"; ".tsx"].

Section Host.
(** [path.dirname], [path.extname], [path.join] and [path.resolve]
    of the platform, each with the number of arguments the source
    passes, and [fs.readFile]. *)
Variables dirname extname : string → string.
Variables pathJoin pathResolve : string → string → string.
Variable readFile : string → Result string.
Variable workspacePath : string.

(** [resolvePythonModule]: of the four paths it lists it returns the
    first. *)
Definition resolvePythonModule (moduleName fromFile : string) : string :=
  pathJoin (dirname fromFile) (moduleName +:+ ".py").

Definition extensions : list string := [".ts"; ".tsx"; ".js"; ".jsx"; EmptyString].

Definition resolveJSModule (modulePath fromFile : string) : option string :=
  let resolved := pathResolve (dirname fromFile) modulePath in
  match
    head (omap (λ ext,
                  let withExt := resolved +:+ ext in
                  let indexPath := pathJoin resolved ("index" +:+ ext) in
                  if starts withExt workspacePath then Some withExt
                  else if starts indexPath workspacePath then Some indexPath
                  else None)
               extensions)
  with
  | Some found => Some found
  | None => if starts resolved workspacePath then Some resolved else None
  end.

(** [if (resolved) dependencies.push(...)] *)
Definition dependency (filePath : string) (resolved : option string)
  : option Architect.Dependency :=
  match Gemini.truthy resolved with
  | Some target => Some {| Architect.from := filePath; Architect.to := target |}
  | None => None
  end.

(** The body of the loop over the lines of a Python file. *)
Definition pythonLine (filePath line : string) : option Architect.Dependency :=
  match matchStart pythonImport line with
  | Some (Some moduleName) =>
      if absolute moduleName
      then dependency filePath
             (Some (resolvePythonModule (string_of_list_ascii moduleName)
                                        filePath))
      else None
  | _ => None
  end.

Definition extractPythonImports (filePath content : string)
  : list Architect.Dependency :=
  omap (pythonLine filePath) (Orchestrator.split_lines content).

(** The body of the loop over the matches in a script: a module
    path that does not start with a dot is external and passed over.
    Every match sets the capture. *)
Definition jsMatch (filePath : string) (capture : option (list ascii))
  : option Architect.Dependency :=
  match capture with
  | Some modulePath =>
      if absolute modulePath then None
      else dependency filePath
             (resolveJSModule (string_of_list_ascii modulePath) filePath)
  | None => None
  end.

(** [extractJSImports]; [None] only if the loop over the matches
    runs out of fuel. *)
Definition extractJSImports (filePath content : string)
  : option (list Architect.Dependency) :=
  match matchAll (S (String.length content)) jsImport
                 (list_ascii_of_string content) with
  | Some captures => Some (omap (jsMatch filePath) captures)
  | None => None
  end.

Definition extractFromFile (filePath content : string)
  : option (list Architect.Dependency) :=
  let ext := extname filePath in
  if decide (ext = ".py") then Some (extractPythonImports filePath content)
  else if decide (ext ∈ scripts)
       then extractJSImports filePath content
       else Some [].

(** [extractDependencies]: a file that cannot be read is passed
    over. *)
Fixpoint extractDependencies (files : list string)
  : option (list Architect.Dependency) :=
  match files with
  | [] => Some []
  | file :: rest =>
      found ← match readFile file with
              | Ok content => extractFromFile file content
              | Throw _ => Some []
              end;
      more ← extractDependencies rest;
      Some (found ++ more)
  end.

(** [explore]: what it stores under its name, [Some None] when it
    stores nothing because the archaeologist left no files. *)
Definition explore (archaeologistData : option Archaeologist.WorkspaceMetadata)
  : option (option (list Architect.Dependency)) :=
  match archaeologistData with
  | Some metadata => Some <$> extractDependencies (Archaeologist.files metadata)
  | None => Some None
  end.

(** *** Vocabulary of the properties *)

(** What the source of a dependency and its target have to do with
    each other: a Python file depends on the module file next to it
    that an absolute module name gives; a script depends on what a
    relative module path resolves to, inside the workspace. *)
Definition traced (d : Architect.Dependency) : Prop :=
  (extname (Architect.from d) = ".py" ∧
   ∃ moduleName,
     absolute moduleName = true ∧
     Architect.to d =
       resolvePythonModule (string_of_list_ascii moduleName) (Architect.from d)) ∨
  (extname (Architect.from d) ∈ scripts ∧
   ∃ modulePath,
     absolute modulePath = false ∧
     resolveJSModule (string_of_list_ascii modulePath) (Architect.from d)
       = Some (Architect.to d) ∧
     starts (Architect.to d) workspacePath = true).

End Host.




End Detective.

(** ** The graph view: [getGraphPayload] of [createWebviewPanel] *)

Module Webview.
Import Chars KnowledgeGraph.

(** What the view remembers of the risk of a file. *)
Record RiskInfo : Type := {
  severity : RiskAssessor.Severity;
  message : string;
  type : RiskAssessor.RiskType
}.

Definition info (r : RiskAssessor.RiskFinding) : RiskInfo :=
  {| severity := RiskAssessor.severity r;
     message := RiskAssessor.message r;
     type := RiskAssessor.type r |}.

(** The callback of [riskData.forEach]: the first finding of a file
    is kept, until a finding graded [HIGH] replaces one that is not. *)
Definition note (riskMap : gmap string RiskInfo) (r : RiskAssessor.RiskFinding)
  : gmap string RiskInfo :=
  if decide (RiskAssessor.file r = EmptyString) then riskMap
  else
    match riskMap !! RiskAssessor.file r with
    | Some existing =>
        if decide (RiskAssessor.severity r = RiskAssessor.HIGH ∧
                   severity existing ≠ RiskAssessor.HIGH)
        then <[RiskAssessor.file r := info r]> riskMap
        else riskMap
    | None => <[RiskAssessor.file r := info r]> riskMap
    end.

Definition riskMapOf (riskData : list RiskAssessor.RiskFinding)
  : gmap string RiskInfo :=
  foldl note ∅ riskData.

(** The colour of a node: a grade, or [ISOLATED]. *)
Inductive Risk : Type :=
| Graded (grade : RiskAssessor.Severity)
| ISOLATED.

#[global] Instance Risk_eq_dec : EqDecision Risk.
Proof. solve_decision. Defined.

Record GraphNode : Type := {
  id : string;
  label : string;
  ntype : NodeType;
  risk : Risk;
  riskMessage : option string;
  riskType : option RiskAssessor.RiskType;
  centrality : nat;
  filePath : option string;
  isolated : bool
}.

Record Link : Type := {
  source : string;
  target : string;
  ltype : EdgeType
}.

#[global] Instance Link_eq_dec : EqDecision Link.
Proof. solve_decision. Defined.

Section Host.
(** [path.basename] of the platform. *)
Variable basename : string → string.

Definition fileNode (riskMap : gmap string RiskInfo) (node : Node) : GraphNode :=
  let path := default (KnowledgeGraph.id node) (Gemini.truthy (data_path node)) in
  let riskInfo := riskMap !! path in
  {| id := KnowledgeGraph.id node;
     label := basename path;
     ntype := File;
     risk := Graded (from_option severity RiskAssessor.LOW riskInfo);
     riskMessage := message <$> riskInfo;
     riskType := type <$> riskInfo;
     centrality := 0;
     filePath := Some path;
     isolated := false |}.

(** [node.data.name || node.id.split(':').pop() || node.id] *)
Definition functionLabel (node : Node) : string :=
  match Gemini.truthy (data_name node) with
  | Some name => name
  | None =>
      match Gemini.truthy (last (Orchestrator.split_on ":" (KnowledgeGraph.id node))) with
      | Some segment => segment
      | None => KnowledgeGraph.id node
      end
  end.

(** A function as the extractors report it has no [risk] of its
    own, so its colour starts as [LOW]. *)
Definition funcNode (graph : KnowledgeGraph) (node : Node) : GraphNode :=
  let inEdges :=
    filter (λ e, etype e = CALLS) (getIncomingEdges graph (KnowledgeGraph.id node)) in
  let outEdges :=
    filter (λ e, etype e = CALLS) (getOutgoingEdges graph (KnowledgeGraph.id node)) in
  let centrality := (length inEdges + length outEdges)%nat in
  {| id := KnowledgeGraph.id node;
     label := functionLabel node;
     ntype := Function;
     risk := Graded RiskAssessor.LOW;
     riskMessage := None;
     riskType := None;
     centrality := centrality;
     filePath := data_file node;
     isolated := bool_decide (centrality = 0%nat) |}.

Definition link (e : Edge) : Link :=
  {| source := from e; target := to e; ltype := etype e |}.

(** The links of the view: the calls and the imports that leave a
    [File] or a [Function] node. *)
Definition linksOf (graph : KnowledgeGraph) : list Link :=
  node ← getNodesByType graph File ++ getNodesByType graph Function;
  link <$> filter (λ e, etype e = CALLS ∨ etype e = IMPORTS)
                  (getOutgoingEdges graph (KnowledgeGraph.id node)).

Definition connectedIds (links : list Link) : gset string :=
  list_to_set (l ← links; [source l; target l]).

(** The callback of the last [nodes.forEach]. *)
Definition mark (connected : gset string) (n : GraphNode) : GraphNode :=
  if decide (id n ∈ connected) then n
  else {| id := id n; label := label n; ntype := ntype n; risk := ISOLATED;
          riskMessage := riskMessage n; riskType := riskType n;
          centrality := centrality n; filePath := filePath n;
          isolated := true |}.

(** [getGraphPayload]; [riskData] is what the risk assessor stored,
    the empty list when there is nothing. *)
Definition getGraphPayload (graph : KnowledgeGraph)
    (riskData : list RiskAssessor.RiskFinding) : list GraphNode * list Link :=
  let riskMap := riskMapOf riskData in
  let nodes :=
    (fileNode riskMap <$> getNodesByType graph File) ++
    (funcNode graph <$> getNodesByType graph Function) in
  let links := linksOf graph in
  (mark (connectedIds links) <$> nodes, links).

End Host.

(** *** Vocabulary of the properties *)

(** The findings of a file, and the one that decides its colour: the
    first that is graded [HIGH], and without one the first. *)
Definition findingsOf (file : string) (riskData : list RiskAssessor.RiskFinding)
  : list RiskAssessor.RiskFinding :=
  filter (λ r, RiskAssessor.file r = file) riskData.

Definition deciding (file : string) (riskData : list RiskAssessor.RiskFinding)
  : option RiskAssessor.RiskFinding :=
  match head (filter (λ r, RiskAssessor.severity r = RiskAssessor.HIGH)
                     (findingsOf file riskData)) with
  | Some r => Some r
  | None => head (findingsOf file riskData)
  end.

End Webview.

(** ** The historian: [HistorianAgent] *)

Module Historian.
Import Chars.

(** [lastModified] is the time value of the [Date]. *)
Record FileHistory : Type := {
  file : string;
  commits : nat;
  authors : list string;
  lastModified : Z
}.

(** The variables of the loop over the lines of the log: the map,
    whose entries are kept in the order their files were first seen,
    and the author and date of the commit being read.  The date is
    [None] when it is an invalid [Date]. *)
Record Cursor : Type := {
  historyMap : list FileHistory;
  currentAuthor : string;
  currentDate : option Z
}.

(** [line.trim()] on strings. *)
Definition trimmed (line : string) : string :=
  string_of_list_ascii (trim (list_ascii_of_string line)).

(** What is done to the entry of a file that a commit names. *)
Definition touch (author : string) (date : option Z) (entry : FileHistory)
  : FileHistory :=
  {| file := file entry;
     commits := S (commits entry);
     authors := Archaeologist.add author (authors entry);
     lastModified :=
       match date with
       | Some d => if decide (lastModified entry < d)%Z then d
                   else lastModified entry
       | None => lastModified entry
       end |}.

(** The entry of [filePath] is made if it is not there, and
    touched. *)
Fixpoint record (filePath author : string) (date : option Z)
    (entries : list FileHistory) : list FileHistory :=
  match entries with
  | [] =>
      [touch author date
         {| file := filePath; commits := 0; authors := []; lastModified := 0 |}]
  | entry :: rest =>
      if decide (file entry = filePath) then touch author date entry :: rest
      else entry :: record filePath author date rest
  end.

Section Host.
(** [path.join], the parser of [new Date(text)], which answers
    [None] for an invalid date, and the time of [new Date()]. *)
Variable pathJoin : string → string → string.
Variable parseDate : string → option Z.
Variable now : Z.
Variable workspacePath : string.

(** The body of the loop over the lines. *)
Definition step (st : Cursor) (line : string) : Cursor :=
  if decide (trimmed line = EmptyString) then st
  else if Detective.starts line "commit:" then
    match Orchestrator.split_on "|" line with
    | _ :: author :: date :: _ =>
        {| historyMap := historyMap st;
           currentAuthor := author;
           currentDate := parseDate date |}
    | _ => st
    end
  else
    {| historyMap :=
         record (pathJoin workspacePath (trimmed line)) (currentAuthor st)
                (currentDate st) (historyMap st);
       currentAuthor := currentAuthor st;
       currentDate := currentDate st |}.

(** [analyzeGitHistory] on the output of the [git log] command. *)
Definition analyzeGitHistory (output : string) : list FileHistory :=
  historyMap
    (foldl step
           {| historyMap := []; currentAuthor := EmptyString;
              currentDate := Some now |}
           (Orchestrator.split_lines output)).

(** [explore]: what it stores under its name; when the command
    fails it stores nothing. *)
Definition explore (git : Result string) : option (list FileHistory) :=
  match git with
  | Ok output => Some (analyzeGitHistory output)
  | Throw _ => None
  end.

(** *** Vocabulary of the properties *)

(** The lines of the log that name a file, and the file a line
    names. *)
Definition pathLines (lines : list string) : list string :=
  filter (λ line, trimmed line ≠ EmptyString ∧
                  Detective.starts line "commit:" = false) lines.

Definition named (line : string) : string :=
  pathJoin workspacePath (trimmed line).

(** The lines that name the file. *)
Definition mentions (filePath : string) (lines : list string) : list string :=
  filter (λ line, named line = filePath) (pathLines lines).

(** What the loop keeps true of the map, for the lines read. *)
Definition counted (lines : list string) (entries : list FileHistory) : Prop :=
  NoDup (file <$> entries) ∧
  (∀ line, line ∈ pathLines lines → named line ∈ file <$> entries) ∧
  Forall (λ entry,
            commits entry = length (mentions (file entry) lines) ∧
            NoDup (authors entry) ∧
            (1 ≤ length (authors entry) ≤ commits entry)%nat)
         entries.

End Host.

End Historian.

(** * Properties *)

(** ** The query parser *)

Module ParserSpec.
Import Chars Regex QueryParser.

Lemma lower_char_lowered (c : ascii) : uppercase (lower_char c) = false.
Proof. by destruct c as [[] [] [] [] [] [] [] []]. Qed.

Lemma toLowerCase_lowered (s : list ascii) : lowered (toLowerCase s).
Proof.
  unfold lowered, toLowerCase. induction s as [|c s IH]; csimpl.
  - constructor.
  - constructor; [apply lower_char_lowered | exact IH].
Qed.

Section Preserved.
(** A property of every character of the input passes to what the
    string operations and the matcher cut out of it. *)
Variable P : ascii → Prop.

Lemma trimStart_Forall (s : list ascii) :
  Forall P s → Forall P (trimStart s).
Proof.
  induction 1 as [|c s Hc Hs IH]; simpl; [constructor|].
  destruct (is_space c); [exact IH | by constructor].
Qed.

Lemma trim_Forall (s : list ascii) : Forall P s → Forall P (trim s).
Proof.
  intros H. unfold trim, trimEnd.
  apply Forall_reverse, trimStart_Forall, Forall_reverse.
  by apply trimStart_Forall.
Qed.

Lemma strip_prefix_Forall (p s rest : list ascii) :
  strip_prefix p s = Some rest → Forall P s → Forall P rest.
Proof.
  revert s. induction p as [|a p IH]; intros [|b s] Heq Hs;
    simpl in Heq; simplify_eq; try done.
  case_decide; [|done]. inversion Hs; subst. eauto.
Qed.

Lemma class_plus_Forall (cls : ascii → bool) (s rest : list ascii) :
  rest ∈ class_plus cls s → Forall P s → Forall P rest.
Proof.
  induction s as [|c s IH]; simpl; [by intros ?%elem_of_nil|].
  destruct (cls c); [|by intros ?%elem_of_nil].
  intros Hin Hs. inversion Hs; subst.
  apply elem_of_app in Hin as [Hin|Hin]; [by apply IH|].
  by apply list_elem_of_singleton in Hin as ->.
Qed.

Lemma run_Forall (r : regex) :
  ∀ s cap th,
    Forall P s → cap_ok P cap → th ∈ run r s cap →
    Forall P th.1 ∧ cap_ok P th.2.
Proof.
  induction r as [l|cls|r1 IH1 r2 IH2|r1 IH1 r2 IH2|r IH|r IH];
    intros s cap th Hs Hcap Hin; simpl in Hin.
  - destruct (strip_prefix _ s) as [rest|] eqn:Hp;
      [|by apply elem_of_nil in Hin].
    apply list_elem_of_singleton in Hin as ->. simpl.
    eauto using strip_prefix_Forall.
  - apply list_elem_of_fmap in Hin as (rest & -> & Hin). simpl.
    eauto using class_plus_Forall.
  - apply elem_of_app in Hin as [Hin|Hin]; eauto.
  - apply list_elem_of_bind in Hin as (th1 & Hin2 & Hin1).
    destruct (IH1 _ _ _ Hs Hcap Hin1). eauto.
  - apply elem_of_app in Hin as [Hin|Hin]; [eauto|].
    by apply list_elem_of_singleton in Hin as ->.
  - apply list_elem_of_fmap in Hin as (th1 & -> & Hin). simpl.
    destruct (IH _ _ _ Hs Hcap Hin) as [Hrest _]. split; [done|].
    intros c [= <-]. by apply Forall_take.
Qed.

Lemma exec_Forall (r : regex) (s : list ascii) (m : option (list ascii)) :
  Forall P s → exec r s = Some m → cap_ok P m.
Proof.
  induction s as [|c s IH]; intros Hs; simpl.
  - destruct (head (run r [] None)) as [th|] eqn:Hh; [|done].
    intros [= <-]. eapply (run_Forall r [] None th); [done|by intros ?|].
    by apply head_Some_elem_of.
  - destruct (head (run r (c :: s) None)) as [th|] eqn:Hh.
    + intros [= <-].
      eapply (run_Forall r (c :: s) None th); [done|by intros ?|].
      by apply head_Some_elem_of.
    + inversion Hs; subst. by apply IH.
Qed.

Lemma match2_Forall (r1 r2 : regex) (s : list ascii) m :
  Forall P s → match2 r1 r2 s = Some m → cap_ok P m.
Proof.
  unfold match2. intros Hs.
  destruct (exec r1 s) as [m1|] eqn:H1.
  - intros [= <-]. eauto using exec_Forall.
  - eauto using exec_Forall.
Qed.
End Preserved.

Lemma normalize_lowered (question : string) : lowered (normalize question).
Proof. apply trim_Forall, toLowerCase_lowered. Qed.

Lemma group1_chars (P : ascii → Prop) (m : option (list ascii)) :
  cap_ok P m → Forall P (list_ascii_of_string (group1 m)).
Proof.
  intros H. unfold group1. rewrite list_ascii_of_string_of_list_ascii.
  destruct m as [c|]; simpl; [by apply H | constructor].
Qed.

(** Every answer of [parse] is a [hit] on a capture cut out of the
    normalized question. *)
Lemma parse_hit (question : string) (p : ParsedQuery) :
  parse question = Some p →
  ∃ i m, p = hit i m ∧ cap_ok (λ c, uppercase c = false) m.
Proof.
  unfold parse. pose proof (normalize_lowered question) as Hn.
  set (s := normalize question) in *.
  destruct (match2 re_dep re_dep2 s) eqn:H1.
  { intros [= <-]. eauto using match2_Forall. }
  destruct (match2 re_usage re_usage2 s) eqn:H2.
  { intros [= <-]. eauto using match2_Forall. }
  destruct (match2 re_history re_history2 s) eqn:H3.
  { intros [= <-]. eauto using match2_Forall. }
  destruct (exec re_risk s) eqn:H4.
  { intros [= <-]. eauto using exec_Forall. }
  destruct (exec re_explain s) eqn:H5; [|done].
  intros [= <-]. eauto using exec_Forall.
Qed.

(** *** The matcher at work *)

Example parse_what_does_import :
  parse "  What does  src/a.ts   import, please? " =
    Some {| intent := "DEPENDENCIES"; target := "src/a.ts"; confidence := 0.9 |}.
Proof. by vm_compute. Qed.

(** The optional preposition gives way when nothing follows it. *)
Example parse_backtracks_over_preposition :
  parse "imports for" =
    Some {| intent := "DEPENDENCIES"; target := "for"; confidence := 0.9 |}.
Proof. by vm_compute. Qed.

(** The first pattern that matches wins, wherever it matches. *)
Example parse_priority :
  parse "explain the history of app.ts" =
    Some {| intent := "HISTORY"; target := "app.ts"; confidence := 0.9 |}.
Proof. by vm_compute. Qed.

Example parse_explain :
  parse "Please EXPLAIN utils/math.py" =
    Some {| intent := "EXPLAIN"; target := "utils/math.py"; confidence := 0.9 |}.
Proof. by vm_compute. Qed.

(** C4: the three inputs of the claim, as the code answers them.
    [parse("dependencies of foo.ts")] is the intent ['DEPENDENCIES']
    with target ['foo.ts'] and [parse("hello world")] is [null], as the
    claim says.  At [parse("who calls computeTotal")] the code answers
    the intent ['USAGE'] with the target ['computetotal']: the name
    comes back lower-cased with the rest of the question, where the
    claim says ['computeTotal']. *)
Theorem parse_examples :
  parse "dependencies of foo.ts" =
    Some {| intent := "DEPENDENCIES"; target := "foo.ts"; confidence := 0.9 |} ∧
  parse "who calls computeTotal" =
    Some {| intent := "USAGE"; target := "computetotal"; confidence := 0.9 |} ∧
  parse "hello world" = None.
Proof. by vm_compute. Qed.

(** C10: whenever [parse] answers a [ParsedQuery], its confidence is
    0.9 and no character of its target is an upper-case letter. *)
Theorem parse_confidence_and_case (question : string) (p : ParsedQuery) :
  parse question = Some p →
  confidence p = 0.9%Q ∧
  Forall (λ c, uppercase c = false) (list_ascii_of_string (target p)).
Proof.
  intros (i & m & -> & Hm)%parse_hit. split; [done|].
  simpl. by apply group1_chars.
Qed.

Lemma parse_confidence_and_case_witness :
  parse "Where is Render_Frame used" =
    Some {| intent := "USAGE"; target := "render_frame"; confidence := 0.9 |} ∧
  confidence {| intent := "USAGE"; target := "render_frame"; confidence := 0.9 |}
    = 0.9%Q ∧
  Forall (λ c, uppercase c = false) (list_ascii_of_string "render_frame").
Proof.
  split; [by vm_compute|].
  apply (parse_confidence_and_case "Where is Render_Frame used").
  by vm_compute.
Defined.

End ParserSpec.

(** ** The findings store *)

Module KnowledgeBaseSpec.
Import KnowledgeBase.

Section Store.
Context {Any : Type} (null : Any).
Implicit Types (storage : gmap string (@AgentFinding Any)) (a : string).

Lemma get_store_eq storage a (d : Any) (now : Z) :
  get null (store storage a d now) a = d.
Proof. unfold get, store. by rewrite lookup_insert_eq. Qed.

Lemma get_store_ne storage a b (d : Any) (now : Z) :
  a ≠ b → get null (store storage a d now) b = get null storage b.
Proof. intros Hne. unfold get, store. by rewrite lookup_insert_ne. Qed.

Lemma store_store storage a (d1 d2 : Any) (t1 t2 : Z) :
  store (store storage a d1 t1) a d2 t2 = store storage a d2 t2.
Proof. unfold store. apply insert_insert_eq. Qed.

(** C9: findings are keyed by the collaborator's name and the last
    write wins: after [store(a, d1)] and then [store(a, d2)],
    [get(a)] is [d2]; after a single [store(a, d)], [get(a)] is
    [d]; the finding kept for [a] carries the name [a]. *)
Theorem store_last_write_wins storage a (d d1 d2 : Any) (t t1 t2 : Z) :
  get null (store (store storage a d1 t1) a d2 t2) a = d2 ∧
  get null (store storage a d t) a = d ∧
  agent <$> (store storage a d t !! a) = Some a.
Proof.
  split_and!.
  - apply get_store_eq.
  - apply get_store_eq.
  - unfold store. by rewrite lookup_insert_eq.
Qed.
End Store.
End KnowledgeBaseSpec.

(** ** Cycle detection *)

Module ArchitectSpec.
Import Architect.

Lemma edge_nodes deps x y :
  edge deps x y → x ∈ nodes_of deps ∧ y ∈ nodes_of deps.
Proof.
  unfold edge, nodes_of. intros Hin.
  split; apply elem_of_union; [left|right];
    apply elem_of_list_to_set, list_elem_of_fmap; eexists; (split; [|done]); done.
Qed.

(** *** The adjacency list holds the dependency list *)

Lemma adj_get_push graph k v k' :
  adj_get (adj_push graph k v) k' =
    if decide (k = k') then Some (default [] (adj_get graph k) ++ [v])
    else adj_get graph k'.
Proof.
  induction graph as [|[k0 vs] graph IH]; simpl.
  - repeat case_decide; simplify_eq; done.
  - repeat (case_decide; simplify_eq/=); try done.
    all: try (by rewrite decide_True in IH).
    all: try (by rewrite decide_False in IH).
Qed.

Lemma keys_push graph k v x :
  x ∈ keys (adj_push graph k v) → x = k ∨ x ∈ keys graph.
Proof.
  unfold keys. induction graph as [|[k0 vs] graph IH]; csimpl.
  - intros ->%list_elem_of_singleton. by left.
  - case_decide; csimpl; subst.
    + intros [->|?]%elem_of_cons; [by left | right; by right].
    + intros [->|?]%elem_of_cons; [right; by left|].
      destruct IH as [->|?]; [done| by left | right; by right].
Qed.

Lemma buildAdjacency_snoc deps d :
  buildAdjacency (deps ++ [d]) =
    adj_push (buildAdjacency deps) (from d) (to d).
Proof. unfold buildAdjacency. by rewrite foldl_app. Qed.

Lemma buildAdjacency_edges deps x l y :
  adj_get (buildAdjacency deps) x = Some l → y ∈ l → edge deps x y.
Proof.
  revert l. induction deps as [|d deps IH] using rev_ind; intros l; [done|].
  rewrite buildAdjacency_snoc, adj_get_push. unfold edge in *.
  case_decide as Hk.
  - intros [= <-] [Hy|Hy]%elem_of_app.
    + destruct (adj_get (buildAdjacency deps) (from d)) as [l0|] eqn:Hl0;
        simpl in Hy; [|by apply elem_of_nil in Hy].
      apply elem_of_app. left. subst x. eauto.
    + apply list_elem_of_singleton in Hy as ->. subst x.
      apply elem_of_app. right. destruct d. by left.
  - intros Hl Hy. apply elem_of_app. left. eauto.
Qed.

Lemma buildAdjacency_keys deps x :
  x ∈ keys (buildAdjacency deps) → x ∈ nodes_of deps.
Proof.
  induction deps as [|d deps IH] using rev_ind; [by intros ?%elem_of_nil|].
  rewrite buildAdjacency_snoc. intros [->|Hx]%keys_push.
  - unfold nodes_of. rewrite !fmap_app. set_solver.
  - specialize (IH Hx). unfold nodes_of in *. rewrite !fmap_app. set_solver.
Qed.

(** *** Termination *)

Section Termination.
Variable deps : list Dependency.
Local Abbreviation graph := (buildAdjacency deps).
Local Abbreviation U := (nodes_of deps).

Lemma neighbors_known node y :
  y ∈ default [] (adj_get graph node) → y ∈ U.
Proof.
  destruct (adj_get graph node) as [l|] eqn:Hl; simpl;
    [|by intros ?%elem_of_nil].
  intros Hy. by eapply edge_nodes, buildAdjacency_edges.
Qed.

Lemma enter_shrinks node (st : DfsState) fuel :
  node ∈ U → node ∉ visited st →
  (size (U ∖ visited st) ≤ S fuel)%nat →
  (size (U ∖ visited (enter node st)) ≤ fuel)%nat.
Proof.
  intros HU Hv Hsz. simpl.
  assert (U ∖ ({[node]} ∪ visited st) ⊂ U ∖ visited st) as Hlt.
  { apply strict_spec_alt. split; [set_solver|].
    intros Heq. assert (node ∈ U ∖ visited st) as Hin by set_solver.
    rewrite <- Heq in Hin. set_solver. }
  apply subset_size in Hlt. lia.
Qed.

(** With as much fuel as there are unvisited files, [visit] returns
    and only adds to the visited set. *)
Lemma visit_returns fuel :
  ∀ node path st,
    node ∈ U → node ∉ visited st → (size (U ∖ visited st) ≤ fuel)%nat →
    ∃ st', visit fuel graph node path st = Some st' ∧
           visited st ⊆ visited st'.
Proof.
  induction fuel as [|fuel IH]; intros node path st HU Hv Hsz.
  { exfalso.
    assert (U ∖ visited st ≡ ∅) as Hempty by (apply size_empty_iff; lia).
    apply (not_elem_of_empty (C:=gset string) node).
    rewrite <- Hempty. by apply elem_of_difference. }
  simpl.
  assert (∀ ns st1,
             (∀ y, y ∈ ns → y ∈ U) →
             (size (U ∖ visited st1) ≤ fuel)%nat →
             ∃ st2, for_each (neighbor_step (visit fuel graph) (path ++ [node]))
                             ns st1 = Some st2 ∧
                    visited st1 ⊆ visited st2) as Hloop.
  { induction ns as [|y ns IHns]; intros st1 Hns Hsz1; simpl.
    { by exists st1. }
    assert (∃ st1', neighbor_step (visit fuel graph) (path ++ [node]) st1 y
                      = Some st1' ∧ visited st1 ⊆ visited st1') as (st1' & -> & Hsub).
    { unfold neighbor_step. case_decide as Hy.
      - apply IH; [apply Hns; by left | done | done].
      - case_decide; eexists; (split; [done|]); done. }
    destruct (IHns st1') as (st2 & -> & Hsub2).
    - intros y' Hy'. apply Hns. by right.
    - etrans; [|exact Hsz1]. apply subseteq_size. set_solver.
    - exists st2. split; [done|]. set_solver. }
  destruct (Hloop (default [] (adj_get graph node)) (enter node st))
    as (st2 & -> & Hsub).
  - intros y. apply neighbors_known.
  - by apply enter_shrinks.
  - eexists. split; [done|]. simpl in *. set_solver.
Qed.

Lemma findCycles_fuel_returns fuel :
  (size U ≤ fuel)%nat → is_Some (findCycles_fuel fuel deps).
Proof.
  intros Hfuel. unfold findCycles_fuel. fold graph.
  assert (∀ ks st, (∀ k, k ∈ ks → k ∈ U) →
            is_Some (for_each
              (λ st node, if decide (node ∉ visited st)
                          then visit fuel graph node [] st else Some st)
              ks st)) as Hloop.
  { induction ks as [|k ks IHks]; intros st Hks; simpl; [done|].
    case_decide as Hk.
    - destruct (visit_returns fuel k [] st) as (st' & -> & _).
      + apply Hks. by left.
      + done.
      + etrans; [|exact Hfuel]. apply subseteq_size. set_solver.
      + apply IHks. intros k' ?. apply Hks. by right.
    - apply IHks. intros k' ?. apply Hks. by right. }
  destruct (Hloop (keys graph) initial) as [st ->]; [|done].
  intros k. apply buildAdjacency_keys.
Qed.
End Termination.

Lemma findCycles_returns deps : is_Some (findCycles deps).
Proof. apply findCycles_fuel_returns. lia. Qed.

(** *** No cycle is reported on an acyclic list *)

Section Acyclic.
Variable deps : list Dependency.
Hypothesis Hacyclic : acyclic deps.
Local Abbreviation graph := (buildAdjacency deps).

Lemma neighbors_edges node y :
  y ∈ default [] (adj_get graph node) → edge deps node y.
Proof.
  destruct (adj_get graph node) as [l|] eqn:Hl; simpl;
    [|by intros ?%elem_of_nil].
  intros Hy. by eapply buildAdjacency_edges.
Qed.

(** While [visit] runs on [node], every file on the recursion stack
    lies on the path and reaches [node]; reaching such a file again
    from [node] would close a cycle. *)
Lemma visit_silent fuel :
  ∀ node path st st',
    (∀ x, x ∈ path → rtc (edge deps) x node) →
    (∀ x, x ∈ recursionStack st → x ∈ path) →
    visit fuel graph node path st = Some st' →
    cycles st' = cycles st ∧ recursionStack st' ⊆ recursionStack st.
Proof.
  induction fuel as [|fuel IH]; intros node path st st' Hpath Hstack;
    simpl; [done|].
  assert (∀ ns st1 st2,
             (∀ y, y ∈ ns → edge deps node y) →
             recursionStack st1 ⊆ {[node]} ∪ recursionStack st →
             for_each (neighbor_step (visit fuel graph) (path ++ [node]))
                      ns st1 = Some st2 →
             cycles st2 = cycles st1 ∧
             recursionStack st2 ⊆ {[node]} ∪ recursionStack st) as Hloop.
  { induction ns as [|y ns IHns]; intros st1 st2 Hns Hst1; simpl.
    { by intros [= <-]. }
    destruct (neighbor_step _ _ st1 y) as [st1'|] eqn:Hstep; [|done].
    intros Hrest.
    assert (edge deps node y) as Hedge by (apply Hns; by left).
    assert (cycles st1' = cycles st1 ∧
            recursionStack st1' ⊆ recursionStack st1) as [Hc Hs].
    { unfold neighbor_step in Hstep. case_decide as Hy.
      - eapply IH; [| |exact Hstep].
        + intros x [Hx| ->%list_elem_of_singleton]%elem_of_app.
          * eapply rtc_r; [by apply Hpath|done].
          * by apply rtc_once.
        + intros x Hx. apply elem_of_app.
          apply Hst1, elem_of_union in Hx as [->%elem_of_singleton|Hx].
          * right. by left.
          * left. by apply Hstack.
      - case_decide as Hon; [|by simplify_eq].
        exfalso. apply (Hacyclic y).
        apply Hst1, elem_of_union in Hon as [->%elem_of_singleton|Hon].
        + by apply tc_once.
        + eapply tc_rtc_l; [apply Hpath, Hstack, Hon|by apply tc_once]. }
    destruct (IHns st1' st2) as [Hc2 Hs2]; [|set_solver|done|].
    - intros y' ?. apply Hns. by right.
    - split; [congruence|done]. }
  destruct (for_each _ _ (enter node st)) as [st2|] eqn:Hfor; [|done].
  intros [= <-]. simpl.
  destruct (Hloop _ (enter node st) st2 (neighbors_edges node))
    as [Hc Hs]; [done|done|].
  split; [done|]. set_solver.
Qed.

Lemma findCycles_fuel_silent fuel cs :
  findCycles_fuel fuel deps = Some cs → cs = [].
Proof.
  unfold findCycles_fuel. fold graph.
  assert (∀ ks st st',
             recursionStack st = ∅ →
             for_each
               (λ st node, if decide (node ∉ visited st)
                           then visit fuel graph node [] st else Some st)
               ks st = Some st' →
             cycles st' = cycles st) as Hloop.
  { induction ks as [|k ks IHks]; intros st st' Hst; simpl.
    { by intros [= <-]. }
    case_decide as Hk; [|by apply IHks].
    destruct (visit fuel graph k [] st) as [st1|] eqn:Hvisit; [|done].
    apply visit_silent in Hvisit as [Hc Hs].
    - intros Hrest. rewrite <- Hc. apply (IHks st1); [|done].
      rewrite Hst in Hs. set_solver.
    - by intros x ?%elem_of_nil.
    - intros x. rewrite Hst. by intros ?%not_elem_of_empty. }
  destruct (for_each _ _ initial) as [st|] eqn:Hfor; [|done].
  intros [= <-]. by apply (Hloop (keys graph) initial st).
Qed.
End Acyclic.

(** A ranking that grows along every import rules out cycles. *)
Lemma ranked_acyclic (rank : string → nat) deps :
  Forall (λ d, (rank (from d) < rank (to d))%nat) deps → acyclic deps.
Proof.
  intros Hrank x Hx.
  assert (∀ a b, tc (edge deps) a b → (rank a < rank b)%nat) as Hlt.
  { induction 1 as [a b Hab|a b c Hab _ IH].
    - rewrite Forall_forall in Hrank. apply (Hrank _ Hab).
    - rewrite Forall_forall in Hrank. specialize (Hrank _ Hab).
      simpl in Hrank. lia. }
  specialize (Hlt _ _ Hx). lia.
Qed.

(** *** The search at work *)

(** A cycle that two back edges close is reported once for each, a
    self import is a cycle of its own. *)
Example findCycles_reports_every_back_edge :
  findCycles [ {| from := "A"; to := "B" |}; {| from := "B"; to := "A" |};
               {| from := "B"; to := "B" |}; {| from := "C"; to := "A" |};
               {| from := "A"; to := "C" |} ] =
    Some [["A"; "B"; "A"]; ["B"; "B"]; ["A"; "C"; "A"]].
Proof. by vm_compute. Qed.

(** C5: on the edges A→B, B→C, C→A, [findCycles] returns the cycle
    [[A, B, C, A]]; it is the only cycle returned. *)
Theorem findCycles_triangle :
  ["A"; "B"; "C"; "A"] ∈ default [] (findCycles A_B_C_A) ∧
  findCycles A_B_C_A = Some [["A"; "B"; "C"; "A"]].
Proof.
  assert (findCycles A_B_C_A = Some [["A"; "B"; "C"; "A"]]) as Heq
    by (by vm_compute).
  split; [|exact Heq]. rewrite Heq. simpl. by left.
Qed.

(** C6: [findCycles] returns on every dependency list, and on an
    acyclic one it returns the empty sequence of cycles. *)
Theorem findCycles_total_and_silent (deps : list Dependency) :
  is_Some (findCycles deps) ∧
  (acyclic deps → findCycles deps = Some []).
Proof.
  pose proof (findCycles_returns deps) as [cs Hcs].
  split; [by exists cs|].
  intros Hacyclic. rewrite Hcs. f_equal.
  by eapply findCycles_fuel_silent.
Qed.

Lemma findCycles_total_and_silent_witness :
  acyclic A_B_C ∧ findCycles A_B_C = Some [].
Proof.
  assert (acyclic A_B_C) as Hacyclic.
  { apply (ranked_acyclic
             (λ s, if decide (s = "A") then 0
                   else if decide (s = "B") then 1 else 2)%nat).
    repeat constructor. }
  split; [exact Hacyclic|].
  exact (proj2 (findCycles_total_and_silent A_B_C) Hacyclic).
Defined.

End ArchitectSpec.

(** ** Blast radius *)

Module BlastRadiusSpec.
Import KnowledgeGraph GraphQueries.

Lemma size_list_to_set_le (l : list string) :
  (size (list_to_set l : gset string) ≤ length l)%nat.
Proof.
  induction l as [|x l IH]; simpl.
  - done.
  - rewrite size_union_alt, size_singleton.
    assert (list_to_set l ∖ {[x]} ⊆ (list_to_set l : gset string)) as Hsub
      by set_solver.
    apply subseteq_size in Hsub. lia.
Qed.

Lemma candidates_bound g : (size (candidates g) ≤ length (edges g))%nat.
Proof.
  unfold candidates. etrans; [apply size_list_to_set_le|].
  rewrite length_fmap. apply length_filter.
Qed.

Lemma callers_candidates g i x : x ∈ callers g i → x ∈ candidates g.
Proof.
  unfold callers, candidates, getIncomingEdges.
  intros (e & -> & He)%list_elem_of_fmap.
  apply elem_of_list_to_set, list_elem_of_fmap. exists e. split; [done|].
  apply list_elem_of_filter in He as [Hc He].
  apply list_elem_of_filter in He as [_ He].
  by apply list_elem_of_filter.
Qed.

(** *** Termination *)

Lemma discover_work g level st c :
  c ∈ candidates g → work g (discover level st c) = work g st.
Proof.
  intros Hc. unfold discover, work. case_decide as Hseen; [done|]. simpl.
  rewrite length_app. simpl.
  assert (candidates g ∖ seen st =
          {[c]} ∪ (candidates g ∖ ({[c]} ∪ seen st))) as Heq.
  { apply set_eq. intros x. destruct (decide (x = c)); set_solver. }
  pose proof (size_union (C:=gset string)
                {[c]} (candidates g ∖ ({[c]} ∪ seen st))) as Hsize.
  rewrite <- Heq, size_singleton in Hsize.
  rewrite Hsize by set_solver. lia.
Qed.

Lemma foldl_discover_work g level cs :
  ∀ st, (∀ c, c ∈ cs → c ∈ candidates g) →
        work g (foldl (discover level) st cs) = work g st.
Proof.
  induction cs as [|c cs IH]; intros st Hcs; simpl; [done|].
  rewrite IH by (intros; apply Hcs; by right).
  apply discover_work, Hcs. by left.
Qed.

Lemma bfs_returns g fuel :
  ∀ st, (work g st < fuel)%nat → is_Some (bfs fuel g st).
Proof.
  induction fuel as [|fuel IH]; intros st Hwork; [lia|]. simpl.
  destruct (queue st) as [|[i level] rest] eqn:Hq; [done|].
  apply IH. rewrite foldl_discover_work by apply callers_candidates.
  unfold work in *. rewrite Hq in Hwork. simpl in *. lia.
Qed.

Lemma bfs_more_fuel g fuel fuel' :
  ∀ st st', bfs fuel g st = Some st' → (fuel ≤ fuel')%nat →
            bfs fuel' g st = Some st'.
Proof.
  revert fuel'. induction fuel as [|fuel IH]; intros fuel' st st'; [done|].
  destruct fuel' as [|fuel']; [lia|]. simpl.
  destruct (queue st) as [|[i level] rest]; [done|].
  intros Hrun Hle. apply IH; [done|lia].
Qed.

(** *** Discovery order has no duplicate and leaves the start out *)

Lemma discover_tidy f level st c :
  tidy f st → tidy f (discover level st c).
Proof.
  intros [Hs Hf Hn Hfr]. unfold discover. case_decide as Hseen; [done|].
  split; simpl.
  - set_solver.
  - intros x [Hx| ->%list_elem_of_singleton]%elem_of_app; [|set_solver].
    specialize (Hf x Hx). set_solver.
  - apply NoDup_app. split_and!; [done| |apply NoDup_singleton].
    intros x Hx ->%list_elem_of_singleton. by apply Hseen, Hf.
  - intros [Hx| ->%list_elem_of_singleton]%elem_of_app; [done|].
    by apply Hseen.
Qed.

Lemma foldl_discover_tidy f level cs :
  ∀ st, tidy f st → tidy f (foldl (discover level) st cs).
Proof.
  induction cs as [|c cs IH]; intros st Hst; simpl; [done|].
  by apply IH, discover_tidy.
Qed.

Lemma bfs_tidy g f fuel :
  ∀ st st', tidy f st → bfs fuel g st = Some st' → tidy f st'.
Proof.
  induction fuel as [|fuel IH]; intros st st' Hst; simpl; [done|].
  destruct (queue st) as [|[i level] rest]; [by intros [= <-]|].
  apply IH, foldl_discover_tidy. by destruct Hst.
Qed.

Lemma start_tidy f : tidy f (start f).
Proof.
  split; simpl.
  - set_solver.
  - by intros x ?%elem_of_nil.
  - apply NoDup_nil_2.
  - by intros ?%elem_of_nil.
Qed.

Lemma start_work g f : (work g (start f) < 2 + length (edges g))%nat.
Proof.
  unfold work. simpl.
  pose proof (candidates_bound g).
  assert (candidates g ∖ {[f]} ⊆ candidates g) as Hsub by set_solver.
  apply subseteq_size in Hsub. lia.
Qed.

(** The traversal returns for every graph and every start, with the
    fuel [functionBlastRadius] passes and with any larger one. *)
Lemma functionBlastRadius_returns g f :
  ∃ r, functionBlastRadius_opt g f = Some r ∧
       functionBlastRadius g f = r ∧
       (∀ fuel, (2 + length (edges g) ≤ fuel)%nat →
                functionBlastRadius_fuel fuel g f = Some r) ∧
       NoDup (affectedFunctions r) ∧ f ∉ affectedFunctions r.
Proof.
  unfold functionBlastRadius, functionBlastRadius_opt, functionBlastRadius_fuel.
  destruct (getNode g f) as [n|].
  - destruct (bfs_returns g (2 + length (edges g)) (start f)) as [st Hst];
      [apply start_work|].
    pose proof (bfs_tidy g f _ _ _ (start_tidy f) Hst) as [_ _ Hn Hfr].
    exists (report g st). rewrite Hst. split_and!; try done.
    intros fuel Hfuel. by rewrite (bfs_more_fuel _ _ _ _ _ Hst Hfuel).
  - exists nothing. split_and!; try done.
    + apply NoDup_nil_2.
    + by intros ?%elem_of_nil.
Qed.

(** C3: for every graph and every id of one of its [Function] nodes,
    the traversal returns (with the fuel [functionBlastRadius] passes
    and with any larger one, whatever cycles the [CALLS] edges form),
    and the affected functions it returns hold no id twice and do not
    hold the start. *)
Theorem blast_radius_total_and_distinct (g : KnowledgeGraph) (f : string) :
  type <$> getNode g f = Some Function →
  ∃ r, functionBlastRadius_opt g f = Some r ∧
       functionBlastRadius g f = r ∧
       (∀ fuel, (2 + length (edges g) ≤ fuel)%nat →
                functionBlastRadius_fuel fuel g f = Some r) ∧
       NoDup (affectedFunctions r) ∧ f ∉ affectedFunctions r.
Proof. intros _. apply functionBlastRadius_returns. Qed.

Lemma blast_radius_total_and_distinct_witness :
  type <$> getNode A_and_B_call_each_other "A" = Some Function ∧
  ∃ r, functionBlastRadius_opt A_and_B_call_each_other "A" = Some r ∧
       functionBlastRadius A_and_B_call_each_other "A" = r ∧
       (∀ fuel, (2 + length (edges A_and_B_call_each_other) ≤ fuel)%nat →
                functionBlastRadius_fuel fuel A_and_B_call_each_other "A" = Some r) ∧
       NoDup (affectedFunctions r) ∧ "A" ∉ affectedFunctions r.
Proof.
  split; [reflexivity|].
  apply (blast_radius_total_and_distinct A_and_B_call_each_other "A").
  reflexivity.
Defined.

End BlastRadiusSpec.

(** ** Call resolution during the graph build *)

Module ExtensionSpec.
Import Chars KnowledgeGraph Extension.

(** C7: three functions of one file, [foobar] inserted before [foo],
    and [main], which calls [foo].  The rule of the claim (match
    [data.name], fall back to the id suffix after the separator)
    resolves the call to the function [foo], and the build creates no
    [CALLS] edge to it: its only [CALLS] edge goes from [main] to
    [foobar], whose name is not [foo] and whose id merely contains
    [::foo]. *)
Lemma build_links_foo_to_foobar :
  filter (λ e, etype e = CALLS) (edges built) =
    [ {| from := "a.ts::main"; to := "a.ts::foobar"; etype := CALLS |} ] ∧
  ¬ (∃ target,
       resolve_by_name_then_suffix built "foo" = Some target ∧
       {| from := "a.ts::main"; to := id target; etype := CALLS |} ∈ edges built).
Proof.
  split; [by vm_compute|].
  intros (target & Ht & Hin). vm_compute in Ht. simplify_eq.
  apply list_elem_of_In in Hin. vm_compute in Hin.
  repeat (destruct Hin as [Hin|Hin]; [discriminate Hin|]). exact Hin.
Qed.

End ExtensionSpec.

(** ** The orchestrator *)

Module OrchestratorSpec.
Import Chars KnowledgeGraph Gemini Orchestrator.

Section Orchestrator.
Variable plan : string → Planner.QueryPlan.
Variable functionCentrality : KnowledgeGraph → list Ranking.FunctionCentrality.
Variable fileImportance : KnowledgeGraph → list Ranking.FileImportance.
Variable readFile : string → Result string.
Variable workspaceFolder : option string.
Variable basename : string → string.
Variable relative : string → string → string.
Variable graph : KnowledgeGraph.

(** [runQuery] of an orchestrator built on [graph] with the client [c]. *)
Local Abbreviation ask c question :=
  (runQuery plan functionCentrality fileImportance readFile workspaceFolder
            basename relative graph c question).

(** *** The explanation phase is additive *)

Lemma explain_facts c question (r : QueryResult) :
  facts (explain readFile c question r) = facts r.
Proof.
  unfold explain. destruct (available c) as [client|]; [|done].
  case_decide; [done|]. by destruct (explainResult _ _ _ _ _ _ _).
Qed.

Lemma explain_intent c question (r : QueryResult) :
  intent (explain readFile c question r) = intent r.
Proof.
  unfold explain. destruct (available c) as [client|]; [|done].
  case_decide; [done|]. by destruct (explainResult _ _ _ _ _ _ _).
Qed.

(** *** No handler throws *)

Lemma file_nodes_have_path n :
  n ∈ getNodesByType graph File → ∃ p, n = FileNode p.
Proof.
  unfold getNodesByType. intros [Ht _]%list_elem_of_filter.
  destruct n; simplify_eq/=. by eexists.
Qed.

Lemma filter_throwing_paths fileName (l : list Node) :
  (∀ n, n ∈ l → ∃ p, n = FileNode p) →
  filter_throwing (pathEndsWith fileName) l =
    Ok (filter (λ n, pathMatches fileName n) l).
Proof.
  induction l as [|n l IH]; intros Hl; [done|]. simpl.
  destruct (Hl n) as [p ->]; [by left|]. simpl.
  rewrite IH by (intros; apply Hl; by right).
  assert (pathMatches fileName (FileNode p) = endsWith p fileName) as Hpm
    by done.
  destruct (endsWith p fileName) eqn:He.
  - rewrite filter_cons_True; [done|]. by rewrite Hpm.
  - rewrite filter_cons_False; [done|]. rewrite Hpm. by intros [].
Qed.

Lemma handleDependencies_returns target :
  ∃ r, handleDependencies basename graph target = Ok r.
Proof.
  unfold handleDependencies.
  rewrite filter_throwing_paths by apply file_nodes_have_path.
  destruct (filter _ _); by eexists.
Qed.

Lemma dispatchParsed_returns parsed answer :
  dispatchParsed basename graph parsed = Some answer → ∃ r, answer = Ok r.
Proof.
  unfold dispatchParsed. destruct parsed as [q|]; [|done].
  repeat case_decide; intros [= <-]; eauto using handleDependencies_returns.
Qed.

Lemma dispatchParsed_fallsThrough question :
  dispatchParsed basename graph (QueryParser.parse question) = None ↔
  fallsThrough question = true.
Proof.
  unfold dispatchParsed, fallsThrough.
  destruct (QueryParser.parse question) as [q|]; [|done].
  rewrite negb_true_iff, bool_decide_eq_false.
  repeat case_decide; split; try done; set_solver.
Qed.

Lemma handleGeneralQuery_returns c question :
  ∃ r, handleGeneralQuery fileImportance readFile workspaceFolder relative
         graph c question = Ok r.
Proof.
  unfold handleGeneralQuery. destruct (available c); [|by eexists].
  destruct workspaceFolder; by eexists.
Qed.

Lemma dispatchPlan_returns c question p :
  ∃ r, dispatchPlan functionCentrality fileImportance readFile workspaceFolder
         relative graph c question p = Ok r.
Proof.
  unfold dispatchPlan.
  repeat case_decide; eauto using handleGeneralQuery_returns.
Qed.

Lemma runQuery_returns c question : ∃ r, ask c question = Ok r.
Proof.
  unfold ask, runQuery.
  destruct (dispatchParsed _ _ _) as [answer|] eqn:Hd.
  - by eapply dispatchParsed_returns.
  - destruct (dispatchPlan_returns c question (plan question)) as [r ->].
    by eexists.
Qed.

(** *** The facts do not depend on the explainer *)

Lemma handleGeneralQuery_facts c1 c2 question r1 r2 :
  usable c1 = usable c2 ∨ workspaceFolder = None →
  handleGeneralQuery fileImportance readFile workspaceFolder relative
    graph c1 question = Ok r1 →
  handleGeneralQuery fileImportance readFile workspaceFolder relative
    graph c2 question = Ok r2 →
  facts r1 = facts r2.
Proof.
  unfold handleGeneralQuery, usable. intros [Hu| ->].
  - destruct (available c1) as [k1|], (available c2) as [k2|];
      try (by apply bool_decide_eq_true in Hu as [? ?]);
      try (by symmetry in Hu; apply bool_decide_eq_true in Hu as [? ?]).
    + destruct workspaceFolder; simpl; by intros [= <-] [= <-].
    + by intros [= <-] [= <-].
  - destruct (available c1), (available c2); simpl; by intros [= <-] [= <-].
Qed.

Lemma dispatchPlan_facts c1 c2 question r1 r2 :
  generalRoute plan question = false ∨ usable c1 = usable c2 ∨
    workspaceFolder = None →
  fallsThrough question = true →
  dispatchPlan functionCentrality fileImportance readFile workspaceFolder
    relative graph c1 question (plan question) = Ok r1 →
  dispatchPlan functionCentrality fileImportance readFile workspaceFolder
    relative graph c2 question (plan question) = Ok r2 →
  facts r1 = facts r2.
Proof.
  unfold dispatchPlan, generalRoute. intros Hroute Hft. rewrite Hft in Hroute.
  destruct (decide (Planner.intent (plan question) ∈
              ["blast_radius"; "central_functions"; "important_files";
               "find_function"])) as [Hin|Hout].
  - repeat case_decide; try (by intros [= <-] [= <-]); exfalso; set_solver.
  - rewrite !decide_False by set_solver.
    destruct Hroute as [Hroute|Hu]; [|by apply handleGeneralQuery_facts].
    by rewrite bool_decide_eq_false_2 in Hroute.
Qed.

Lemma decided_returns c question :
  ∃ s, decided plan functionCentrality fileImportance readFile workspaceFolder
         basename relative graph c question = Ok s.
Proof.
  unfold decided. destruct (dispatchParsed _ _ _) as [answer|] eqn:Hd.
  - by eapply dispatchParsed_returns.
  - apply dispatchPlan_returns.
Qed.

(** The explanation phase is additive: the answer of [runQuery] is the
    answer of steps 0 to 2 in everything but [contextPreview]. *)
Lemma runQuery_decided c question s :
  decided plan functionCentrality fileImportance readFile workspaceFolder
    basename relative graph c question = Ok s →
  ∃ r, ask c question = Ok r ∧ facts r = facts s ∧ intent r = intent s.
Proof.
  unfold ask, runQuery, decided.
  destruct (dispatchParsed _ _ _) as [answer|]; intros ->; [by eexists|].
  eexists. split; [done|]. by rewrite explain_facts, explain_intent.
Qed.

(** C1, amended: for every question and every explanation
    collaborator, [runQuery] returns, and the explanation phase leaves
    the [intent], [files], [functions] and [metadata] of the answer of
    steps 0 to 2 as they are, so that it can only set [contextPreview].
    The [files], [functions] and [metadata] returned are the same for
    any two collaborators, whatever their service answers or throws,
    provided the question is not routed to the general fallback, or the
    two collaborators are both usable or both not, or no workspace
    folder is open. *)
Theorem runQuery_facts_independent_of_explainer c1 c2 question :
  ∃ s1 s2 r1 r2,
    decided plan functionCentrality fileImportance readFile workspaceFolder
      basename relative graph c1 question = Ok s1 ∧
    decided plan functionCentrality fileImportance readFile workspaceFolder
      basename relative graph c2 question = Ok s2 ∧
    ask c1 question = Ok r1 ∧ ask c2 question = Ok r2 ∧
    (facts r1 = facts s1 ∧ intent r1 = intent s1) ∧
    (facts r2 = facts s2 ∧ intent r2 = intent s2) ∧
    (generalRoute plan question = false ∨ usable c1 = usable c2 ∨
       workspaceFolder = None →
     facts r1 = facts r2).
Proof.
  destruct (decided_returns c1 question) as [s1 H1].
  destruct (decided_returns c2 question) as [s2 H2].
  destruct (runQuery_decided _ _ _ H1) as (r1 & Hr1 & Hf1 & Hi1).
  destruct (runQuery_decided _ _ _ H2) as (r2 & Hr2 & Hf2 & Hi2).
  exists s1, s2, r1, r2. split_and!; try done.
  intros Hroute. rewrite Hf1, Hf2. revert H1 H2. unfold decided.
  destruct (dispatchParsed _ _ _) as [answer|] eqn:Hd.
  - intros -> [= ->]. done.
  - apply dispatchParsed_fallsThrough in Hd. by apply dispatchPlan_facts.
Qed.





End Orchestrator.

(** C1, as the claim states it: on the general fallback the answer of
    [runQuery] with no collaborator and its answer with a collaborator
    that succeeds differ in [files] and in [functions]. *)
Lemma general_fallback_depends_on_explainer :
  ¬ (∃ r1 r2,
       ask_sample oneFile None "hello world" = Ok r1 ∧
       ask_sample oneFile (Some talkative) "hello world" = Ok r2 ∧
       files r1 = files r2 ∧ functions r1 = functions r2 ∧
       metadata r1 = metadata r2).
Proof.
  intros (r1 & r2 & H1 & H2 & Hfiles & _).
  vm_compute in H1, H2. by simplify_eq.
Qed.

Lemma runQuery_facts_independent_of_explainer_witness :
  (generalRoute planUnknown "hello world" = false ∨
   usable (Some talkative) = usable (Some failing) ∨
   Some "/w" = @None string) ∧
  ∃ s1 s2 r1 r2,
    decided_sample oneFile (Some talkative) "hello world" = Ok s1 ∧
    decided_sample oneFile (Some failing) "hello world" = Ok s2 ∧
    ask_sample oneFile (Some talkative) "hello world" = Ok r1 ∧
    ask_sample oneFile (Some failing) "hello world" = Ok r2 ∧
    (facts r1 = facts s1 ∧ intent r1 = intent s1) ∧
    (facts r2 = facts s2 ∧ intent r2 = intent s2) ∧
    facts r1 = facts r2.
Proof.
  assert (generalRoute planUnknown "hello world" = false ∨
          usable (Some talkative) = usable (Some failing) ∨
          Some "/w" = @None string) as Hroute
    by (right; left; reflexivity).
  split; [exact Hroute|].
  destruct (runQuery_facts_independent_of_explainer planUnknown noCentrality
              noImportance unreadable (Some "/w") posixBasename posixRelative
              oneFile (Some talkative) (Some failing) "hello world")
    as (s1 & s2 & r1 & r2 & H1 & H2 & Hr1 & Hr2 & Hs1 & Hs2 & Hsame).
  exists s1, s2, r1, r2.
  exact (conj H1 (conj H2 (conj Hr1 (conj Hr2 (conj Hs1 (conj Hs2
           (Hsame Hroute))))))).
Defined.

(** The target that [parse] hands over lower-cased is compared as it
    is with the names in the graph: [handleUsage] finds the caller of
    [computeTotal] under that name, and the question that asks for it
    is answered with a not-found error. *)
Lemma who_calls_computeTotal_is_not_found :
  metadata (handleUsage totals "computeTotal") =
    Some (VObj [("count", VNat 1); ("callers", VStrs ["main"])]) ∧
  ∃ r, ask_sample totals None "who calls computeTotal" = Ok r ∧
       files r = [] ∧ functions r = None ∧
       metadata r =
         Some (VObj [("error",
                      VStr ("Function " +:+ quoted "computetotal" +:+
                            " not found"))]).
Proof. split; [by vm_compute|]. eexists. split; [by vm_compute|done]. Qed.



End OrchestratorSpec.

(** ** Cycle detection: what is reported, and when *)

Module ArchitectFacts.
Import Architect ArchitectSpec.

(** *** The path and its slices *)

Lemma indexOf_first path x :
  x ∈ path →
  ∃ pre post, path = pre ++ x :: post ∧ (x ∉ pre) ∧
              indexOf path x = Z.of_nat (length pre).
Proof.
  induction path as [|y path IH]; [by intros ?%elem_of_nil|].
  intros Hin. simpl. case_decide as Hy.
  - subst y. exists [], path. split_and!; [done|by intros ?%elem_of_nil|done].
  - apply elem_of_cons in Hin as [->|Hin]; [done|].
    destruct (IH Hin) as (pre & post & -> & Hpre & ->).
    exists (y :: pre), post. split_and!; [done| |].
    + intros [->|?]%elem_of_cons; [done|by apply Hpre].
    + simpl length. destruct (Z.ltb_spec (Z.of_nat (length pre)) 0); lia.
Qed.

Lemma slice_from_first pre x post :
  slice_from (pre ++ x :: post) (Z.of_nat (length pre)) = x :: post.
Proof.
  unfold slice_from. destruct (Z.ltb_spec (Z.of_nat (length pre)) 0); [lia|].
  rewrite Nat2Z.id. by rewrite drop_app_length.
Qed.

Lemma walk_suffix deps p q : walk deps (p ++ q) → walk deps q.
Proof.
  induction p as [|x p IH]; [done|]. simpl.
  destruct (p ++ q) as [|y r] eqn:Hr.
  - apply app_eq_nil in Hr as [_ ->]. done.
  - intros [_ Hw]. by apply IH.
Qed.

Lemma walk_snoc deps p n x :
  walk deps (p ++ [n]) → edge deps n x → walk deps ((p ++ [n]) ++ [x]).
Proof.
  induction p as [|y p IH]; simpl.
  - by intros _ He.
  - destruct (p ++ [n]) as [|z r] eqn:Hr; [by destruct p|].
    intros [He Hw] Hnx. simpl. split; [done|]. by apply IH.
Qed.

(** *** Every reported cycle is a cycle *)

Section Sound.
Variable deps : list Dependency.
Local Abbreviation graph := (buildAdjacency deps).

Lemma emit_sound path node nb (st : DfsState) :
  walk deps (path ++ [node]) → NoDup (path ++ [node]) →
  nb ∈ path ++ [node] → edge deps node nb →
  Forall (simple_cycle deps) (cycles st) →
  Forall (simple_cycle deps) (cycles (emit (path ++ [node]) nb st)).
Proof.
  intros Hwalk Hnd Hin Hedge Hst. simpl. apply Forall_app. split; [done|].
  apply Forall_singleton.
  destruct (indexOf_first _ _ Hin) as (pre & post & Hsplit & _ & ->).
  rewrite Hsplit, slice_from_first.
  exists nb, post. split_and!; [done| |].
  - rewrite Hsplit in Hwalk. apply walk_suffix in Hwalk.
    destruct (decide (post = [])) as [->|Hpost].
    + assert (nb = node) as ->.
      { apply (f_equal last) in Hsplit. rewrite !last_snoc in Hsplit.
        by simplify_eq. }
      simpl. done.
    + destruct (exists_last Hpost) as (post' & z & ->).
      assert (z = node) as ->.
      { apply (f_equal last) in Hsplit.
        rewrite last_snoc, app_comm_cons, app_assoc, last_snoc in Hsplit.
        by simplify_eq. }
      rewrite app_comm_cons. apply walk_snoc; [|done].
      by rewrite <- app_comm_cons.
  - rewrite Hsplit in Hnd. by apply NoDup_app in Hnd as (_ & _ & Hnd).
Qed.

Lemma visit_sound fuel :
  ∀ node path st st',
    walk deps (path ++ [node]) → NoDup (path ++ [node]) →
    (∀ x, x ∈ recursionStack st → x ∈ path) →
    (∀ x, x ∈ path → x ∈ visited st) →
    Forall (simple_cycle deps) (cycles st) →
    visit fuel graph node path st = Some st' →
    Forall (simple_cycle deps) (cycles st') ∧
    recursionStack st' ⊆ recursionStack st ∧
    visited st ⊆ visited st'.
Proof.
  induction fuel as [|fuel IH];
    intros node path st st' Hwalk Hnd Hstack Hpath Hcycles; simpl; [done|].
  assert (∀ ns s1 s2,
             (∀ y, y ∈ ns → edge deps node y) →
             recursionStack s1 ⊆ {[node]} ∪ recursionStack st →
             {[node]} ∪ visited st ⊆ visited s1 →
             Forall (simple_cycle deps) (cycles s1) →
             for_each (neighbor_step (visit fuel graph) (path ++ [node]))
                      ns s1 = Some s2 →
             Forall (simple_cycle deps) (cycles s2) ∧
             recursionStack s2 ⊆ {[node]} ∪ recursionStack st ∧
             {[node]} ∪ visited st ⊆ visited s2) as Hloop.
  { induction ns as [|y ns IHns]; intros s1 s2 Hns Hs1 Hv1 Hc1; simpl.
    { by intros [= <-]. }
    destruct (neighbor_step _ _ s1 y) as [s1'|] eqn:Hstep; [|done].
    intros Hrest.
    assert (edge deps node y) as Hedge by (apply Hns; by left).
    assert (∀ x, x ∈ recursionStack s1 → x ∈ path ++ [node]) as Hon.
    { intros x Hx. apply elem_of_app.
      apply Hs1, elem_of_union in Hx as [->%elem_of_singleton|Hx].
      - right. by left.
      - left. by apply Hstack. }
    assert (Forall (simple_cycle deps) (cycles s1') ∧
            recursionStack s1' ⊆ recursionStack s1 ∧
            visited s1 ⊆ visited s1') as (Hc & Hs & Hv).
    { unfold neighbor_step in Hstep. case_decide as Hy.
      - eapply IH; [| | | | |exact Hstep]; try done.
        + by apply walk_snoc.
        + apply NoDup_app. split_and!; [done| |apply NoDup_singleton].
          intros x Hx ->%list_elem_of_singleton. apply Hy, Hv1.
          apply elem_of_app in Hx as [Hx| ->%list_elem_of_singleton];
            [|set_solver].
          apply elem_of_union. right. by apply Hpath.
        + intros x [Hx| ->%list_elem_of_singleton]%elem_of_app.
          * apply Hv1, elem_of_union. right. by apply Hpath.
          * apply Hv1. set_solver.
      - case_decide as Hyon; simplify_eq; [|done].
        split; [|done]. apply emit_sound; try done. by apply Hon. }
    destruct (IHns s1' s2) as (Hc2 & Hs2 & Hv2); try done.
    - intros y' ?. apply Hns. by right.
    - set_solver.
    - set_solver. }
  destruct (for_each _ _ (enter node st)) as [s2|] eqn:Hfor; [|done].
  intros [= <-]. simpl.
  destruct (Hloop (default [] (adj_get graph node)) (enter node st) s2)
    as (Hc & Hs & Hv); try done.
  - apply ArchitectSpec.neighbors_edges.
  - split_and!; [done| |]; set_solver.
Qed.

End Sound.

Lemma findCycles_fuel_sound deps fuel cs :
  findCycles_fuel fuel deps = Some cs → Forall (simple_cycle deps) cs.
Proof.
  unfold findCycles_fuel.
  assert (∀ ks st st',
             recursionStack st = ∅ →
             Forall (simple_cycle deps) (cycles st) →
             for_each
               (λ st node, if decide (node ∉ visited st)
                           then visit fuel (buildAdjacency deps) node [] st
                           else Some st)
               ks st = Some st' →
             Forall (simple_cycle deps) (cycles st')) as Hloop.
  { induction ks as [|k ks IHks]; intros st st' Hst Hc; simpl.
    { by intros [= <-]. }
    case_decide as Hk; [|by apply IHks].
    destruct (visit fuel _ k [] st) as [st1|] eqn:Hvisit; [|done].
    apply visit_sound in Hvisit as (Hc1 & Hs1 & _); try done.
    - apply IHks; [|done]. rewrite Hst in Hs1. set_solver.
    - apply NoDup_singleton.
    - intros x. rewrite Hst. by intros ?%not_elem_of_empty.
    - by intros x ?%elem_of_nil. }
  destruct (for_each _ _ initial) as [st|] eqn:Hfor; [|done].
  intros [= <-]. by apply (Hloop (keys (buildAdjacency deps)) initial st).
Qed.

(** Every cycle [findCycles] reports starts and ends at the same
    file, follows an import at every step, and passes no file twice. *)
Theorem findCycles_reports_cycles (deps : list Dependency) :
  ∃ cs, findCycles deps = Some cs ∧ Forall (simple_cycle deps) cs.
Proof.
  destruct (findCycles_returns deps) as [cs Hcs].
  exists cs. split; [done|]. by eapply findCycles_fuel_sound.
Qed.

(** *** A list with a cycle never comes back empty *)

Lemma buildAdjacency_complete deps x y :
  edge deps x y →
  ∃ l, adj_get (buildAdjacency deps) x = Some l ∧ y ∈ l.
Proof.
  unfold edge.
  induction deps as [|d deps IH] using rev_ind; [by intros ?%elem_of_nil|].
  rewrite buildAdjacency_snoc, adj_get_push.
  intros [Hin|Hd%list_elem_of_singleton]%elem_of_app.
  - destruct (IH Hin) as (l & Hl & Hy). case_decide as Hd.
    + subst x. rewrite Hl. eexists. split; [done|]. simpl.
      apply elem_of_app. by left.
    + by exists l.
  - subst d. simpl. rewrite decide_True by done. eexists. split; [done|].
    apply elem_of_app. right. by left.
Qed.

Lemma adj_get_keys graph x l : adj_get graph x = Some l → x ∈ keys graph.
Proof.
  unfold keys. induction graph as [|[k vs] graph IH]; [done|]. csimpl.
  case_decide; [intros _; subst; by left|]. intros ?. right. by apply IH.
Qed.

Lemma closed_order_reach deps fin u v :
  closed_order deps fin → tc (edge deps) u v →
  ∀ l1 l2, fin = l1 ++ u :: l2 → v ∈ l1.
Proof.
  intros Hfin. induction 1 as [u v He|u w v He _ IH]; intros l1 l2 Hsplit.
  - by eapply Hfin.
  - assert (w ∈ l1) as Hw by (by eapply Hfin).
    apply list_elem_of_split in Hw as (a & b & ->).
    assert (v ∈ a) as Hv.
    { apply (IH a (b ++ u :: l2)). by rewrite Hsplit, <- app_assoc. }
    apply elem_of_app. by left.
Qed.

Lemma closed_order_acyclic deps fin u :
  closed_order deps fin → u ∈ fin → ¬ tc (edge deps) u u.
Proof.
  intros Hfin Hu Htc.
  assert (∀ n l1 l2, (length l1 ≤ n)%nat → fin = l1 ++ u :: l2 → False) as Hdesc.
  { induction n as [|n IH]; intros l1 l2 Hlen Hsplit.
    - destruct l1; [|simpl in Hlen; lia].
      by apply (closed_order_reach _ _ _ _ Hfin Htc) in Hsplit
        as ?%elem_of_nil.
    - pose proof (closed_order_reach _ _ _ _ Hfin Htc _ _ Hsplit) as Hin.
      apply list_elem_of_split in Hin as (a & b & ->).
      apply (IH a (b ++ u :: l2)).
      + rewrite length_app in Hlen. simpl in Hlen. lia.
      + by rewrite Hsplit, <- app_assoc. }
  apply list_elem_of_split in Hu as (l1 & l2 & Hsplit).
  by apply (Hdesc (length l1) l1 l2).
Qed.

Section Complete.
Variable deps : list Dependency.
Local Abbreviation graph := (buildAdjacency deps).

(** The list of cycles only grows. *)
Lemma for_each_cycles_le {A} (f : DfsState → A → option DfsState) :
  (∀ s x s', f s x = Some s' →
             (length (cycles s) ≤ length (cycles s'))%nat) →
  ∀ l s s', for_each f l s = Some s' →
            (length (cycles s) ≤ length (cycles s'))%nat.
Proof.
  intros Hf. induction l as [|x l IH]; intros s s'; simpl.
  - by intros [= <-].
  - destruct (f s x) as [s1|] eqn:Hx; [|done]. intros Hl.
    etrans; [by eapply Hf|by eapply IH].
Qed.

Lemma visit_cycles_le fuel :
  ∀ node path st st',
    visit fuel graph node path st = Some st' →
    (length (cycles st) ≤ length (cycles st'))%nat.
Proof.
  induction fuel as [|fuel IH]; intros node path st st'; simpl; [done|].
  destruct (for_each _ _ (enter node st)) as [s2|] eqn:Hfor; [|done].
  intros [= <-]. simpl.
  apply for_each_cycles_le in Hfor; [done|].
  intros s y s'. unfold neighbor_step.
  case_decide; [by apply IH|].
  case_decide; intros [= <-]; simpl; [|done].
  rewrite length_app. simpl. lia.
Qed.

Lemma neighbor_step_cycles_le fuel path s y s' :
  neighbor_step (visit fuel graph) path s y = Some s' →
  (length (cycles s) ≤ length (cycles s'))%nat.
Proof.
  unfold neighbor_step. case_decide; [by apply visit_cycles_le|].
  case_decide; intros [= <-]; simpl; [|done].
  rewrite length_app. simpl. lia.
Qed.

Lemma settled_enter node (st : DfsState) fin :
  settled deps st fin → node ∉ visited st → settled deps (enter node st) fin.
Proof.
  intros [Hm Ho Hs] Hnode. split; simpl; [|done|set_solver].
  intros x. rewrite Hm. set_solver.
Qed.

Lemma settled_leave node (s2 : DfsState) fin2 :
  settled deps s2 fin2 → node ∈ recursionStack s2 →
  (∀ v, edge deps node v → v ∈ fin2) →
  settled deps (leave node s2) (fin2 ++ [node]).
Proof.
  intros [Hm Ho Hs] Hnode Hsucc. split; simpl.
  - intros x. rewrite elem_of_app, list_elem_of_singleton, Hm.
    destruct (decide (x = node)) as [->|Hx]; set_solver.
  - intros l1 u l2 v Hsplit Hedge.
    destruct (decide (l2 = [])) as [->|Hl2].
    + apply app_inj_tail in Hsplit as [<- <-]. by apply Hsucc.
    + destruct (exists_last Hl2) as (l2' & z & ->).
      rewrite app_comm_cons, app_assoc in Hsplit.
      apply app_inj_tail in Hsplit as [-> _]. by eapply Ho.
  - set_solver.
Qed.

(** A call of [visit] either reports a cycle or leaves its file, and
    whatever that file imports, fully explored. *)
Lemma visit_settles fuel :
  ∀ node path st st' fin,
    settled deps st fin → node ∉ visited st →
    visit fuel graph node path st = Some st' →
    (length (cycles st) < length (cycles st'))%nat ∨
    ∃ fin', settled deps st' fin' ∧ (∀ x, x ∈ fin → x ∈ fin') ∧
            node ∈ fin' ∧ recursionStack st' = recursionStack st.
Proof.
  induction fuel as [|fuel IH]; intros node path st st' fin Hst Hnode;
    simpl; [done|].
  assert (∀ ns s1 s2 fin1,
             settled deps s1 fin1 → node ∈ recursionStack s1 →
             for_each (neighbor_step (visit fuel graph) (path ++ [node]))
                      ns s1 = Some s2 →
             (length (cycles s1) < length (cycles s2))%nat ∨
             ∃ fin2, settled deps s2 fin2 ∧ (∀ x, x ∈ fin1 → x ∈ fin2) ∧
                     (∀ v, v ∈ ns → v ∈ fin2) ∧
                     recursionStack s2 = recursionStack s1) as Hloop.
  { induction ns as [|y ns IHns]; intros s1 s2 fin1 Hs1 Hon; simpl.
    { intros [= <-]. right. exists fin1. split_and!; try done.
      by intros v ?%elem_of_nil. }
    destruct (neighbor_step _ _ s1 y) as [s1'|] eqn:Hstep; [|done].
    intros Hrest.
    pose proof (for_each_cycles_le _
                  (neighbor_step_cycles_le fuel (path ++ [node]))
                  _ _ _ Hrest) as Hle.
    unfold neighbor_step in Hstep. case_decide as Hy.
    - destruct (IH _ _ _ _ _ Hs1 Hy Hstep)
        as [Hlt|(fin1' & Hs1' & Hsub & Hyin & Hstk)]; [left; lia|].
      destruct (IHns s1' s2 fin1' Hs1') as [Hlt|(fin2 & ? & Hsub2 & Hns & Hstk2)];
        [by rewrite Hstk|done| |].
      + left. apply visit_cycles_le in Hstep. lia.
      + right. exists fin2. split_and!; try done.
        * eauto.
        * intros v [->|?]%elem_of_cons; eauto.
        * congruence.
    - case_decide as Hyon; simplify_eq.
      + left. simpl in Hle. rewrite length_app in Hle. simpl in Hle. lia.
      + destruct (IHns s1' s2 fin1 Hs1 Hon Hrest)
          as [Hlt|(fin2 & ? & Hsub2 & Hns & Hstk2)]; [by left|].
        right. exists fin2. split_and!; try done.
        intros v [->|?]%elem_of_cons; [|eauto].
        apply Hsub2, (settled_members _ _ _ Hs1).
        by split.
  }
  destruct (for_each _ _ (enter node st)) as [s2|] eqn:Hfor; [|done].
  intros [= <-]. simpl.
  destruct (Hloop _ _ _ fin (settled_enter _ _ _ Hst Hnode)
              ltac:(simpl; set_solver) Hfor)
    as [Hlt|(fin2 & Hs2 & Hsub & Hns & Hstk)]; [by left|].
  right. exists (fin2 ++ [node]). split_and!.
  - apply settled_leave; [done|rewrite Hstk; simpl; set_solver|].
    intros v (l & Hl & Hv)%buildAdjacency_complete.
    apply Hns. by rewrite Hl.
  - intros x ?. apply elem_of_app. left. eauto.
  - apply elem_of_app. right. by left.
  - rewrite Hstk. simpl. destruct Hst as [_ _ Hsv].
    apply set_eq. intros x. set_solver.
Qed.

Lemma findCycles_fuel_complete fuel :
  findCycles_fuel fuel deps = Some [] → acyclic deps.
Proof.
  unfold findCycles_fuel.
  set (step := λ (st : DfsState) (node : string),
                 if decide (node ∉ visited st)
                 then visit fuel graph node [] st else Some st).
  assert (∀ s x s', step s x = Some s' →
                    (length (cycles s) ≤ length (cycles s'))%nat) as Hmono.
  { intros s x s'. unfold step. case_decide; [apply visit_cycles_le|].
    by intros [= <-]. }
  assert (∀ ks st st' fin,
             settled deps st fin → recursionStack st = ∅ →
             for_each step ks st = Some st' →
             (length (cycles st) < length (cycles st'))%nat ∨
             ∃ fin', settled deps st' fin' ∧ (∀ x, x ∈ fin → x ∈ fin') ∧
                     (∀ k, k ∈ ks → k ∈ fin')) as Hloop.
  { induction ks as [|k ks IHks]; intros st st' fin Hst Hempty; simpl.
    { intros [= <-]. right. exists fin. split_and!; try done.
      by intros k ?%elem_of_nil. }
    destruct (step st k) as [st1|] eqn:Hstep; [|done]. intros Hrest.
    pose proof (for_each_cycles_le step Hmono _ _ _ Hrest) as Hle.
    unfold step in Hstep. case_decide as Hk.
    - destruct (visit_settles _ _ _ _ _ _ Hst Hk Hstep)
        as [Hlt|(fin1 & Hst1 & Hsub & Hkin & Hstk)]; [left; lia|].
      destruct (IHks st1 st' fin1 Hst1) as [Hlt|(fin' & ? & Hsub' & Hks)];
        [congruence|done| |].
      + left. apply visit_cycles_le in Hstep. lia.
      + right. exists fin'. split_and!; [done|eauto|].
        intros k' [->|?]%elem_of_cons; eauto.
    - simplify_eq.
      destruct (IHks st1 st' fin Hst Hempty Hrest)
        as [Hlt|(fin' & ? & Hsub' & Hks)]; [by left|].
      right. exists fin'. split_and!; [done|done|].
      intros k' [->|?]%elem_of_cons; [|eauto].
      apply Hsub', (settled_members _ _ _ Hst).
      split; [done|]. rewrite Hempty. apply not_elem_of_empty. }
  destruct (for_each _ _ initial) as [st|] eqn:Hfor; [|done].
  intros [= Hcs].
  destruct (Hloop (keys graph) initial st []) as [Hlt|(fin & Hst & _ & Hkeys)];
    try done.
  - split; simpl; [|by intros [] ????|done].
    intros x. split; [by intros ?%elem_of_nil|]. set_solver.
  - rewrite Hcs in Hlt. simpl in Hlt. lia.
  - intros x Htc.
    assert (∃ y, edge deps x y) as [y Hedge] by (inversion Htc; eauto).
    apply buildAdjacency_complete in Hedge as (l & Hl & _).
    apply adj_get_keys, Hkeys in Hl.
    destruct Hst as [_ Ho _]. by eapply closed_order_acyclic.
Qed.

End Complete.



End ArchitectFacts.

(** ** The query parser: what a target is, and what the parser ignores *)

Module ParserFacts.
Import Chars Regex QueryParser ParserSpec.

Lemma class_plus_split (cls : ascii → bool) (s rest : list ascii) :
  rest ∈ class_plus cls s →
  ∃ pre, s = pre ++ rest ∧ pre ≠ [] ∧ Forall (λ a, cls a) pre.
Proof.
  induction s as [|c s IH]; simpl; [by intros ?%elem_of_nil|].
  destruct (cls c) eqn:Hc; [|by intros ?%elem_of_nil].
  intros [Hin| ->%list_elem_of_singleton]%elem_of_app.
  - destruct (IH Hin) as (pre & -> & _ & Hpre).
    exists (c :: pre). split_and!; [done|done|].
    constructor; [by rewrite Hc|done].
  - exists [c]. split_and!; [done|done|].
    constructor; [by rewrite Hc|constructor].
Qed.

Lemma run_token (r : regex) :
  tokened r →
  ∀ s cap th, th ∈ run r s cap →
              (token cap → token th.2) ∧ (binds r → token th.2).
Proof.
  induction r as [l|cls|r1 IH1 r2 IH2|r1 IH1 r2 IH2|r IH|r IH];
    intros Htok s cap th Hin; simpl in *.
  - destruct (strip_prefix _ s); [|by apply elem_of_nil in Hin].
    apply list_elem_of_singleton in Hin as ->. by split.
  - apply list_elem_of_fmap in Hin as (rest & -> & _). by split.
  - destruct Htok as [Ht1 Ht2].
    apply elem_of_app in Hin as [Hin|Hin].
    + destruct (IH1 Ht1 _ _ _ Hin). split; [done|]. intros [? _]. eauto.
    + destruct (IH2 Ht2 _ _ _ Hin). split; [done|]. intros [_ ?]. eauto.
  - destruct Htok as [Ht1 Ht2].
    apply list_elem_of_bind in Hin as (th1 & Hin2 & Hin1).
    destruct (IH1 Ht1 _ _ _ Hin1) as [Hk1 Hb1].
    destruct (IH2 Ht2 _ _ _ Hin2) as [Hk2 Hb2].
    split; [eauto|]. intros [?|?]; eauto.
  - apply elem_of_app in Hin as [Hin|Hin].
    + destruct (IH Htok _ _ _ Hin). by split.
    + apply list_elem_of_singleton in Hin as ->. by split.
  - subst r. simpl in Hin.
    apply list_elem_of_fmap in Hin as (th1 & -> & Hin).
    apply list_elem_of_fmap in Hin as (rest & -> & Hin). simpl.
    apply class_plus_split in Hin as (pre & -> & Hne & Hpre).
    assert (token (Some (take (length (pre ++ rest) - length rest)
                              (pre ++ rest)))) as Htoken.
    { exists pre. split_and!; [|done|done]. f_equal.
      rewrite length_app, Nat.add_sub. by rewrite take_app_length. }
    by split.
Qed.

Lemma exec_token (r : regex) (s : list ascii) m :
  tokened r → binds r → exec r s = Some m → token m.
Proof.
  intros Htok Hbinds. induction s as [|c s IH]; simpl.
  - destruct (head (run r [] None)) as [th|] eqn:Hh; [|done].
    intros [= <-]. apply head_Some_elem_of in Hh.
    by apply (run_token r Htok _ _ _ Hh).
  - destruct (head (run r (c :: s) None)) as [th|] eqn:Hh; [|done].
    intros [= <-]. apply head_Some_elem_of in Hh.
    by apply (run_token r Htok _ _ _ Hh).
Qed.

(** Membership in a list that is written out. *)
Ltac listed :=
  unfold intents, patterns;
  repeat first [apply list_elem_of_here | apply list_elem_of_further].

Lemma patterns_bind : Forall (λ r, tokened r ∧ binds r) patterns.
Proof. repeat constructor; simpl; tauto. Qed.

Lemma match2_token (r1 r2 : regex) (s : list ascii) m :
  tokened r1 ∧ binds r1 → tokened r2 ∧ binds r2 →
  match2 r1 r2 s = Some m → token m.
Proof.
  intros [? ?] [? ?]. unfold match2.
  destruct (exec r1 s) as [m1|] eqn:E1.
  - intros [= <-]. eauto using exec_token.
  - eauto using exec_token.
Qed.

(** Every answer of [parse] is a [hit] for one of the five intents on
    a token cut out of the lower-cased question. *)
Lemma parse_hit_token (question : string) (p : ParsedQuery) :
  parse question = Some p →
  ∃ i m, p = hit i m ∧ i ∈ intents ∧ token m ∧
         cap_ok (λ c, uppercase c = false) m.
Proof.
  assert (∀ r, r ∈ patterns → tokened r ∧ binds r) as Hp
    by (apply Forall_forall, patterns_bind).
  assert (∀ r1 r2 s m, r1 ∈ patterns → r2 ∈ patterns →
                       match2 r1 r2 s = Some m → token m) as Hpair.
  { intros r1 r2 s m ?%Hp ?%Hp ?. by apply (match2_token r1 r2 s). }
  assert (∀ r s m, r ∈ patterns → exec r s = Some m → token m) as Hone.
  { intros r s m [? ?]%Hp ?. by apply (exec_token r s). }
  unfold parse. pose proof (normalize_lowered question) as Hn.
  set (s := normalize question) in *.
  destruct (match2 re_dep re_dep2 s) as [o|] eqn:E1.
  { intros [= <-]. exists "DEPENDENCIES", o. split_and!; [done|listed| |].
    - apply (Hpair re_dep re_dep2 s); [listed|listed|done].
    - by eapply match2_Forall. }
  destruct (match2 re_usage re_usage2 s) as [o|] eqn:E2.
  { intros [= <-]. exists "USAGE", o. split_and!; [done|listed| |].
    - apply (Hpair re_usage re_usage2 s); [listed|listed|done].
    - by eapply match2_Forall. }
  destruct (match2 re_history re_history2 s) as [o|] eqn:E3.
  { intros [= <-]. exists "HISTORY", o. split_and!; [done|listed| |].
    - apply (Hpair re_history re_history2 s); [listed|listed|done].
    - by eapply match2_Forall. }
  destruct (exec re_risk s) as [o|] eqn:E4.
  { intros [= <-]. exists "RISKS", o. split_and!; [done|listed| |].
    - apply (Hone re_risk s); [listed|done].
    - by eapply exec_Forall. }
  destruct (exec re_explain s) as [o|] eqn:E5; [|done].
  intros [= <-]. exists "EXPLAIN", o. split_and!; [done|listed| |].
  - apply (Hone re_explain s); [listed|done].
  - by eapply exec_Forall.
Qed.

Lemma name_char_of_token (c : ascii) :
  target_char c → uppercase c = false → name_char c.
Proof.
  unfold target_char, uppercase, name_char.
  destruct (is_lower c), (is_upper c), (is_digit c); simpl; try done.
Qed.

(** Whenever [parse] answers, the intent is one of the five the
    parser knows, and the target is a non-empty token made only of
    lower-case letters, digits, [_], [-], [.] and [/]. *)
Theorem parse_target_is_a_name (question : string) (p : ParsedQuery) :
  parse question = Some p →
  intent p ∈ intents ∧ target p ≠ EmptyString ∧
  Forall (λ c, name_char c) (list_ascii_of_string (target p)).
Proof.
  intros (i & m & -> & Hi & (c & -> & Hne & Hc) & Hlow)%parse_hit_token.
  simpl. unfold group1. simpl. split_and!; [done| |].
  - destruct c; [done|]. simpl. discriminate.
  - rewrite list_ascii_of_string_of_list_ascii.
    specialize (Hlow c eq_refl).
    apply Forall_forall. intros a Ha.
    rewrite Forall_forall in Hc. rewrite Forall_forall in Hlow.
    apply name_char_of_token; eauto.
Qed.

Lemma parse_target_is_a_name_witness :
  parse "Usage of  Core/Event_Bus.emit now" =
    Some {| intent := "USAGE"; target := "core/event_bus.emit";
            confidence := 0.9 |} ∧
  "USAGE" ∈ intents ∧ "core/event_bus.emit" ≠ EmptyString ∧
  Forall (λ c, name_char c) (list_ascii_of_string "core/event_bus.emit").
Proof.
  assert (parse "Usage of  Core/Event_Bus.emit now" =
            Some {| intent := "USAGE"; target := "core/event_bus.emit";
                    confidence := 0.9 |}) as Hparse by (by vm_compute).
  split; [exact Hparse|].
  exact (parse_target_is_a_name _ _ Hparse).
Defined.

(** *** White space around the question and the case of its letters *)

Lemma is_space_lower_char (c : ascii) : is_space (lower_char c) = is_space c.
Proof. by destruct c as [[] [] [] [] [] [] [] []]. Qed.

Lemma lower_char_idem (c : ascii) : lower_char (lower_char c) = lower_char c.
Proof. by destruct c as [[] [] [] [] [] [] [] []]. Qed.

Lemma toLowerCase_idem (s : list ascii) :
  toLowerCase (toLowerCase s) = toLowerCase s.
Proof.
  unfold toLowerCase. rewrite <- list_fmap_compose.
  apply list_fmap_ext. intros _ c _. apply lower_char_idem.
Qed.

Lemma toLowerCase_spaces (s : list ascii) :
  Forall (λ c, is_space c) s → Forall (λ c, is_space c) (toLowerCase s).
Proof.
  unfold toLowerCase. intros Hs. apply Forall_fmap.
  eapply Forall_impl; [exact Hs|]. intros c Hc. simpl.
  by rewrite is_space_lower_char.
Qed.

Lemma trimStart_spaces (pad s : list ascii) :
  Forall (λ c, is_space c) pad → trimStart (pad ++ s) = trimStart s.
Proof.
  induction 1 as [|c pad Hc _ IH]; [done|]. simpl.
  by destruct (is_space c).
Qed.

Lemma trimEnd_spaces (s pad : list ascii) :
  Forall (λ c, is_space c) pad → trimEnd (s ++ pad) = trimEnd s.
Proof.
  intros Hpad. unfold trimEnd. rewrite reverse_app.
  by rewrite trimStart_spaces by (by apply Forall_reverse).
Qed.

Lemma trim_spaces (pad1 s pad2 : list ascii) :
  Forall (λ c, is_space c) pad1 → Forall (λ c, is_space c) pad2 →
  trim (pad1 ++ s ++ pad2) = trim s.
Proof.
  intros H1 H2. unfold trim. rewrite trimStart_spaces by done.
  induction s as [|c s IH]; simpl.
  - rewrite <- (app_nil_r pad2). by rewrite trimStart_spaces.
  - destruct (is_space c); [done|].
    by rewrite app_comm_cons, trimEnd_spaces.
Qed.

Lemma list_ascii_of_string_app (a b : string) :
  list_ascii_of_string (a +:+ b) =
    list_ascii_of_string a ++ list_ascii_of_string b.
Proof. induction a as [|c a IH]; simpl; [done|]. by rewrite IH. Qed.

(** White space before and after the question, and the case of its
    letters, make no difference to [parse]. *)
Theorem parse_ignores_padding_and_case (question pad1 pad2 : string) :
  Forall (λ c, is_space c) (list_ascii_of_string pad1) →
  Forall (λ c, is_space c) (list_ascii_of_string pad2) →
  parse (pad1 +:+ question +:+ pad2) = parse question ∧
  parse (lowerCase question) = parse question.
Proof.
  intros H1 H2.
  assert (normalize (pad1 +:+ question +:+ pad2) = normalize question) as Hpad.
  { unfold normalize. rewrite !list_ascii_of_string_app.
    unfold toLowerCase. rewrite !fmap_app.
    apply trim_spaces; by apply toLowerCase_spaces. }
  assert (normalize (lowerCase question) = normalize question) as Hcase.
  { unfold normalize, lowerCase.
    by rewrite list_ascii_of_string_of_list_ascii, toLowerCase_idem. }
  unfold parse. by rewrite Hpad, Hcase.
Qed.

Lemma parse_ignores_padding_and_case_witness :
  Forall (λ c, is_space c) (list_ascii_of_string "   ") ∧
  Forall (λ c, is_space c) (list_ascii_of_string " ") ∧
  parse ("   " +:+ "Who Calls Render" +:+ " ") = parse "Who Calls Render" ∧
  parse (lowerCase "Who Calls Render") = parse "Who Calls Render".
Proof.
  assert (Forall (λ c, is_space c) (list_ascii_of_string "   ")) as H1
    by (repeat constructor).
  assert (Forall (λ c, is_space c) (list_ascii_of_string " ")) as H2
    by (repeat constructor).
  split; [exact H1|]. split; [exact H2|].
  exact (parse_ignores_padding_and_case "Who Calls Render" "   " " " H1 H2).
Defined.
End ParserFacts.

(** ** The findings store: other agents, missing agents *)

Module KnowledgeBaseFacts.
Import KnowledgeBase.

Section Store.
Context {Any : Type} (null : Any).
Implicit Types (storage : gmap string (@AgentFinding Any)) (a b : string).



End Store.


End KnowledgeBaseFacts.

(** ** The explanation collaborator: when it is on, what it answers *)

Module GeminiFacts.
Import Gemini.

(** After [initialize] the client is enabled exactly when a non-empty
    key was found (in the [.env] file or else in the settings) and the
    service could be set up with it.  The setting [enableLLM] alone
    never enables the client. *)
Theorem initialize_enabled (envKey : option string) (settings : Settings)
    (connect : string → Result GoogleGenAI) :
  isEnabled (initialize envKey settings connect) = true ↔
  chosenKey envKey settings ≠ EmptyString ∧
  ∃ service, connect (chosenKey envKey settings) = Ok service.
Proof.
  unfold initialize, isEnabled. case_decide as Hkey.
  - simpl. rewrite andb_false_r. split; [done|]. by intros [? _].
  - destruct (connect _) as [service|e]; simpl.
    + split; [|done]. intros _. split; [done|]. by exists service.
    + split; [done|]. by intros [_ [? ?]].
Qed.

Lemma initialize_enabled_witness :
  isEnabled (initialize (Some "abc123") {| geminiApiKey := EmptyString;
                                            enableLLM := false |}
               (λ _, Ok {| generateContent := λ _, Ok None |})) = true ∧
  chosenKey (Some "abc123") {| geminiApiKey := EmptyString;
                               enableLLM := false |} ≠ EmptyString.
Proof.
  assert (isEnabled (initialize (Some "abc123")
                       {| geminiApiKey := EmptyString; enableLLM := false |}
                       (λ _, Ok {| generateContent := λ _, Ok None |})) = true)
    as Hon by reflexivity.
  split; [exact Hon|].
  exact (proj1 (proj1 (initialize_enabled _ _ _) Hon)).
Defined.

(** [explainResult] and [answerCodebaseQuestion] answer a text only
    when the client is enabled and its service returned that text,
    and the text is never empty; a client that is off, a service that
    throws and a service without text all give [null]. *)
Theorem explanation_comes_from_the_service (c : GeminiClient) (p : Prompt)
    (answer : string) :
  generate c p = Some answer →
  isEnabled c = true ∧ answer ≠ EmptyString ∧
  ∃ service, genAI c = Some service ∧
             generateContent service p = Ok (Some answer).
Proof.
  unfold generate, isEnabled.
  destruct (genAI c) as [service|]; [|done].
  destruct (enabled c); [|done].
  destruct (generateContent service p) as [[text|]|e] eqn:Hg; simpl; try done.
  case_decide; [done|]. intros [= ->]. split_and!; [done|done|].
  by exists service.
Qed.

Lemma explanation_comes_from_the_service_witness :
  generate Orchestrator.talkative (CodebaseQuestion "why" []) =
    Some "A small project." ∧
  isEnabled Orchestrator.talkative = true ∧
  "A small project." ≠ EmptyString ∧
  ∃ service, genAI Orchestrator.talkative = Some service ∧
             generateContent service (CodebaseQuestion "why" []) =
               Ok (Some "A small project.").
Proof.
  assert (generate Orchestrator.talkative (CodebaseQuestion "why" []) =
            Some "A small project.") as Hgen by reflexivity.
  split; [exact Hgen|].
  exact (explanation_comes_from_the_service _ _ _ Hgen).
Defined.

End GeminiFacts.

(** ** The orchestrator: what needs no collaborator, what a prompt holds *)

Module OrchestratorFacts.
Import Chars KnowledgeGraph Gemini Orchestrator OrchestratorSpec.

(** A question the parser answers (DEPENDENCIES, USAGE, HISTORY or
    RISKS) is settled on the graph alone: the whole answer, preview
    included, is the same whatever the collaborator, the planner, the
    ranking queries and the file system are. *)
Theorem parsed_answer_needs_no_collaborator
    (plan1 plan2 : string → Planner.QueryPlan)
    (central1 central2 : KnowledgeGraph → list Ranking.FunctionCentrality)
    (important1 important2 : KnowledgeGraph → list Ranking.FileImportance)
    (read1 read2 : string → Result string) (folder1 folder2 : option string)
    (basename : string → string) (relative1 relative2 : string → string → string)
    (graph : KnowledgeGraph) (c1 c2 : option GeminiClient) (question : string) :
  fallsThrough question = false →
  runQuery plan1 central1 important1 read1 folder1 basename relative1 graph
           c1 question =
  runQuery plan2 central2 important2 read2 folder2 basename relative2 graph
           c2 question.
Proof.
  intros Hparsed. unfold runQuery.
  destruct (dispatchParsed basename graph (QueryParser.parse question))
    as [answer|] eqn:Hd; [done|].
  apply dispatchParsed_fallsThrough in Hd; [congruence|assumption..].
Qed.

Lemma parsed_answer_needs_no_collaborator_witness :
  fallsThrough "who calls render" = false ∧
  ask_sample oneFile None "who calls render" =
    runQuery (λ _, {| Planner.intent := "blast_radius";
                      Planner.functionName := Some "render" |})
             noCentrality noImportance (λ _, Ok "text") None
             posixBasename (λ _ p, p) oneFile (Some talkative)
             "who calls render".
Proof.
  assert (fallsThrough "who calls render" = false) as Hparsed
    by (by vm_compute).
  split; [exact Hparsed|].
  exact (parsed_answer_needs_no_collaborator _ _ _ _ _ _ _ _ _ _ _ _ _ _ _ _ _
           Hparsed).
Defined.

(** *** The size of a prompt *)

Lemma length_append (a b : string) :
  String.length (a +:+ b) = (String.length a + String.length b)%nat.
Proof. induction a as [|c a IH]; simpl; [done|]. by rewrite IH. Qed.

Lemma length_substring (n m : nat) (s : string) :
  (String.length (substring n m s) ≤ m)%nat.
Proof.
  revert n m. induction s as [|c s IH]; intros [|n] [|m]; simpl; try lia.
  - specialize (IH 0%nat m). lia.
  - apply IH.
  - apply IH.
Qed.

Lemma contentSize_nil : contentSize [] = 0%nat.
Proof. done. Qed.

Lemma contentSize_cons (f : ProjectFile) (l : list ProjectFile) :
  contentSize (f :: l) = (String.length (content f) + contentSize l)%nat.
Proof. done. Qed.

(** However many files are handed over and however long they are, the
    contents [readProjectFiles] collects for a prompt stay within
    [maxSize] characters plus the sixteen of the truncation mark, and
    there is at most one entry for each file. *)
Theorem readProjectFiles_bounded (readFile : string → Result string)
    (relative : string → string → string) (workspace : string)
    (filesToRead : list string) :
  (contentSize (readProjectFiles readFile relative workspace filesToRead 0)
     ≤ maxSize + 16)%nat ∧
  (length (readProjectFiles readFile relative workspace filesToRead 0)
     ≤ length filesToRead)%nat.
Proof.
  assert (∀ paths total,
             (total ≤ maxSize)%nat →
             (total + contentSize (readProjectFiles readFile relative
                                     workspace paths total)
                ≤ maxSize + 16)%nat ∧
             (length (readProjectFiles readFile relative workspace paths total)
                ≤ length paths)%nat) as Hgen.
  { induction paths as [|file paths IH]; intros total Htotal;
      cbn [readProjectFiles]; [rewrite contentSize_nil; simpl length; lia|].
    destruct (readFile file) as [text|e].
    - destruct (Nat.ltb_spec maxSize (total + String.length text)).
      + rewrite contentSize_cons, contentSize_nil. cbn [content length].
        rewrite !length_append.
        pose proof (length_substring 0 (maxSize - total) text).
        change (String.length nl) with 1%nat.
        change (String.length "... (truncated)") with 15%nat. lia.
      + destruct (IH (total + String.length text)%nat) as [? ?]; [lia|].
        rewrite contentSize_cons. cbn [content length]. lia.
    - destruct (IH total Htotal). cbn [length]. lia. }
  apply (Hgen filesToRead 0%nat). lia.
Qed.

(** *** Which files an answer names *)

Lemma elem_of_uniq (x : string) (l : list string) : x ∈ uniq l ↔ x ∈ l.
Proof.
  induction l as [|y l IH]; simpl; [done|].
  rewrite !elem_of_cons, list_elem_of_filter, IH.
  destruct (decide (x = y)); naive_solver.
Qed.

Lemma NoDup_uniq (l : list string) : NoDup (uniq l).
Proof.
  induction l as [|y l IH]; simpl; constructor.
  - rewrite list_elem_of_filter. naive_solver.
  - by apply NoDup_filter.
Qed.

Lemma length_uniq (l : list string) : (length (uniq l) ≤ length l)%nat.
Proof.
  induction l as [|y l IH]; cbn [uniq length]; [done|].
  pose proof (length_filter (λ z, z ≠ y) (uniq l)). lia.
Qed.

Lemma length_omap {A B} (f : A → option B) (l : list A) :
  (length (omap f l) ≤ length l)%nat.
Proof.
  induction l as [|a l IH]; csimpl; [done|].
  destruct (f a); csimpl; cbn [length]; lia.
Qed.

(** A general query names at most twenty files and names none twice,
    and each of them is one of the fifteen most important files or the
    path of one of the first twenty [File] nodes of the graph. *)
Theorem general_query_files
    (fileImportance : KnowledgeGraph → list Ranking.FileImportance)
    (readFile : string → Result string) (workspaceFolder : option string)
    (relative : string → string → string) (graph : KnowledgeGraph)
    (c : option GeminiClient) (question : string) (r : QueryResult) :
  handleGeneralQuery fileImportance readFile workspaceFolder relative graph c
                     question = Ok r →
  (length (files r) ≤ 20)%nat ∧ NoDup (files r) ∧
  ∀ file, file ∈ files r →
          file ∈ Ranking.fileId <$> take 15 (fileImportance graph) ∨
          file ∈ take 20 (allFiles graph).
Proof.
  unfold handleGeneralQuery.
  destruct (available c) as [client|]; [|intros [= <-]; simpl].
  - destruct workspaceFolder as [workspace|]; intros [= <-]; simpl.
    + split; [rewrite length_take; lia|]. split.
      * eapply sublist_NoDup; [apply NoDup_uniq|apply sublist_take].
      * intros file Hfile. apply (subseteq_take 20) in Hfile.
        apply elem_of_uniq, elem_of_app in Hfile. exact Hfile.
    + split; [lia|]. split; [constructor|]. intros file Hfile. inversion Hfile.
  - split; [lia|]. split; [constructor|]. intros file Hfile. inversion Hfile.
Qed.

Lemma general_query_files_witness :
  ∃ r, handleGeneralQuery noImportance unreadable (Some "/w") posixRelative
         oneFile (Some talkative) "what is this project" = Ok r ∧
       files r = ["/w/a.ts"] ∧ (length (files r) ≤ 20)%nat ∧ NoDup (files r).
Proof.
  eexists. 
  assert (handleGeneralQuery noImportance unreadable (Some "/w") posixRelative
            oneFile (Some talkative) "what is this project" =
          Ok {| intent := "general_query"; files := ["/w/a.ts"];
                functions := None;
                contextPreview := Some "A small project.";
                metadata := None |}) as Hrun by (by vm_compute).
  split; [exact Hrun|]. split; [reflexivity|].
  destruct (general_query_files _ _ _ _ _ _ _ _ Hrun) as (Hlen & Hnodup & _).
  split; [exact Hlen | exact Hnodup].
Defined.

(** The ranked answers are capped: the most central functions are at
    most twenty, with at most one file for each and no file twice; the
    most important files are at most ten. *)
Theorem ranked_answers_are_capped
    (functionCentrality : KnowledgeGraph → list Ranking.FunctionCentrality)
    (fileImportance : KnowledgeGraph → list Ranking.FileImportance)
    (graph : KnowledgeGraph) :
  let central := handleCentralFunctions functionCentrality graph in
  let important := handleImportantFiles fileImportance graph in
  (length (default [] (functions central)) ≤ 20)%nat ∧
  (length (files central) ≤ length (default [] (functions central)))%nat ∧
  NoDup (files central) ∧
  (length (files important) ≤ 10)%nat.
Proof.
  simpl. rewrite !length_fmap. repeat split.
  - rewrite length_take. lia.
  - etransitivity; [apply length_uniq|]. apply length_omap.
  - apply NoDup_uniq.
  - rewrite length_take. lia.
Qed.

End OrchestratorFacts.

(** ** The build of the graph: what its edges connect *)

Module ExtensionFacts.
Import Chars KnowledgeGraph Extension.

Lemma elem_of_put (ns : list Node) (n m : Node) :
  m ∈ put ns n → m = n ∨ m ∈ ns.
Proof.
  induction ns as [|k ns IH]; cbn [put].
  - intros ->%list_elem_of_singleton. by left.
  - repeat case_decide; rewrite !elem_of_cons; naive_solver.
Qed.

(** A function that is inserted takes no [Function] node away. *)
Lemma put_function_ids (ns : list Node) (f : FunctionInfo) (i : string) :
  i ∈ id <$> filter (λ n, type n = Function) ns →
  i ∈ id <$> filter (λ n, type n = Function) (put ns (FunctionNode f)).
Proof.
  induction ns as [|k ns IH]; cbn [put]; [by intros ?%elem_of_nil|].
  intros Hi. case_decide as Hid; [case_decide as Htype|].
  - rewrite filter_cons_True, fmap_cons in Hi by done.
    rewrite (filter_cons_True _ (FunctionNode f)), fmap_cons by done.
    cbn [id] in *. by rewrite <- Hid.
  - exact Hi.
  - destruct (decide (type k = Function)).
    + rewrite filter_cons_True, fmap_cons in Hi by done.
      rewrite filter_cons_True, fmap_cons by done. set_solver.
    + rewrite filter_cons_False in Hi by done.
      rewrite filter_cons_False by done. by apply IH.
Qed.

Lemma put_ids (ns : list Node) (n : Node) (i : string) :
  i = id n ∨ i ∈ id <$> ns → i ∈ id <$> put ns n.
Proof.
  induction ns as [|k ns IH]; cbn [put]; intros Hi.
  - destruct Hi as [->|Hi]; [set_solver|by apply elem_of_nil in Hi].
  - repeat case_decide; rewrite !fmap_cons in *; set_solver.
Qed.

Lemma put_kept (filePaths folderPaths : list string) (g : KnowledgeGraph)
    (n : Node) :
  match type n with
  | File => id n ∈ filePaths
  | Folder => id n ∈ folderPaths
  | Function => True
  end →
  kept filePaths folderPaths g → kept filePaths folderPaths (addNode g n).
Proof.
  intros Hn Hg m [->|Hm]%elem_of_put; [done|by apply Hg].
Qed.

(** *** The extraction keeps the graph sound *)

Section Listed.
Variables filePaths folderPaths : list string.
Local Abbreviation sound := (Extension.sound filePaths folderPaths).
Local Abbreviation plain := (Extension.plain filePaths folderPaths).

Lemma linkCall_sound (func : FunctionInfo) (g : KnowledgeGraph) (call : string) :
  func_id func ∈ nodeIds g → sound g →
  sound (linkCall func g call) ∧ nodes (linkCall func g call) = nodes g.
Proof.
  intros Hfunc (Hanchored & Hdefined & Hkept). unfold linkCall.
  destruct (calledFunctions g call) as [|target rest] eqn:Hcalled; [done|].
  split; [|done]. split_and!; [| |done].
  - intros e [He| ->%list_elem_of_singleton]%elem_of_app Hcalls.
    + exact (Hanchored e He Hcalls).
    + split; [exact Hfunc|]. cbn [to].
      assert (target ∈ calledFunctions g call) as Ht
        by (rewrite Hcalled; apply list_elem_of_here).
      apply list_elem_of_filter in Ht as [_ Ht].
      unfold functionIds. apply list_elem_of_fmap. by exists target.
  - intros f Hf. destruct (Hdefined f Hf) as [file Hfile].
    exists file. cbn [addEdge edges]. apply elem_of_app. by left.
Qed.

Lemma linkCalls_sound (func : FunctionInfo) (calls : list string)
    (g : KnowledgeGraph) :
  func_id func ∈ nodeIds g → sound g →
  sound (foldl (linkCall func) g calls).
Proof.
  revert g. induction calls as [|call calls IH]; intros g Hfunc Hsound;
    cbn [foldl]; [done|].
  destruct (linkCall_sound func g call Hfunc Hsound) as [Hsound' Hnodes].
  apply IH; [|done]. unfold nodeIds. by rewrite Hnodes.
Qed.

Lemma addFunction_sound (file : string) (g : KnowledgeGraph)
    (func : FunctionInfo) :
  sound g → sound (addFunction file g func).
Proof.
  intros (Hanchored & Hdefined & Hkept). unfold addFunction.
  apply linkCalls_sound.
  - unfold nodeIds. cbn [addEdge addNode nodes]. apply put_ids. by left.
  - split_and!.
    + intros e [He| ->%list_elem_of_singleton]%elem_of_app Hcalls; [|done].
      destruct (Hanchored e He Hcalls) as [Hfrom Hto].
      unfold nodeIds, functionIds, getNodesByType.
      cbn [addEdge addNode nodes]. split.
      * apply put_ids. by right.
      * by apply put_function_ids.
    + intros f Hf. cbn [addEdge addNode nodes edges] in *.
      apply elem_of_put in Hf as [[= ->]|Hf].
      * exists file. apply elem_of_app. right. apply list_elem_of_here.
      * destruct (Hdefined f Hf) as [file' Hfile].
        exists file'. apply elem_of_app. by left.
    + by apply (put_kept _ _ g (FunctionNode func)).
Qed.

Lemma addFunctions_sound (file : string) (functions : list FunctionInfo)
    (g : KnowledgeGraph) :
  sound g → sound (foldl (addFunction file) g functions).
Proof.
  revert g. induction functions as [|func functions IH]; intros g Hsound;
    cbn [foldl]; [done|].
  by apply IH, addFunction_sound.
Qed.

Lemma extractFile_sound
    (pythonExtract jsExtract : string → Result (list FunctionInfo))
    (g : KnowledgeGraph) (file : string) :
  sound g → sound (extractFile pythonExtract jsExtract g file).
Proof.
  intros Hsound. unfold extractFile.
  destruct (endsWith file ".py").
  - destruct (pythonExtract file); [by apply addFunctions_sound|done].
  - destruct (isScript file); [|done].
    destruct (jsExtract file); [by apply addFunctions_sound|done].
Qed.

Lemma extractFiles_sound
    (pythonExtract jsExtract : string → Result (list FunctionInfo))
    (paths : list string) (g : KnowledgeGraph) :
  sound g → sound (foldl (extractFile pythonExtract jsExtract) g paths).
Proof.
  revert g. induction paths as [|p paths IH]; intros g Hg; cbn [foldl]; [done|].
  by apply IH, extractFile_sound.
Qed.

(** *** Step 3 of the build: files, folders and imports *)

Lemma plain_sound (g : KnowledgeGraph) : plain g → sound g.
Proof.
  intros (Hnodes & Hkept & Hedges). split_and!; [| |done].
  - intros e He Hcalls. rewrite (Hedges e He) in Hcalls. done.
  - intros f Hf. by destruct (Hnodes _ Hf).
Qed.

Lemma addFiles_plain (paths : list string) (g : KnowledgeGraph) :
  paths ⊆ filePaths → plain g →
  plain (foldl (λ g file, addNode g (FileNode file)) g paths).
Proof.
  revert g. induction paths as [|p paths IH]; intros g Hsub Hg;
    cbn [foldl]; [done|].
  apply IH; [set_solver|]. destruct Hg as (Hnodes & Hkept & Hedges).
  split_and!; [| |done].
  - intros n [->|Hn]%elem_of_put; [done|by apply Hnodes].
  - apply put_kept; [|done]. cbn. set_solver.
Qed.

Lemma addFolders_plain (paths : list string) (g : KnowledgeGraph) :
  paths ⊆ folderPaths → plain g →
  plain (foldl (λ g folder, addNode g (FolderNode folder)) g paths).
Proof.
  revert g. induction paths as [|p paths IH]; intros g Hsub Hg;
    cbn [foldl]; [done|].
  apply IH; [set_solver|]. destruct Hg as (Hnodes & Hkept & Hedges).
  split_and!; [| |done].
  - intros n [->|Hn]%elem_of_put; [done|by apply Hnodes].
  - apply put_kept; [|done]. cbn. set_solver.
Qed.

Lemma addImports_plain (deps : list Architect.Dependency) (g : KnowledgeGraph) :
  plain g →
  plain (foldl (λ g dep, addEdge g {| from := Architect.from dep;
                                      to := Architect.to dep;
                                      etype := IMPORTS |}) g deps).
Proof.
  revert g. induction deps as [|d deps IH]; intros g Hg; cbn [foldl]; [done|].
  apply IH. destruct Hg as (Hnodes & Hkept & Hedges). split_and!; [done..|].
  intros e [He| ->%list_elem_of_singleton]%elem_of_app; [by apply Hedges|done].
Qed.

End Listed.

Lemma build_sound
    (pythonExtract jsExtract : string → Result (list FunctionInfo))
    (metadata : option WorkspaceMetadata)
    (dependencies : option (list Architect.Dependency)) :
  sound (listedFiles metadata) (listedFolders metadata)
        (buildKnowledgeGraph pythonExtract jsExtract KnowledgeGraph.empty
           metadata dependencies).
Proof.
  unfold buildKnowledgeGraph.
  assert (plain (listedFiles metadata) (listedFolders metadata)
                KnowledgeGraph.empty) as Hempty
    by (split_and!; intros ? Hin; inversion Hin).
  destruct metadata as [md|], dependencies as [deps|];
    cbn [listedFiles listedFolders] in *.
  - by apply extractFiles_sound, plain_sound, addImports_plain,
      addFolders_plain, addFiles_plain.
  - by apply extractFiles_sound, plain_sound, addFolders_plain, addFiles_plain.
  - by apply plain_sound, addImports_plain.
  - by apply plain_sound.
Qed.

(** The node a [CALLS] edge starts at. *)
Lemma sound_caller (filePaths folderPaths : list string) (g : KnowledgeGraph)
    (e : Edge) :
  sound filePaths folderPaths g → e ∈ edges g → etype e = CALLS →
  ∃ n, n ∈ nodes g ∧ id n = from e ∧
       match type n with
       | File => from e ∈ filePaths
       | Folder => from e ∈ folderPaths
       | Function => True
       end.
Proof.
  intros (Hanchored & _ & Hkept) He Hcalls.
  destruct (Hanchored e He Hcalls) as [Hfrom _].
  apply list_elem_of_fmap in Hfrom as (n & Hid & Hn).
  exists n. split_and!; [done|done|].
  specialize (Hkept n Hn). rewrite Hid. by destruct (type n).
Qed.

(** Whatever the agents found and whatever the extractors report,
    in the graph built from the empty one every [CALLS] edge ends at a
    [Function] node, and starts at a [Function] node unless the id of
    the calling function is a path the archaeologist listed, whose
    file or folder node keeps its type; and every [Function] node is
    the target of a [DEFINES] edge. *)
Theorem build_calls_link_functions
    (pythonExtract jsExtract : string → Result (list FunctionInfo))
    (metadata : option WorkspaceMetadata)
    (dependencies : option (list Architect.Dependency)) :
  let g := buildKnowledgeGraph pythonExtract jsExtract KnowledgeGraph.empty
             metadata dependencies in
  linked (listedFiles metadata ++ listedFolders metadata) g ∧ defined g.
Proof.
  cbv zeta.
  pose proof (build_sound pythonExtract jsExtract metadata dependencies)
    as Hsound.
  split; [|apply Hsound].
  intros e He Hcalls.
  destruct (sound_caller _ _ _ e Hsound He Hcalls) as (n & Hn & Hid & Hkind).
  destruct Hsound as (Hanchored & _ & _).
  split; [by apply Hanchored|].
  destruct (type n) eqn:Htype.
  - right. apply elem_of_app. by left.
  - right. apply elem_of_app. by right.
  - left. unfold functionIds, getNodesByType.
    apply list_elem_of_fmap. exists n. split; [done|].
    by apply list_elem_of_filter.
Qed.

(** *** Nothing found is lost *)

Lemma getNode_is_Some (g : KnowledgeGraph) (i : string) :
  i ∈ nodeIds g → is_Some (getNode g i).
Proof.
  unfold nodeIds, getNode.
  intros (n & -> & Hn)%list_elem_of_fmap.
  assert (n ∈ filter (λ m, id m = id n) (nodes g)) as Hf
    by (by apply list_elem_of_filter).
  destruct (filter (λ m, id m = id n) (nodes g)); [by apply elem_of_nil in Hf|].
  by eexists.
Qed.

Lemma linkCall_frame (func : FunctionInfo) (g : KnowledgeGraph) (call : string) :
  nodes (linkCall func g call) = nodes g ∧
  imports (linkCall func g call) = imports g.
Proof.
  unfold linkCall. destruct (calledFunctions g call); [done|].
  split; [done|]. unfold imports. cbn [addEdge edges].
  rewrite filter_app, filter_cons_False, filter_nil by done.
  apply app_nil_r.
Qed.

Lemma linkCalls_frame (func : FunctionInfo) (calls : list string)
    (g : KnowledgeGraph) :
  nodes (foldl (linkCall func) g calls) = nodes g ∧
  imports (foldl (linkCall func) g calls) = imports g.
Proof.
  revert g. induction calls as [|call calls IH]; intros g; cbn [foldl]; [done|].
  destruct (IH (linkCall func g call)) as [-> ->]. apply linkCall_frame.
Qed.

Lemma addFunction_keeps (file : string) (g : KnowledgeGraph)
    (func : FunctionInfo) :
  nodeIds g ⊆ nodeIds (addFunction file g func) ∧
  imports (addFunction file g func) = imports g.
Proof.
  unfold addFunction, nodeIds.
  destruct (linkCalls_frame func (calls func)
              (addEdge (addNode g (FunctionNode func))
                 {| from := file; to := func_id func; etype := DEFINES |}))
    as [-> ->].
  split.
  - intros i Hi. cbn [addEdge addNode nodes]. apply put_ids. by right.
  - unfold imports. cbn [addEdge addNode edges].
    rewrite filter_app, filter_cons_False, filter_nil by done.
    apply app_nil_r.
Qed.

Lemma addFunctions_keep (file : string) (functions : list FunctionInfo)
    (g : KnowledgeGraph) :
  nodeIds g ⊆ nodeIds (foldl (addFunction file) g functions) ∧
  imports (foldl (addFunction file) g functions) = imports g.
Proof.
  revert g. induction functions as [|func functions IH]; intros g;
    cbn [foldl]; [done|].
  destruct (IH (addFunction file g func)) as [Hids ->].
  destruct (addFunction_keeps file g func) as [Hids' ->].
  split; [by etransitivity|done].
Qed.

Lemma extractFile_keeps
    (pythonExtract jsExtract : string → Result (list FunctionInfo))
    (g : KnowledgeGraph) (file : string) :
  nodeIds g ⊆ nodeIds (extractFile pythonExtract jsExtract g file) ∧
  imports (extractFile pythonExtract jsExtract g file) = imports g.
Proof.
  unfold extractFile. destruct (endsWith file ".py").
  - destruct (pythonExtract file); [apply addFunctions_keep|done].
  - destruct (isScript file); [|done].
    destruct (jsExtract file); [apply addFunctions_keep|done].
Qed.

Lemma extractFiles_keep
    (pythonExtract jsExtract : string → Result (list FunctionInfo))
    (paths : list string) (g : KnowledgeGraph) :
  nodeIds g ⊆ nodeIds (foldl (extractFile pythonExtract jsExtract) g paths) ∧
  imports (foldl (extractFile pythonExtract jsExtract) g paths) = imports g.
Proof.
  revert g. induction paths as [|p paths IH]; intros g; cbn [foldl]; [done|].
  destruct (IH (extractFile pythonExtract jsExtract g p)) as [Hids ->].
  destruct (extractFile_keeps pythonExtract jsExtract g p) as [Hids' ->].
  split; [by etransitivity|done].
Qed.

Lemma addImports_frame (deps : list Architect.Dependency) (g : KnowledgeGraph) :
  nodes (foldl (λ g dep, addEdge g (importEdge dep)) g deps) = nodes g ∧
  imports (foldl (λ g dep, addEdge g (importEdge dep)) g deps) =
    imports g ++ (importEdge <$> deps).
Proof.
  revert g. induction deps as [|d deps IH]; intros g; cbn [foldl].
  - split; [done|]. by rewrite app_nil_r.
  - destruct (IH (addEdge g (importEdge d))) as [-> ->].
    split; [done|]. unfold imports. cbn [addEdge edges].
    rewrite filter_app, filter_cons_True, filter_nil by done.
    by rewrite <- app_assoc.
Qed.

Lemma addFiles_ids (paths : list string) (g : KnowledgeGraph) (i : string) :
  i ∈ paths ∨ i ∈ nodeIds g →
  i ∈ nodeIds (foldl (λ g file, addNode g (FileNode file)) g paths).
Proof.
  revert g. induction paths as [|p paths IH]; intros g Hi; cbn [foldl].
  - destruct Hi as [Hi|Hi]; [by apply elem_of_nil in Hi|done].
  - apply IH. rewrite elem_of_cons in Hi.
    destruct Hi as [[->|Hi]|Hi]; [right|by left|right];
      unfold nodeIds; cbn [addNode nodes]; apply put_ids; first [by left|by right].
Qed.

Lemma addFolders_ids (paths : list string) (g : KnowledgeGraph) (i : string) :
  i ∈ paths ∨ i ∈ nodeIds g →
  i ∈ nodeIds (foldl (λ g folder, addNode g (FolderNode folder)) g paths).
Proof.
  revert g. induction paths as [|p paths IH]; intros g Hi; cbn [foldl].
  - destruct Hi as [Hi|Hi]; [by apply elem_of_nil in Hi|done].
  - apply IH. rewrite elem_of_cons in Hi.
    destruct Hi as [[->|Hi]|Hi]; [right|by left|right];
      unfold nodeIds; cbn [addNode nodes]; apply put_ids; first [by left|by right].
Qed.

Lemma addNodes_edges {A} (mk : A → Node) (l : list A) (g : KnowledgeGraph) :
  edges (foldl (λ g a, addNode g (mk a)) g l) = edges g.
Proof.
  revert g. induction l as [|a l IH]; intros g; cbn [foldl]; [done|].
  by rewrite IH.
Qed.

(** The [IMPORTS] edges of the graph built from the empty one are the
    dependencies the detective stored, one edge for each, in their
    order: the extraction adds none and drops none. *)
Theorem build_imports_are_the_dependencies
    (pythonExtract jsExtract : string → Result (list FunctionInfo))
    (metadata : option WorkspaceMetadata)
    (dependencies : option (list Architect.Dependency)) :
  imports (buildKnowledgeGraph pythonExtract jsExtract KnowledgeGraph.empty
             metadata dependencies) =
  importEdge <$> default [] dependencies.
Proof.
  unfold buildKnowledgeGraph.
  destruct metadata as [md|], dependencies as [deps|]; cbn [default];
    rewrite ?(proj2 (extractFiles_keep _ _ _ _));
    fold importEdge;
    rewrite ?(proj2 (addImports_frame _ _));
    unfold imports; rewrite ?addNodes_edges; done.
Qed.

(** Every file and every folder the archaeologist listed can be
    looked up in the built graph by its path. *)
Theorem build_keeps_every_path
    (pythonExtract jsExtract : string → Result (list FunctionInfo))
    (md : WorkspaceMetadata)
    (dependencies : option (list Architect.Dependency)) (p : string) :
  p ∈ files md ++ folders md →
  is_Some (getNode (buildKnowledgeGraph pythonExtract jsExtract
                      KnowledgeGraph.empty (Some md) dependencies) p).
Proof.
  intros Hp. apply getNode_is_Some. unfold buildKnowledgeGraph.
  apply (proj1 (extractFiles_keep _ _ _ _)).
  assert (p ∈ nodeIds
            (foldl (λ g folder, addNode g (FolderNode folder))
               (foldl (λ g file, addNode g (FileNode file))
                  KnowledgeGraph.empty (files md)) (folders md))) as Hnodes.
  { apply addFolders_ids. apply elem_of_app in Hp as [Hp|Hp]; [right|by left].
    apply addFiles_ids. by left. }
  destruct dependencies as [deps|]; [|done].
  fold importEdge. unfold nodeIds.
  by rewrite (proj1 (addImports_frame _ _)).
Qed.

Lemma build_keeps_every_path_witness :
  "a.ts" ∈ ["a.ts"] ++ [] ∧ is_Some (getNode built "a.ts").
Proof.
  assert ("a.ts" ∈ files {| files := ["a.ts"]; folders := [] |} ++
                   folders {| files := ["a.ts"]; folders := [] |}) as Hp
    by (cbn; apply list_elem_of_here).
  split; [exact Hp|].
  exact (build_keeps_every_path (λ _, Ok []) (λ _, Ok [foobar; foo; main])
           {| files := ["a.ts"]; folders := [] |} None "a.ts" Hp).
Defined.

End ExtensionFacts.

(** ** The architect: which insights [explore] stores *)

Module ArchitectAgentFacts.
Import Architect Extension ArchitectAgent.

Lemma cycleInsights_reports (deps : list Dependency) :
  ∃ found, cycleInsights deps = Some found ∧
           (found = [] ↔ acyclic deps) ∧
           Forall (λ i, type i = CYCLE ∧ severity i = HIGH) found ∧
           (length found ≤ 1)%nat.
Proof.
  unfold cycleInsights.
  destruct (ArchitectSpec.findCycles_returns deps) as [cycles Hcycles].
  rewrite Hcycles. cbn [mbind option_bind].
  eexists. split; [done|].
  case_decide as Hlen.
  - split_and!; [|by repeat constructor|simpl; lia].
    split; [done|]. intros Hacyclic.
    pose proof (ArchitectSpec.findCycles_fuel_silent deps Hacyclic _ _ Hcycles)
      as ->.
    simpl in Hlen. lia.
  - split_and!; [|constructor|simpl; lia].
    split; [|done]. intros _.
    destruct cycles; [|simpl in Hlen; lia].
    by eapply ArchitectFacts.findCycles_fuel_complete.
Qed.

(** [explore] always stores a list, of at most two insights.  It
    holds a [CYCLE] insight exactly when the detective's dependencies
    are there and contain an import cycle, a [STRUCTURE] insight
    exactly when the archaeologist's metadata is there and shows more
    than fifty files in fewer than three folders; cycles are graded
    [HIGH], the structure [MEDIUM], and no [LAYERING] insight is ever
    produced. *)
Theorem explore_insights (dependencies : option (list Dependency))
    (metadata : option WorkspaceMetadata) :
  ∃ insights,
    explore dependencies metadata = Some insights ∧
    (reports CYCLE insights ↔
       ∃ deps, dependencies = Some deps ∧ ¬ acyclic deps) ∧
    (reports STRUCTURE insights ↔
       ∃ md, metadata = Some md ∧ monolithic md) ∧
    Forall graded insights ∧ (length insights ≤ 2)%nat.
Proof.
  assert (∃ found,
            match dependencies with
            | Some deps => cycleInsights deps
            | None => Some []
            end = Some found ∧
            (found ≠ [] ↔ ∃ deps, dependencies = Some deps ∧ ¬ acyclic deps) ∧
            Forall (λ i, type i = CYCLE ∧ severity i = HIGH) found ∧
            (length found ≤ 1)%nat) as (found & Hfound & Hcyc & Hfc & Hlc).
  { destruct dependencies as [deps|].
    - destruct (cycleInsights_reports deps) as (found & ? & Hiff & ? & ?).
      exists found. split_and!; try done. rewrite Hiff. split.
      + intros ?. by exists deps.
      + by intros (? & [= <-] & ?).
    - exists []. split_and!; [done| |constructor|simpl; lia].
      split; [done|]. by intros (? & [=] & _). }
  assert (∃ shape,
            match metadata with
            | Some md => structureInsights md
            | None => []
            end = shape ∧
            (shape ≠ [] ↔ ∃ md, metadata = Some md ∧ monolithic md) ∧
            Forall (λ i, type i = STRUCTURE ∧ severity i = MEDIUM) shape ∧
            (length shape ≤ 1)%nat) as (shape & Hshape & Hst & Hfs & Hls).
  { eexists. split; [done|]. destruct metadata as [md|].
    - unfold structureInsights, monolithic. case_decide as Hmono.
      + split_and!; [|by repeat constructor|simpl; lia].
        split; [|done]. intros _. by exists md.
      + split_and!; [|constructor|simpl; lia].
        split; [done|]. by intros (? & [= <-] & ?).
    - split_and!; [|constructor|simpl; lia].
      split; [done|]. by intros (? & [=] & _). }
  exists (found ++ shape). unfold explore. rewrite Hfound, Hshape.
  split; [done|]. rewrite Forall_forall in Hfc, Hfs.
  split_and!.
  - rewrite <- Hcyc. unfold reports. split.
    + intros (i & [Hi|Hi]%elem_of_app & Ht).
      * intros ->. by apply elem_of_nil in Hi.
      * destruct (Hfs i Hi). congruence.
    + intros Hne. destruct found as [|i found']; [done|].
      exists i. split; [apply elem_of_app; left; apply list_elem_of_here|].
      apply Hfc, list_elem_of_here.
  - rewrite <- Hst. unfold reports. split.
    + intros (i & [Hi|Hi]%elem_of_app & Ht).
      * destruct (Hfc i Hi). congruence.
      * intros ->. by apply elem_of_nil in Hi.
    + intros Hne. destruct shape as [|i shape']; [done|].
      exists i. split; [apply elem_of_app; right; apply list_elem_of_here|].
      apply Hfs, list_elem_of_here.
  - apply Forall_forall. intros i [Hi|Hi]%elem_of_app; unfold graded.
    + by destruct (Hfc i Hi) as [-> ->].
    + by destruct (Hfs i Hi) as [-> ->].
  - rewrite length_app. lia.
Qed.

End ArchitectAgentFacts.

(** ** The [.env] file: which key is read from it *)

Module GeminiEnvFacts.
Import Chars Gemini GeminiEnv.

Local Abbreviation chars := list_ascii_of_string.

Lemma split_lines_one (x : string) :
  oneLine x → Orchestrator.split_lines x = [x].
Proof.
  unfold oneLine, Orchestrator.split_lines.
  induction x as [|c x IH]; cbn [list_ascii_of_string Orchestrator.split_on];
    [done|].
  intros [Hc Hx]%Forall_cons. destruct (decide _) as [|_]; [done|].
  by rewrite IH.
Qed.

Lemma split_lines_more (x y : string) :
  oneLine x →
  Orchestrator.split_lines (x +:+ Orchestrator.nl +:+ y) =
    x :: Orchestrator.split_lines y.
Proof.
  unfold oneLine, Orchestrator.split_lines.
  induction x as [|c x IH]; cbn [list_ascii_of_string]; intros Hx.
  - reflexivity.
  - apply Forall_cons in Hx as [Hc Hx].
    change (String c x +:+ Orchestrator.nl +:+ y)
      with (String c (x +:+ Orchestrator.nl +:+ y)).
    cbn [Orchestrator.split_on]. destruct (decide _) as [|_]; [done|].
    by rewrite IH.
Qed.

Lemma split_lines_join (x : string) (rest : list string) :
  oneLine x →
  ∃ more, Orchestrator.split_lines (Orchestrator.join Orchestrator.nl (x :: rest))
          = x :: more.
Proof.
  intros Hx. unfold Orchestrator.join. destruct rest as [|y rest].
  - exists []. by apply split_lines_one.
  - eexists. cbn [String.concat]. by apply split_lines_more.
Qed.

Lemma skipped_keyOfLine (line : string) : skipped line → keyOfLine line = None.
Proof.
  intros [_ [Hblank|Hcomment]]; unfold keyOfLine; cbv zeta.
  - rewrite Hblank. done.
  - rewrite Hcomment. by rewrite orb_true_r.
Qed.

Lemma parseEnv_join (comments rest : list string) (line key : string) :
  Forall skipped comments → oneLine line → keyOfLine line = Some key →
  parseEnv (Orchestrator.join Orchestrator.nl (comments ++ line :: rest))
    = Some key.
Proof.
  intros Hcomments Hline Hkey. unfold parseEnv.
  induction Hcomments as [|c comments Hc _ IH]; cbn [app].
  - destruct (split_lines_join line rest Hline) as [more ->].
    cbn [parseLines]. by rewrite Hkey.
  - unfold Orchestrator.join in *.
    destruct (comments ++ line :: rest) as [|y l] eqn:Hl;
      [by destruct comments|].
    cbn [String.concat]. rewrite split_lines_more by apply Hc.
    cbn [parseLines]. by rewrite skipped_keyOfLine.
Qed.

Lemma strip_prefix_app (p s : list ascii) : strip_prefix p (p ++ s) = Some s.
Proof.
  induction p as [|c p IH]; cbn [strip_prefix app]; [by destruct s|].
  by destruct (decide _).
Qed.

Lemma spaces_head (pad : list ascii) (c : ascii) (s : list ascii) :
  Forall (λ c, is_space c = true) pad → is_space c = false →
  ∃ others, spaces (pad ++ c :: s) = (c :: s) :: others.
Proof.
  intros Hpad Hc. induction Hpad as [|a pad Ha _ [others IH]]; cbn [app spaces].
  - rewrite Hc. by eexists.
  - rewrite Ha, IH. by eexists.
Qed.

Lemma trim_tight (c : ascii) (s : list ascii) (d : ascii) :
  is_space c = false → is_space d = false →
  trim (c :: s ++ [d]) = c :: s ++ [d] ∧ trim [c] = [c].
Proof.
  intros Hc Hd. unfold trim, trimEnd. cbn [trimStart]. rewrite Hc.
  split.
  - rewrite app_comm_cons, reverse_snoc. cbn [trimStart]. rewrite Hd.
    by rewrite <- reverse_snoc, reverse_involutive.
  - cbn. by rewrite Hc.
Qed.

Lemma trim_ends (a : ascii) (m tail : list ascii) :
  is_space a = false → Forall (λ c, is_space c = false) tail → tail ≠ [] →
  trim (a :: m ++ tail) = a :: m ++ tail.
Proof.
  intros Ha Htail Hne. destruct (reverse tail) as [|d r] eqn:Hr.
  - apply (f_equal reverse) in Hr. rewrite reverse_involutive in Hr. done.
  - apply (f_equal reverse) in Hr.
    rewrite reverse_involutive, reverse_cons in Hr. subst tail.
    apply Forall_app in Htail as [_ [Hd _]%Forall_cons].
    rewrite app_assoc. by apply trim_tight.
Qed.

Lemma trim_bare (a : ascii) (l : list ascii) :
  Forall (λ c, is_space c = false) (a :: l) → trim (a :: l) = a :: l.
Proof.
  intros [Ha Hl]%Forall_cons. destruct l as [|b l].
  - by apply (trim_tight a [] a).
  - by apply (trim_ends a [] (b :: l)).
Qed.

Lemma not_space_dot (c : ascii) : is_space c = false → is_dot c = true.
Proof. by destruct c as [[] [] [] [] [] [] [] []]. Qed.

Lemma quote_not_space (c : ascii) : is_quote c = true → is_space c = false.
Proof. by destruct c as [[] [] [] [] [] [] [] []]. Qed.

Lemma bind_first {A B} (f : A → list B) (x : A) (l : list A) (y : B) :
  (∃ ys, f x = y :: ys) → ∃ zs, (x :: l) ≫= f = y :: zs.
Proof. intros [ys Hf]. cbn [mbind list_bind]. rewrite Hf. by eexists. Qed.

(** What the pattern captures on a line that sets the key. *)
Lemma matchKey_value (pad2 pad3 : list ascii) (c : ascii) (value : list ascii) :
  Forall (λ c, is_space c = true) pad2 →
  Forall (λ c, is_space c = true) pad3 →
  Forall (λ c, is_space c = false) (c :: value) →
  matchKey (chars "GEMINI_API_KEY" ++ pad2 ++ chars "=" ++ pad3 ++ c :: value)
    = Some (c :: value).
Proof.
  intros H2 H3 Hvalue. unfold matchKey. rewrite strip_prefix_app.
  apply Forall_cons in Hvalue as Hboth. destruct Hboth as [Hc Hrest].
  destruct (spaces_head pad2 "=" (pad3 ++ c :: value) H2) as [o2 Ho2]; [done|].
  destruct (spaces_head pad3 c value H3 Hc) as [o3 Ho3].
  change (chars "=" ++ pad3 ++ c :: value)
    with ("="%char :: pad3 ++ c :: value).
  rewrite Ho2.
  pose proof (strip_prefix_app (chars "=") (pad3 ++ c :: value)) as Hstrip.
  change (chars "=" ++ pad3 ++ c :: value)
    with ("="%char :: pad3 ++ c :: value) in Hstrip.
  assert (forallb is_dot (c :: value) = true) as Hdots.
  { apply Is_true_true_1, forallb_True.
    eapply Forall_impl; [exact Hvalue|].
    intros a Ha. simpl. by rewrite not_space_dot. }
  match goal with
  | |- head (?l ≫= ?f) = _ =>
      destruct (bind_first f ("="%char :: pad3 ++ c :: value) o2 (c :: value))
        as [zs ->]; [|done]
  end.
  cbv beta. rewrite Hstrip.
  change (option_list (Some (pad3 ++ c :: value)))
    with [pad3 ++ c :: value].
  apply bind_first. rewrite Ho3. apply bind_first.
  rewrite Hdots, bool_decide_eq_true_2 by done. by eexists.
Qed.

Lemma unquote_quoted (q : ascii) (key : list ascii) :
  is_quote q = true → unquote (q :: key ++ [q]) = key.
Proof.
  intros Hq. unfold unquote. rewrite Hq, reverse_snoc, Hq.
  apply reverse_involutive.
Qed.

Lemma unquote_bare (key : list ascii) :
  Forall (λ c, is_quote c = false) key → unquote key = key.
Proof.
  intros Hkey. unfold unquote. destruct key as [|c key]; [done|].
  apply Forall_cons in Hkey as Hboth. destruct Hboth as [-> _].
  destruct (reverse (c :: key)) as [|d r] eqn:Hr; [|].
  - by apply (f_equal length) in Hr; rewrite length_reverse in Hr.
  - assert (d ∈ c :: key) as Hd.
    { apply elem_of_reverse. rewrite Hr. apply list_elem_of_here. }
    rewrite Forall_forall in Hkey. by rewrite (Hkey d Hd).
Qed.

Lemma keyLine_oneLine (pad1 pad2 pad3 pad4 q key : string) :
  Forall blank [pad1; pad2; pad3; pad4] → quoting q → bare key →
  oneLine (keyLine pad1 pad2 pad3 pad4 q key).
Proof.
  intros Hpads Hq [_ Hkey]. unfold oneLine, keyLine.
  rewrite !ParserFacts.list_ascii_of_string_app.
  rewrite !Forall_cons in Hpads. destruct Hpads as (H1 & H2 & H3 & H4 & _).
  assert (∀ pad, blank pad → Forall (λ c, c ≠ ascii_of_nat 10) (chars pad))
    as Hblank.
  { intros pad Hpad. eapply Forall_impl; [exact Hpad|]. by intros c [_ ?]. }
  assert (Forall (λ c, c ≠ ascii_of_nat 10) (chars q)) as Hquote.
  { destruct Hq as [->|[->| ->]]; by repeat constructor. }
  assert (Forall (λ c, c ≠ ascii_of_nat 10) (chars key)) as Hk.
  { eapply Forall_impl; [exact Hkey|]. intros c [Hc _] ->. done. }
  rewrite !Forall_app. split_and!; auto; by repeat constructor.
Qed.

Lemma keyOfLine_keyLine (pad1 pad2 pad3 pad4 q key : string) :
  Forall blank [pad1; pad2; pad3; pad4] → quoting q → bare key →
  keyOfLine (keyLine pad1 pad2 pad3 pad4 q key) = Some key.
Proof.
  intros Hpads Hq [Hne Hkey].
  rewrite !Forall_cons in Hpads. destruct Hpads as (H1 & H2 & H3 & H4 & _).
  assert (∀ pad, blank pad → Forall (λ c, is_space c) (chars pad)) as Hs.
  { intros pad Hpad. eapply Forall_impl; [exact Hpad|].
    intros c [-> _]. done. }
  assert (∀ pad, blank pad → Forall (λ c, is_space c = true) (chars pad))
    as Hs'.
  { intros pad Hpad. eapply Forall_impl; [exact Hpad|]. by intros c [? _]. }
  assert (∃ c value,
            chars q ++ chars key ++ chars q = c :: value ∧
            Forall (λ c, is_space c = false) (c :: value) ∧
            trim (c :: value) = c :: value ∧
            unquote (c :: value) = chars key) as (c & value & Hv & Hns & Ht & Hu).
  { assert (Forall (λ c, is_space c = false) (chars key)) as Hkns.
    { eapply Forall_impl; [exact Hkey|]. by intros c [? _]. }
    assert (Forall (λ c, is_quote c = false) (chars key)) as Hknq.
    { eapply Forall_impl; [exact Hkey|]. by intros c [_ ?]. }
    pose proof trim_bare as Htight.
    assert (∀ a, is_quote a = true →
                 Forall (λ c, is_space c = false) (a :: chars key ++ [a]))
      as Hquoted.
    { intros a Ha. constructor; [by apply quote_not_space|].
      apply Forall_app. split; [done|].
      constructor; [by apply quote_not_space|constructor]. }
    destruct Hq as [->|[->| ->]]; cbn [list_ascii_of_string dquote app].
    - rewrite app_nil_r. destruct (chars key) as [|c value] eqn:Hk.
      { destruct key; [done|discriminate]. }
      exists c, value. split_and!; [done|done|by apply Htight|].
      by apply unquote_bare.
    - eexists _, _. split; [done|].
      split_and!; [by apply Hquoted|by apply Htight, Hquoted|].
      by apply unquote_quoted.
    - eexists _, _. split; [done|].
      split_and!; [by apply Hquoted|by apply Htight, Hquoted|].
      by apply unquote_quoted. }
  assert (trim (chars (keyLine pad1 pad2 pad3 pad4 q key)) =
          chars "GEMINI_API_KEY" ++ chars pad2 ++ chars "=" ++ chars pad3 ++
          c :: value) as Htrim.
  { unfold keyLine. rewrite !ParserFacts.list_ascii_of_string_app.
    assert (chars pad1 ++ chars "GEMINI_API_KEY" ++ chars pad2 ++ chars "=" ++
            chars pad3 ++ chars q ++ chars key ++ chars q ++ chars pad4 =
            chars pad1 ++
            (chars "GEMINI_API_KEY" ++ chars pad2 ++ chars "=" ++ chars pad3 ++
             c :: value) ++ chars pad4) as ->.
    { rewrite <- Hv, <- !app_assoc. done. }
    rewrite ParserFacts.trim_spaces by auto.
    rewrite !app_assoc.
    change (chars "GEMINI_API_KEY") with ("G"%char :: chars "EMINI_API_KEY").
    rewrite <- !app_comm_cons. by apply trim_ends. }
  unfold keyOfLine. cbv zeta. rewrite Htrim.
  cbn [list_ascii_of_string app]. rewrite bool_decide_eq_false_2 by done.
  change (startsWith _ _) with false. cbn [orb].
  pose proof (matchKey_value (chars pad2) (chars pad3) c value
                (Hs' _ H2) (Hs' _ H3) Hns) as Hm.
  cbn [list_ascii_of_string app] in Hm. rewrite Hm, Ht, Hu.
  rewrite string_of_list_ascii_of_string.
  rewrite bool_decide_eq_false_2; [done|].
  by destruct key.
Qed.

(** The key of the first line that sets [GEMINI_API_KEY] is read
    back: comments and blank lines before it are passed over, the
    white space of the line and one pair of quotes around the value
    are dropped, and what follows the line is not looked at. *)
Theorem env_key_is_read_back (comments rest : list string)
    (pad1 pad2 pad3 pad4 q key : string) :
  Forall skipped comments →
  Forall blank [pad1; pad2; pad3; pad4] → quoting q → bare key →
  parseEnv (Orchestrator.join Orchestrator.nl
              (comments ++ keyLine pad1 pad2 pad3 pad4 q key :: rest))
    = Some key.
Proof.
  intros Hcomments Hpads Hq Hkey. apply parseEnv_join; [done| |].
  - by apply keyLine_oneLine.
  - by apply keyOfLine_keyLine.
Qed.

Lemma env_key_is_read_back_witness :
  parseEnv (Orchestrator.join Orchestrator.nl
              (["# local settings"; " "] ++
               keyLine " " " " " " " " "'" "abc123" :: ["OTHER=1"]))
    = Some "abc123".
Proof.
  apply (env_key_is_read_back ["# local settings"; " "] ["OTHER=1"]
           " " " " " " " " "'" "abc123").
  - unfold skipped, oneLine. compute_done.
  - unfold blank. compute_done.
  - right. by right.
  - unfold bare. compute_done.
Defined.

Lemma parseLines_key (lines : list string) (key : string) :
  parseLines lines = Some key →
  ∃ line, line ∈ lines ∧ keyOfLine line = Some key.
Proof.
  induction lines as [|line lines IH]; cbn [parseLines]; [done|].
  destruct (keyOfLine line) as [k|] eqn:Hline.
  - intros [= ->]. exists line. split; [apply list_elem_of_here|done].
  - intros (l & Hl & Hk)%IH. exists l. split; [by apply list_elem_of_further|done].
Qed.

Lemma keyOfLine_not_empty (line key : string) :
  keyOfLine line = Some key → key ≠ EmptyString ∧ ¬ skipped line.
Proof.
  intros Hkey. split.
  - revert Hkey. unfold keyOfLine. cbv zeta.
    destruct (_ || _); [done|]. destruct (matchKey _) as [group|]; [|done].
    case_bool_decide as Hne; [done|]. intros [= <-].
    by destruct (unquote (trim group)).
  - intros Hskip%skipped_keyOfLine. congruence.
Qed.

(** A key read from the [.env] file is never empty, comes from a
    line of that file that is neither blank nor a comment, and is the
    key [initialize] goes on with, whatever the settings say. *)
Theorem env_key_comes_first (workspaceFolder : option string)
    (pathJoin : string → string → string) (existsSync : string → bool)
    (readFileSync : string → Result string) (settings : Settings)
    (key : string) :
  getApiKeyFromEnv workspaceFolder pathJoin existsSync readFileSync
    = Some key →
  key ≠ EmptyString ∧ chosenKey (Some key) settings = key ∧
  ∃ root envContent line,
    workspaceFolder = Some root ∧
    readFileSync (pathJoin root ".env") = Ok envContent ∧
    line ∈ Orchestrator.split_lines envContent ∧ ¬ skipped line ∧
    keyOfLine line = Some key.
Proof.
  unfold getApiKeyFromEnv. destruct workspaceFolder as [root|]; [|done].
  destruct (existsSync _); [|done].
  destruct (readFileSync _) as [envContent|] eqn:Hread; [|done].
  intros (line & Hline & Hkey)%parseLines_key.
  destruct (keyOfLine_not_empty _ _ Hkey) as [Hne Hns].
  split_and!; [done| |by exists root, envContent, line].
  unfold chosenKey, truthy. by rewrite decide_False.
Qed.

Lemma env_key_comes_first_witness :
  getApiKeyFromEnv (Some "/w") (λ a b, a +:+ "/" +:+ b) (λ _, true)
    (λ _, Ok "GEMINI_API_KEY=abc123") = Some "abc123" ∧
  chosenKey (Some "abc123")
    {| geminiApiKey := "from-settings"; enableLLM := false |} = "abc123".
Proof.
  assert (getApiKeyFromEnv (Some "/w") (λ a b, a +:+ "/" +:+ b) (λ _, true)
            (λ _, Ok "GEMINI_API_KEY=abc123") = Some "abc123") as Hread
    by (by vm_compute).
  split; [exact Hread|].
  exact (proj1 (proj2 (env_key_comes_first _ _ _ _
                         {| geminiApiKey := "from-settings";
                            enableLLM := false |} _ Hread))).
Defined.

(** A file of blank lines and comments gives no key, so a key that
    is commented out is not read, and [initialize] goes on with the key
    of the settings. *)
Theorem env_comments_give_no_key (lines : list string) (settings : Settings) :
  Forall skipped lines →
  parseEnv (Orchestrator.join Orchestrator.nl lines) = None ∧
  chosenKey (parseEnv (Orchestrator.join Orchestrator.nl lines)) settings
    = geminiApiKey settings.
Proof.
  intros Hlines.
  assert (parseEnv (Orchestrator.join Orchestrator.nl lines) = None) as ->;
    [|done].
  unfold parseEnv, Orchestrator.join.
  induction Hlines as [|line lines Hline Hlines IH]; [done|].
  destruct lines as [|next lines].
  - cbn [String.concat]. rewrite split_lines_one by apply Hline.
    cbn [parseLines]. by rewrite skipped_keyOfLine.
  - cbn [String.concat] in *. rewrite split_lines_more by apply Hline.
    cbn [parseLines]. by rewrite skipped_keyOfLine.
Qed.

Lemma env_comments_give_no_key_witness :
  parseEnv (Orchestrator.join Orchestrator.nl
              ["# GEMINI_API_KEY=abc123"; " "]) = None ∧
  chosenKey (parseEnv (Orchestrator.join Orchestrator.nl
                         ["# GEMINI_API_KEY=abc123"; " "]))
            {| geminiApiKey := "from-settings"; enableLLM := false |}
    = "from-settings".
Proof.
  apply (env_comments_give_no_key ["# GEMINI_API_KEY=abc123"; " "]
           {| geminiApiKey := "from-settings"; enableLLM := false |}).
  unfold skipped, oneLine. compute_done.
Defined.

End GeminiEnvFacts.

(** ** The archaeologist: what its census counts *)

Module ArchaeologistFacts.
Import Archaeologist.

Section Host.
Variables dirname extname basename : string → string.
Variable workspacePath : string.

Local Abbreviation explore :=
  (Archaeologist.explore dirname extname basename workspacePath).
Local Abbreviation step :=
  (Archaeologist.step dirname extname basename workspacePath).

Lemma explore_snoc (allFiles : list string) (file : string) :
  explore (allFiles ++ [file]) = step (explore allFiles) file.
Proof. unfold Archaeologist.explore. by rewrite foldl_app. Qed.

Lemma elem_of_add (x y : string) (set : list string) :
  y ∈ add x set ↔ y = x ∨ y ∈ set.
Proof.
  unfold add. case_decide; [set_solver|].
  rewrite elem_of_app, list_elem_of_singleton. tauto.
Qed.

Lemma NoDup_add (x : string) (set : list string) :
  NoDup set → NoDup (add x set).
Proof.
  intros Hset. unfold add. case_decide; [done|].
  apply NoDup_app. split_and!; [done| |apply NoDup_singleton].
  intros y Hy ->%list_elem_of_singleton. done.
Qed.

(** The findings list every file the scanner listed, in its order.
    The folders are the directories of those files other than the
    workspace root, each once.  The entry points are the listed files
    whose base name is one of the eleven patterns, in the order of the
    listing.  The count of a language is the number of listed files
    whose extension belongs to it, and a language without a file has no
    count. *)
Theorem explore_census (allFiles : list string) :
  let found := explore allFiles in
  files found = allFiles ∧
  (NoDup (folders found) ∧
   ∀ folder, folder ∈ folders found ↔
             folder ≠ workspacePath ∧
             ∃ file, file ∈ allFiles ∧ dirname file = folder) ∧
  entryPoints found = entries basename allFiles ∧
  ∀ lang, languages found !! lang =
          match length (written_in extname lang allFiles) with
          | 0 => None
          | S n => Some (S n)
          end.
Proof.
  cbv zeta. induction allFiles as [|file allFiles IH] using rev_ind.
  - unfold Archaeologist.explore.
    cbn [foldl files folders languages entryPoints]. split_and!.
    + done.
    + apply NoDup_nil_2.
    + intros folder. split; [by intros ?%elem_of_nil|].
      by intros (_ & ? & ?%elem_of_nil & _).
    + done.
    + intros lang. apply lookup_empty.
  - destruct IH as (Hfiles & (Hnodup & Hfolders) & Hentry & Hlangs).
    rewrite explore_snoc. unfold Archaeologist.step.
    cbn [files folders languages entryPoints]. cbv zeta. split_and!.
    + by rewrite Hfiles.
    + case_decide; [by apply NoDup_add|done].
    + intros folder. case_decide as Hroot.
      * rewrite elem_of_add, Hfolders. split.
        -- intros [->|(? & f & Hf & <-)].
           ++ split; [done|]. exists file. split; [|done].
              apply elem_of_app. right. apply list_elem_of_here.
           ++ split; [done|]. exists f. split; [|done].
              apply elem_of_app. by left.
        -- intros (Hne & f & [Hf| ->%list_elem_of_singleton]%elem_of_app & <-).
           ++ right. split; [done|]. by exists f.
           ++ by left.
      * rewrite Hfolders. split.
        -- intros (? & f & Hf & <-). split; [done|]. exists f.
           split; [|done]. apply elem_of_app. by left.
        -- intros (Hne & f & [Hf| ->%list_elem_of_singleton]%elem_of_app & <-).
           ++ split; [done|]. by exists f.
           ++ destruct Hroot. done.
    + unfold entries. rewrite filter_app. fold (entries basename allFiles).
      rewrite Hentry. case_decide as Hin.
      * by rewrite filter_cons_True, filter_nil by done.
      * rewrite filter_cons_False, filter_nil by done. by rewrite app_nil_r.
    + intros lang. unfold written_in. rewrite filter_app, length_app.
      fold (written_in extname lang allFiles).
      destruct (getLanguage (extname file)) as [l|] eqn:Hl.
      * destruct (decide (l = lang)) as [->|Hne].
        -- rewrite lookup_insert_eq, Hlangs.
           rewrite filter_cons_True, filter_nil by done. cbn [length].
           destruct (length (written_in extname lang allFiles));
             cbn [default]; [done|].
           unfold id. by rewrite !Nat.add_1_r.
        -- rewrite lookup_insert_ne, Hlangs by done.
           rewrite filter_cons_False, filter_nil by congruence.
           cbn [length]. by rewrite Nat.add_0_r.
      * rewrite Hlangs, filter_cons_False, filter_nil by (by rewrite Hl).
        cbn [length]. by rewrite Nat.add_0_r.
Qed.

End Host.

End ArchaeologistFacts.

(** ** The risk assessor: where its findings point *)

Module RiskAssessorFacts.
Import Chars RiskAssessor.

Lemma elem_of_flagged (filePath : string) (lineNum : nat) (t : RiskType)
    (s : Severity) (l : string) (patterns : list (list atom * string))
    (r : RiskFinding) :
  r ∈ flagged filePath lineNum t s l patterns ↔
  ∃ pattern, pattern ∈ patterns ∧ test pattern.1 l = true ∧
             r = {| file := filePath; line := lineNum; type := t;
                    message := pattern.2; severity := s |}.
Proof.
  unfold flagged. rewrite list_elem_of_omap. split.
  - intros (pattern & Hin & Hr). exists pattern.
    destruct (test pattern.1 l); [|done]. by injection Hr as <-.
  - intros (pattern & Hin & Htest & ->). exists pattern.
    by rewrite Htest.
Qed.

Lemma elem_of_analyzeFile (filePath content : string) (r : RiskFinding) :
  r ∈ analyzeFile filePath content ↔
  (∃ index l, Orchestrator.split_lines content !! index = Some l ∧
              r ∈ lineRisks filePath index l) ∨
  ((500 < length (Orchestrator.split_lines content))%nat ∧
   r = {| file := filePath; line := 0; type := COMPLEXITY;
          message := "File is too long (" +:+
                     pretty (length (Orchestrator.split_lines content)) +:+
                     " lines)";
          severity := MEDIUM |}).
Proof.
  unfold analyzeFile. cbv zeta. rewrite elem_of_app, list_elem_of_join.
  apply Morphisms_Prop.or_iff_morphism.
  - split.
    + intros (found & Hr & (index & l & -> & Hl)%elem_of_lookup_imap).
      by exists index, l.
    + intros (index & l & Hl & Hr). eexists. split; [exact Hr|].
      by apply elem_of_lookup_imap_2.
  - case_decide as Hlong.
    + rewrite list_elem_of_singleton. tauto.
    + split; [by intros ?%elem_of_nil|]. by intros [? _].
Qed.

Lemma analyzeFile_placed (filePath content : string) (r : RiskFinding) :
  r ∈ analyzeFile filePath content →
  file r = filePath ∧ placed (length (Orchestrator.split_lines content)) r.
Proof.
  intros [(index & l & Hl & Hr)|[Hlong ->]]%elem_of_analyzeFile; [|done].
  apply lookup_lt_Some in Hl. unfold lineRisks in Hr. cbv zeta in Hr.
  apply elem_of_app in Hr
    as [(? & _ & _ & ->)%elem_of_flagged|(? & _ & _ & ->)%elem_of_flagged];
    (split; [done|]); unfold placed; cbn [type line severity];
    (split; [lia|done]).
Qed.

(** Every finding the agent stores names a file the archaeologist
    listed and that could be read.  A [SECURITY] finding is graded
    [HIGH] and a [TECH_DEBT] finding [LOW], and both point to a line of
    that file, counted from one; a [COMPLEXITY] finding is graded
    [MEDIUM], points to line 0, and is only made for a file of more than
    500 lines.  Without the archaeologist's findings nothing is
    stored. *)
Theorem explore_findings_are_placed (readFile : string → Result string)
    (archaeologistData : option Archaeologist.WorkspaceMetadata) :
  match explore readFile archaeologistData with
  | Some risks =>
      ∃ metadata, archaeologistData = Some metadata ∧
        Forall (λ r, file r ∈ Archaeologist.files metadata ∧
                     ∃ content, readFile (file r) = Ok content ∧
                       placed (length (Orchestrator.split_lines content)) r)
               risks
  | None => archaeologistData = None
  end.
Proof.
  unfold explore. destruct archaeologistData as [metadata|]; [|done].
  exists metadata. split; [done|]. apply Forall_forall. intros r.
  intros (f & Hr & Hf)%list_elem_of_bind.
  destruct (readFile f) as [content|] eqn:Hread; [|by apply elem_of_nil in Hr].
  destruct (analyzeFile_placed _ _ _ Hr) as [-> Hplaced].
  split; [done|]. by exists content.
Qed.

(** *** A literal pattern is a substring test *)

Lemma literal_strip_prefix (text s : list ascii) :
  literal false text s = strip_prefix text s.
Proof.
  revert s. induction text as [|p text IH]; intros [|c s];
    cbn [literal strip_prefix same]; try done.
  rewrite IH. case_bool_decide; case_decide; done.
Qed.

Lemma test_literal (word l : string) :
  test [Lit false word] l = includes l word.
Proof.
  unfold test, includes. generalize (list_ascii_of_string l). intros s.
  induction s as [|c s IH]; cbn [test_from includes_from match_here];
    rewrite literal_strip_prefix; unfold startsWith;
    destruct (strip_prefix _ _) eqn:Hs; rewrite ?IH; done.
Qed.

(** A line is reported for its console log, under its number counted
    from one, exactly when it contains the text [console.log]. *)
Theorem console_log_is_reported (filePath content : string) (index : nat)
    (l : string) :
  Orchestrator.split_lines content !! index = Some l →
  consoleLog filePath (index + 1) ∈ analyzeFile filePath content ↔
  includes l "console.log" = true.
Proof.
  intros Hl. rewrite <- test_literal, elem_of_analyzeFile. split.
  - intros [(i & l' & Hl' & Hr)|[_ [=]]].
    unfold lineRisks in Hr. cbv zeta in Hr.
    apply elem_of_app in Hr
      as [(? & _ & _ & [=])%elem_of_flagged
         |(pattern & Hin & Htest & [= Hi Hm])%elem_of_flagged].
    assert (i = index) as -> by lia. simplify_eq.
    unfold debtPatterns in Hin.
    rewrite !elem_of_cons in Hin.
    destruct Hin as [->|[->|[->|Hin]]];
      [discriminate Hm|discriminate Hm|exact Htest|by apply elem_of_nil in Hin].
  - intros Htest. left. exists index, l. split; [done|].
    unfold lineRisks. cbv zeta. apply elem_of_app. right.
    apply elem_of_flagged.
    exists ([Lit false "console.log"], "Console log found (production risk)").
    split; [|done]. unfold debtPatterns. set_solver.
Qed.

Lemma console_log_is_reported_witness :
  consoleLog "a.ts" 2 ∈
    analyzeFile "a.ts" ("let x = 1;" +:+ Orchestrator.nl +:+ "console.log(x);") ↔
  includes "console.log(x);" "console.log" = true.
Proof.
  apply (console_log_is_reported "a.ts"
           ("let x = 1;" +:+ Orchestrator.nl +:+ "console.log(x);") 1
           "console.log(x);").
  reflexivity.
Defined.

End RiskAssessorFacts.

(** ** The detective: where its dependencies come from *)

Module DetectiveFacts.
Import Chars Regex Detective.

Lemma strip_prefix_length (p s rest : list ascii) :
  strip_prefix p s = Some rest → length s = (length p + length rest)%nat.
Proof.
  revert s. induction p as [|a p IH]; intros [|b s]; cbn [strip_prefix];
    try done; try (by intros [= <-]).
  case_decide; [|done]. intros ?%IH. cbn [length]. lia.
Qed.

Lemma class_plus_length (cls : ascii → bool) (s rest : list ascii) :
  rest ∈ class_plus cls s → (length rest < length s)%nat.
Proof.
  intros (pre & -> & Hne & _)%ParserFacts.class_plus_split.
  rewrite length_app. destruct pre; [done|]. cbn [length]. lia.
Qed.

(** No way to match gives input back. *)
Lemma run_length (r : regex) (s : list ascii) (cap : option (list ascii))
    (th : thread) :
  th ∈ run r s cap → (length th.1 ≤ length s)%nat.
Proof.
  revert s cap th.
  induction r as [l|cls|r1 IH1 r2 IH2|r1 IH1 r2 IH2|r IH|r IH];
    intros s cap th Hin; cbn [run] in Hin.
  - destruct (strip_prefix _ s) as [rest|] eqn:Hs; [|by apply elem_of_nil in Hin].
    apply list_elem_of_singleton in Hin as ->.
    apply strip_prefix_length in Hs. cbn. lia.
  - apply list_elem_of_fmap in Hin as (rest & -> & Hin%class_plus_length).
    cbn. lia.
  - apply elem_of_app in Hin as [Hin|Hin]; eauto.
  - apply list_elem_of_bind in Hin as (th1 & Hin2 & Hin1).
    apply IH1 in Hin1. apply IH2 in Hin2. lia.
  - apply elem_of_app in Hin as [Hin|Hin]; [eauto|].
    by apply list_elem_of_singleton in Hin as ->.
  - apply list_elem_of_fmap in Hin as (th1 & -> & Hin). cbn. eauto.
Qed.

(** A pattern that starts with a word takes at least that word. *)
Lemma run_word (word : string) (r : regex) (s : list ascii)
    (cap : option (list ascii)) (th : thread) :
  word ≠ EmptyString → th ∈ run (Seq (Lit word) r) s cap →
  (length th.1 < length s)%nat.
Proof.
  intros Hword Hin. cbn [run] in Hin.
  apply list_elem_of_bind in Hin as (th1 & Hin2 & Hin1).
  destruct (strip_prefix _ s) as [rest|] eqn:Hs; [|by apply elem_of_nil in Hin1].
  apply list_elem_of_singleton in Hin1 as ->.
  apply strip_prefix_length in Hs. apply run_length in Hin2.
  destruct word; [done|]. cbn [list_ascii_of_string length fst] in *. lia.
Qed.

Lemma find_shorter (s : list ascii) (th : thread) :
  find jsImport s = Some th → (length th.1 < length s)%nat.
Proof.
  assert (∀ s th, head (run jsImport s None) = Some th →
                  (length th.1 < length s)%nat) as Hhead.
  { intros s' th' Hin%head_Some_elem_of. unfold jsImport in Hin.
    match type of Hin with
    | _ ∈ run (Alt ?a ?b) ?s ?c =>
        change (run (Alt a b) s c) with (run a s c ++ run b s c) in Hin
    end.
    apply elem_of_app in Hin as [Hin|Hin].
    - eapply (run_word "import"); [done|exact Hin].
    - eapply (run_word "require"); [done|exact Hin]. }
  induction s as [|c s IH]; cbn [find].
  - destruct (head _) as [th'|] eqn:Hh; [|done].
    intros [= <-]. by apply Hhead.
  - destruct (head _) as [th'|] eqn:Hh.
    + intros [= <-]. by apply Hhead.
    + intros ?%IH. cbn [length]. lia.
Qed.

Lemma matchAll_returns (fuel : nat) (s : list ascii) :
  (length s < fuel)%nat → is_Some (matchAll fuel jsImport s).
Proof.
  revert s. induction fuel as [|fuel IH]; intros s Hfuel; [lia|].
  cbn [matchAll]. destruct (find jsImport s) as [th|] eqn:Hfind; [|done].
  apply find_shorter in Hfind.
  destruct (IH th.1) as [rest ->]; [lia|]. done.
Qed.

Section Host.
Variables dirname extname : string → string.
Variables pathJoin pathResolve : string → string → string.
Variable readFile : string → Result string.
Variable workspacePath : string.

Local Abbreviation resolveJSModule :=
  (Detective.resolveJSModule dirname pathJoin pathResolve workspacePath).
Local Abbreviation extractFromFile :=
  (Detective.extractFromFile dirname extname pathJoin pathResolve workspacePath).
Local Abbreviation extractDependencies :=
  (Detective.extractDependencies dirname extname pathJoin pathResolve readFile
     workspacePath).
Local Abbreviation traced :=
  (Detective.traced dirname extname pathJoin pathResolve workspacePath).

Lemma resolveJSModule_workspace (modulePath fromFile target : string) :
  resolveJSModule modulePath fromFile = Some target →
  starts target workspacePath = true.
Proof.
  unfold Detective.resolveJSModule. cbv zeta.
  destruct (head _) as [found|] eqn:Hhead.
  - intros [= <-]. apply head_Some_elem_of in Hhead.
    apply list_elem_of_omap in Hhead as (ext & _ & Hext).
    destruct (starts (_ +:+ ext) _) eqn:H1; [by injection Hext as <-|].
    destruct (starts (pathJoin _ _) _) eqn:H2; [by injection Hext as <-|done].
  - destruct (starts _ _) eqn:H3; [|done]. by intros [= <-].
Qed.

Lemma dependency_Some (filePath : string) (resolved : option string)
    (d : Architect.Dependency) :
  dependency filePath resolved = Some d →
  Architect.from d = filePath ∧ resolved = Some (Architect.to d).
Proof.
  unfold dependency, Gemini.truthy. destruct resolved as [target|]; [|done].
  case_decide; [done|]. by intros [= <-].
Qed.

Lemma extractFromFile_traced (filePath content : string) :
  ∃ deps, extractFromFile filePath content = Some deps ∧
          Forall (λ d, Architect.from d = filePath ∧ traced d) deps.
Proof.
  unfold Detective.extractFromFile. cbv zeta.
  case_decide as Hpy; [|case_decide as Hjs].
  - eexists. split; [done|]. apply Forall_forall. intros d.
    unfold extractPythonImports.
    intros (line & _ & Hline)%list_elem_of_omap.
    unfold pythonLine in Hline.
    destruct (matchStart _ _) as [[moduleName|]|]; try done.
    destruct (absolute moduleName) eqn:Habs; [|done].
    apply dependency_Some in Hline as [Hfrom [= Hto]].
    split; [done|]. left. rewrite Hfrom. split; [done|].
    by exists moduleName.
  - unfold extractJSImports.
    destruct (matchAll_returns (S (String.length content))
                (list_ascii_of_string content)) as [captures ->].
    { clear. induction content; cbn; lia. }
    eexists. split; [done|]. apply Forall_forall. intros d.
    intros (capture & _ & Hcap)%list_elem_of_omap.
    unfold jsMatch in Hcap. destruct capture as [modulePath|]; [|done].
    destruct (absolute modulePath) eqn:Habs; [done|].
    apply dependency_Some in Hcap as [Hfrom Hto].
    split; [done|]. right. rewrite Hfrom. split; [done|].
    exists modulePath. split_and!; [done|done|].
    by eapply resolveJSModule_workspace.
  - exists []. split; [done|]. constructor.
Qed.

(** The detective always ends with a list, and every dependency on
    it starts at a listed file that could be read.  If that file is a
    Python file, the target is the module file next to it that an
    absolute module name gives; if it is a script, the target is what a
    relative module path resolves to, and lies in the workspace; files
    of other kinds have no dependencies. *)
Theorem extractDependencies_traced (files : list string) :
  ∃ deps, extractDependencies files = Some deps ∧
          Forall (λ d, Architect.from d ∈ files ∧
                       (∃ content, readFile (Architect.from d) = Ok content) ∧
                       traced d)
                 deps.
Proof.
  induction files as [|file files (more & Hmore & Hall)];
    cbn [Detective.extractDependencies].
  - exists []. split; [done|]. constructor.
  - rewrite Hmore. destruct (readFile file) as [content|] eqn:Hread.
    + destruct (extractFromFile_traced file content) as (found & -> & Hfound).
      exists (found ++ more). split; [done|]. apply Forall_app. split.
      * eapply Forall_impl; [exact Hfound|].
        intros d [<- Htraced]. split_and!; [apply list_elem_of_here| |done].
        by exists content.
      * eapply Forall_impl; [exact Hall|].
        intros d (? & ? & ?). split_and!; [by apply list_elem_of_further|done..].
    + exists more. split; [done|].
      eapply Forall_impl; [exact Hall|].
      intros d (? & ? & ?). split_and!; [by apply list_elem_of_further|done..].
Qed.

Lemma strip_prefix_more (p s rest extra : list ascii) :
  strip_prefix p s = Some rest → strip_prefix p (s ++ extra) = Some (rest ++ extra).
Proof.
  revert s. induction p as [|a p IH]; intros [|b s]; cbn [strip_prefix app];
    try done.
  - intros [= <-]. by destruct extra.
  - by intros [= <-].
  - case_decide; [apply IH|done].
Qed.

(** A module path that resolves into the workspace is answered with
    the extension [.ts] added, whatever the path was and whatever files
    there are. *)
Theorem resolveJSModule_adds_ts (modulePath fromFile : string) :
  starts (pathResolve (dirname fromFile) modulePath) workspacePath = true →
  resolveJSModule modulePath fromFile =
    Some (pathResolve (dirname fromFile) modulePath +:+ ".ts").
Proof.
  intros Hin. unfold Detective.resolveJSModule. cbv zeta.
  unfold extensions. cbn [omap list_omap].
  assert (starts (pathResolve (dirname fromFile) modulePath +:+ ".ts")
                 workspacePath = true) as ->; [|done].
  unfold starts, startsWith in *.
  rewrite ParserFacts.list_ascii_of_string_app.
  apply bool_decide_eq_true in Hin as [rest Hrest].
  apply bool_decide_eq_true. eexists. by apply strip_prefix_more.
Qed.

(** *** Python imports, line by line *)

Local Abbreviation chars := list_ascii_of_string.









End Host.


Lemma resolveJSModule_adds_ts_witness :
  Detective.resolveJSModule (λ _, "/w/src") (λ a b, a +:+ "/" +:+ b)
    (λ a b, a +:+ "/" +:+ b) "/w" "util" "/w/src/a.ts"
    = Some "/w/src/util.ts".
Proof.
  apply (resolveJSModule_adds_ts (λ _, "/w/src") (λ a b, a +:+ "/" +:+ b)
           (λ a b, a +:+ "/" +:+ b) "/w" "util" "/w/src/a.ts").
  reflexivity.
Defined.

End DetectiveFacts.

(** ** The graph view: colours and links *)

Module WebviewFacts.
Import Chars KnowledgeGraph Webview.

Lemma riskMapOf_snoc (riskData : list RiskAssessor.RiskFinding)
    (r : RiskAssessor.RiskFinding) :
  riskMapOf (riskData ++ [r]) = note (riskMapOf riskData) r.
Proof. unfold riskMapOf. by rewrite foldl_app. Qed.

Lemma head_snoc {A} (l : list A) (x : A) :
  head (l ++ [x]) = match head l with Some y => Some y | None => Some x end.
Proof. by destruct l. Qed.

Lemma deciding_snoc (file : string) (riskData : list RiskAssessor.RiskFinding)
    (r : RiskAssessor.RiskFinding) :
  deciding file (riskData ++ [r]) =
  if decide (RiskAssessor.file r = file) then
    match deciding file riskData with
    | Some x =>
        if decide (RiskAssessor.severity r = RiskAssessor.HIGH ∧
                   RiskAssessor.severity x ≠ RiskAssessor.HIGH)
        then Some r else Some x
    | None => Some r
    end
  else deciding file riskData.
Proof.
  unfold deciding, findingsOf. rewrite filter_app.
  case_decide as Hfile.
  - rewrite filter_cons_True, filter_nil by done.
    set (found := filter (λ r, RiskAssessor.file r = file) riskData).
    rewrite filter_app.
    destruct (head (filter _ found)) as [x|] eqn:Hhigh.
    + assert (RiskAssessor.severity x = RiskAssessor.HIGH) as Hx.
      { apply head_Some_elem_of, list_elem_of_filter in Hhigh. tauto. }
      rewrite decide_False by tauto.
      destruct (filter _ found) as [|y high]; [done|].
      by injection Hhigh as ->.
    + apply head_None in Hhigh. rewrite Hhigh. cbn [app].
      destruct found as [|x found'] eqn:Hfound.
      * cbn [head app].
        destruct (decide (RiskAssessor.severity r = RiskAssessor.HIGH)).
        -- by rewrite filter_cons_True by done.
        -- by rewrite filter_cons_False by done.
      * cbn [head app].
        assert (RiskAssessor.severity x ≠ RiskAssessor.HIGH) as Hx.
        { intros Hx. rewrite filter_cons_True in Hhigh by done. done. }
        destruct (decide (RiskAssessor.severity r = RiskAssessor.HIGH)) as [Hr|Hr].
        -- rewrite filter_cons_True, decide_True by done. done.
        -- rewrite filter_cons_False, decide_False by tauto. done.
  - rewrite filter_cons_False, filter_nil, app_nil_r by done. done.
Qed.

(** The colour the view remembers for a file is that of its first
    finding graded [HIGH], and that of its first finding when none is
    graded [HIGH]; a file without findings has none, and neither has
    the empty path. *)
Theorem riskMap_first_high (riskData : list RiskAssessor.RiskFinding)
    (file : string) :
  riskMapOf riskData !! file =
  if decide (file = EmptyString) then None
  else info <$> deciding file riskData.
Proof.
  induction riskData as [|r riskData IH] using rev_ind.
  - unfold riskMapOf. cbn [foldl]. rewrite lookup_empty. by case_decide.
  - rewrite riskMapOf_snoc, deciding_snoc. unfold note.
    destruct (decide (file = EmptyString)) as [->|Hfile].
    + destruct (decide (RiskAssessor.file r = EmptyString)); [exact IH|].
      destruct (riskMapOf riskData !! RiskAssessor.file r) as [existing|];
        [case_decide|]; rewrite ?lookup_insert_ne by done; exact IH.
    + destruct (decide (RiskAssessor.file r = EmptyString)) as [Hempty|Hnamed].
      { rewrite IH, decide_False; [done|]. congruence. }
      destruct (decide (RiskAssessor.file r = file)) as [->|Hother].
      * rewrite IH.
        destruct (deciding _ riskData) as [x|];
          cbn [fmap option_fmap option_map].
        -- change (severity (info x)) with (RiskAssessor.severity x).
           case_decide; [by rewrite lookup_insert_eq|]. by rewrite IH.
        -- by rewrite lookup_insert_eq.
      * destruct (riskMapOf riskData !! RiskAssessor.file r) as [existing|];
          [case_decide|]; rewrite ?lookup_insert_ne by done; exact IH.
Qed.

(** *** Calls in the view of a built graph *)

Section Host.
Variable basename : string → string.

Lemma elem_of_linksOf (graph : KnowledgeGraph) (node : Node) (e : Edge) :
  node ∈ getNodesByType graph File ++ getNodesByType graph Function →
  e ∈ edges graph → from e = KnowledgeGraph.id node →
  etype e = CALLS ∨ etype e = IMPORTS →
  link e ∈ linksOf graph.
Proof.
  intros Hnode He Hfrom Htype. unfold linksOf.
  apply list_elem_of_bind. exists node. split; [|done].
  apply list_elem_of_fmap. exists e. split; [done|].
  apply list_elem_of_filter. split; [done|].
  unfold getOutgoingEdges. by apply list_elem_of_filter.
Qed.

Lemma elem_of_connectedIds (links : list Link) (l : Link) :
  l ∈ links → source l ∈ connectedIds links ∧ target l ∈ connectedIds links.
Proof.
  intros Hl. unfold connectedIds.
  split; apply elem_of_list_to_set, list_elem_of_bind; exists l;
    (split; [|done]); set_solver.
Qed.

Lemma payload_unmarked (graph : KnowledgeGraph)
    (riskData : list RiskAssessor.RiskFinding) (n : GraphNode) :
  n ∈ (getGraphPayload basename graph riskData).1 →
  id n ∈ connectedIds (linksOf graph) → risk n ≠ ISOLATED.
Proof.
  unfold getGraphPayload. cbv zeta. cbn [fst].
  intros (m & -> & Hm)%list_elem_of_fmap. unfold mark.
  case_decide as Hin; [|done]. intros _.
  apply elem_of_app in Hm
    as [(? & -> & _)%list_elem_of_fmap|(? & -> & _)%list_elem_of_fmap];
    done.
Qed.

(** In the view of a graph built from the empty one, every call is
    drawn as a link, and neither the caller nor the callee is coloured
    [ISOLATED], provided the id of the calling function is not the path
    of a listed folder.  (If it is, the node of that id stays a
    [Folder] node, and the view draws the edges of [File] and [Function]
    nodes only.) *)
Theorem payload_shows_every_call
    (pythonExtract jsExtract : string → Result (list FunctionInfo))
    (metadata : option Extension.WorkspaceMetadata)
    (dependencies : option (list Architect.Dependency))
    (riskData : list RiskAssessor.RiskFinding) (e : Edge) :
  let graph := Extension.buildKnowledgeGraph pythonExtract jsExtract
                 KnowledgeGraph.empty metadata dependencies in
  let payload := getGraphPayload basename graph riskData in
  e ∈ edges graph → etype e = CALLS →
  from e ∉ Extension.listedFolders metadata →
  link e ∈ payload.2 ∧
  ∀ n, n ∈ payload.1 → id n = from e ∨ id n = to e → risk n ≠ ISOLATED.
Proof.
  cbv zeta. intros He Hcalls Hfolder.
  pose proof (ExtensionFacts.build_sound pythonExtract jsExtract metadata
                dependencies) as Hsound.
  destruct (ExtensionFacts.sound_caller _ _ _ e Hsound He Hcalls)
    as (node & Hnode & Hid & Hkind).
  assert (link e ∈ linksOf
            (Extension.buildKnowledgeGraph pythonExtract jsExtract
               KnowledgeGraph.empty metadata dependencies)) as Hlink.
  { apply (elem_of_linksOf _ node); [|done|done|by left].
    unfold getNodesByType. rewrite elem_of_app, !list_elem_of_filter.
    destruct (KnowledgeGraph.type node); [by left|done|by right]. }
  split; [exact Hlink|].
  intros n Hn Hend. apply (payload_unmarked _ _ _ Hn).
  apply elem_of_connectedIds in Hlink as [Hs Ht].
  destruct Hend as [-> | ->]; done.
Qed.

End Host.

Lemma payload_shows_every_call_witness :
  let e := {| from := "a.ts::main"; to := "a.ts::foobar"; etype := CALLS |} in
  link e ∈ (getGraphPayload Orchestrator.posixBasename Extension.built []).2.
Proof.
  cbv zeta.
  apply (payload_shows_every_call Orchestrator.posixBasename
           (λ _, Ok []) (λ _, Ok [Extension.foobar; Extension.foo; Extension.main])
           (Some {| Extension.files := ["a.ts"]; Extension.folders := [] |})
           None []
           {| from := "a.ts::main"; to := "a.ts::foobar"; etype := CALLS |}).
  - apply list_elem_of_In. vm_compute. tauto.
  - done.
  - by intros ?%elem_of_nil.
Defined.

End WebviewFacts.

(** ** The historian: what its history counts *)

Module HistorianFacts.
Import Chars Historian.

Lemma length_add (x : string) (set : list string) :
  (length set ≤ length (Archaeologist.add x set) ≤ S (length set))%nat ∧
  (1 ≤ length (Archaeologist.add x set))%nat.
Proof.
  unfold Archaeologist.add. case_decide as Hin.
  - split; [lia|]. destruct set; [by apply elem_of_nil in Hin|]. cbn. lia.
  - rewrite length_app. cbn. lia.
Qed.

(** [record] touches the entry of the file, which it makes at the
    end when there is none, and leaves the others. *)
Lemma record_touches (filePath author : string) (date : option Z)
    (entries : list FileHistory) :
  ((filePath ∉ file <$> entries) ∧
   record filePath author date entries =
     entries ++ [touch author date {| file := filePath; commits := 0;
                                      authors := []; lastModified := 0 |}]) ∨
  (∃ before entry after,
     entries = before ++ entry :: after ∧ file entry = filePath ∧
     record filePath author date entries =
       before ++ touch author date entry :: after).
Proof.
  induction entries as [|e entries IH]; cbn [record].
  - left. split; [by intros ?%elem_of_nil|done].
  - case_decide as He.
    + right. by exists [], e, entries.
    + destruct IH as [[Hnew ->]|(before & entry & after & -> & Hfile & ->)].
      * left. split; [|done]. rewrite fmap_cons, elem_of_cons. naive_solver.
      * right. by exists (e :: before), entry, after.
Qed.

Section Host.
Variable pathJoin : string → string → string.
Variable parseDate : string → option Z.
Variable now : Z.
Variable workspacePath : string.

Local Abbreviation step := (Historian.step pathJoin parseDate workspacePath).
Local Abbreviation named := (Historian.named pathJoin workspacePath).
Local Abbreviation mentions := (Historian.mentions pathJoin workspacePath).

Local Abbreviation counted := (Historian.counted pathJoin workspacePath).

Lemma mentions_snoc_path (filePath line : string) (lines : list string) :
  line ∈ pathLines [line] →
  mentions filePath (lines ++ [line]) =
    mentions filePath lines ++ (if decide (named line = filePath) then [line] else []).
Proof.
  intros Hline. unfold pathLines in Hline.
  apply list_elem_of_filter in Hline as [Hp _].
  unfold Historian.mentions, pathLines. rewrite !filter_app. f_equal.
  rewrite (filter_cons_True _ line), filter_nil by done.
  case_decide.
  - by rewrite filter_cons_True, filter_nil.
  - by rewrite filter_cons_False, filter_nil.
Qed.

Lemma counted_path (lines : list string) (line author : string)
    (date : option Z) (entries : list FileHistory) :
  line ∈ pathLines [line] → counted lines entries →
  counted (lines ++ [line]) (record (named line) author date entries).
Proof.
  intros Hline (Hnodup & Hseen & Hcount).
  assert (∀ l, l ∈ pathLines (lines ++ [line]) ↔ l ∈ pathLines lines ∨ l = line)
    as Hlines.
  { intros l. unfold pathLines in *. rewrite filter_app, elem_of_app.
    apply list_elem_of_filter in Hline as [Hp _].
    rewrite (filter_cons_True _ line), filter_nil by done.
    by rewrite list_elem_of_singleton. }
  rewrite Forall_forall in Hcount.
  destruct (record_touches (named line) author date entries)
    as [[Hnew ->]|(before & entry & after & -> & Hfile & ->)].
  - assert (mentions (named line) lines = []) as Hnone.
    { destruct (mentions (named line) lines) as [|l ls] eqn:Hm; [done|].
      assert (l ∈ mentions (named line) lines) as Hl
        by (rewrite Hm; apply list_elem_of_here).
      apply list_elem_of_filter in Hl as [Hnamed Hl].
      destruct Hnew. rewrite <- Hnamed. by apply Hseen. }
    split_and!.
    + rewrite fmap_app. apply NoDup_app. split_and!; [done| |apply NoDup_singleton].
      intros f Hf ->%list_elem_of_singleton. done.
    + intros l [Hl| ->]%Hlines; rewrite fmap_app, elem_of_app.
      * left. by apply Hseen.
      * right. apply list_elem_of_here.
    + apply Forall_app. split.
      * apply Forall_forall. intros e He.
        destruct (Hcount e He) as (Hc & Ha & Hl).
        rewrite mentions_snoc_path by done.
        rewrite decide_False, app_nil_r; [done|].
        intros Heq. destruct Hnew. rewrite Heq.
        apply list_elem_of_fmap. by exists e.
      * constructor; [|constructor]. cbn [touch file commits authors].
        rewrite mentions_snoc_path by done.
        rewrite Hnone, decide_True by done.
        destruct (length_add author []) as [? ?]. cbn [length] in *.
        split_and!; [done| |lia..].
        apply ArchaeologistFacts.NoDup_add. constructor.
  - rewrite fmap_app, fmap_cons in Hnodup, Hseen.
    assert (∀ e, e ∈ before ++ after → file e ≠ named line) as Hothers.
    { intros e He Heq. apply NoDup_app in Hnodup as (_ & Hba & Hn).
      apply NoDup_cons in Hn as [Hn _].
      apply elem_of_app in He as [He|He].
      - apply (Hba (file e)); [apply list_elem_of_fmap; by exists e|].
        rewrite Heq, Hfile. apply list_elem_of_here.
      - apply Hn. rewrite Hfile, <- Heq. apply list_elem_of_fmap. by exists e. }
    split_and!.
    + by rewrite fmap_app, fmap_cons.
    + intros l [Hl| ->]%Hlines; rewrite fmap_app, fmap_cons;
        cbn [touch file].
      * by apply Hseen.
      * rewrite Hfile. apply elem_of_app. right. apply list_elem_of_here.
    + apply Forall_forall. intros e He.
      rewrite mentions_snoc_path by done.
      apply elem_of_app in He as [He|[->|He]%elem_of_cons].
      * rewrite decide_False, app_nil_r.
        -- apply Hcount. apply elem_of_app. by left.
        -- intros Heq. apply (Hothers e); [|done]. apply elem_of_app. by left.
      * cbn [touch file commits authors]. rewrite Hfile, decide_True by done.
        destruct (Hcount entry) as (Hc & Ha & Hl).
        { apply elem_of_app. right. apply list_elem_of_here. }
        rewrite length_app, <- Hfile, <- Hc. cbn [length].
        destruct (length_add author (authors entry)) as [? ?].
        split_and!; [lia| |lia..]. by apply ArchaeologistFacts.NoDup_add.
      * rewrite decide_False, app_nil_r.
        -- apply Hcount. apply elem_of_app. right. by apply list_elem_of_further.
        -- intros Heq. apply (Hothers e); [|done]. apply elem_of_app. by right.
Qed.

Lemma counted_other (lines : list string) (line : string)
    (entries : list FileHistory) :
  pathLines [line] = [] → counted lines entries →
  counted (lines ++ [line]) entries.
Proof.
  intros Hline (Hnodup & Hseen & Hcount).
  assert (pathLines (lines ++ [line]) = pathLines lines) as Hsame.
  { unfold pathLines in *. by rewrite filter_app, Hline, app_nil_r. }
  unfold Historian.counted, Historian.mentions. rewrite Hsame. by split_and!.
Qed.

Lemma step_counted (lines : list string) (line : string) (st : Cursor) :
  counted lines (historyMap st) →
  counted (lines ++ [line]) (historyMap (step st line)).
Proof.
  intros Hst. unfold Historian.step. case_decide as Hblank.
  { apply counted_other; [|done]. unfold pathLines.
    rewrite filter_cons_False, filter_nil; [done|]. tauto. }
  destruct (Detective.starts line "commit:") eqn:Hcommit.
  { assert (pathLines [line] = []) as Hnone.
    { unfold pathLines. rewrite filter_cons_False, filter_nil; [done|].
      rewrite Hcommit. by intros [_ ?]. }
    destruct (Orchestrator.split_on _ line) as [|? [|? [|? ?]]];
      by apply counted_other. }
  cbn [historyMap]. apply counted_path; [|done].
  unfold pathLines. rewrite filter_cons_True by done. apply list_elem_of_here.
Qed.

(** The history has one entry for each file the log names, and no
    file twice.  The commits of an entry are the lines of the log that
    name its file, so at least one; its authors are listed once each,
    and are at least one and at most as many as the commits. *)
Theorem analyzeGitHistory_counts (output : string) :
  let lines := Orchestrator.split_lines output in
  let history := analyzeGitHistory pathJoin parseDate now workspacePath output in
  NoDup (file <$> history) ∧
  (∀ filePath, filePath ∈ file <$> history ↔
               filePath ∈ named <$> pathLines lines) ∧
  Forall (λ entry,
            commits entry = length (mentions (file entry) lines) ∧
            NoDup (authors entry) ∧
            (1 ≤ length (authors entry) ≤ commits entry)%nat)
         history.
Proof.
  cbv zeta. unfold analyzeGitHistory.
  generalize (Orchestrator.split_lines output). intros lines.
  assert (counted lines
            (historyMap
               (foldl step
                  {| historyMap := []; currentAuthor := EmptyString;
                     currentDate := Some now |} lines)))
    as (Hnodup & Hseen & Hcount).
  { induction lines as [|line lines IH] using rev_ind.
    - split_and!; [constructor| |constructor].
      intros line Hline. by apply elem_of_nil in Hline.
    - rewrite foldl_app. cbn [foldl]. by apply step_counted. }
  split_and!; [done| |done].
  intros filePath. split.
  - intros (entry & -> & Hentry)%list_elem_of_fmap.
    rewrite Forall_forall in Hcount.
    destruct (Hcount entry Hentry) as (Hc & _ & Hl).
    destruct (mentions (file entry) lines) as [|l ls] eqn:Hm;
      [cbn in Hc; lia|].
    assert (l ∈ mentions (file entry) lines) as Hin
      by (rewrite Hm; apply list_elem_of_here).
    apply list_elem_of_filter in Hin as [<- Hin].
    apply list_elem_of_fmap. by exists l.
  - intros (line & -> & Hline)%list_elem_of_fmap. by apply Hseen.
Qed.

End Host.

End HistorianFacts.
